(** * AutoHeal Agent: the Issue Ledger, the Sandbox Runtime and the Healing Loop

    A shallow embedding of the backend of the AutoHeal agent
    (backend/src/agents/orchestrator.js, solver.js, docker.js, the Python
    engine and the legacy LangGraph pipeline) and the properties of its
    issue ledger, sandbox teardown discipline and bounded healing loop.

    Conventions of the embedding.
    - JS objects that are mutated in place and shared by reference (the
      entries of [currentLog.issues]) live in a list that plays the role of
      the store; a reference to an entry is its position in that list.
    - [issues_log.json] is a store cell holding the list of issues: the
      orchestrator and the solver read and write it between every step, and
      [JSON.parse (JSON.stringify x)] is the identity on the records used.
    - External collaborators (sandbox, LLM calls, git) are functions supplied
      by the environment; a call that throws returns [Throw msg].
    - [results.json] and [issues_log.json], which the controller itself
      creates, can be read throughout a run, and the writes whose errors
      the code swallows ([updateFrontend], the solver's status updates)
      take effect. The file system that the solver repairs holds every
      other file.
    - Strings are JavaScript strings written in UTF-8.
    - [line] is a non-negative integer, as the diagnostic prompt requires;
      the elements of a diagnosis that is scanned to its end carry string
      [file], [type] and [description]. *)

From stdpp Require Import gmap strings list pretty.

Open Scope string_scope.
Open Scope list_scope.

(** ** The Issue Ledger (orchestrator.js, steps C, D and E of the loop) *)

Module Ledger.

(** The four status strings written to [issues_log.json]. *)
Inductive Status : Type :=
  | OPEN
  | FIXED
  | FAILED_FILE_NOT_FOUND
  | FAILED_GENERATION.

#[global] Instance Status_eq_dec : EqDecision Status.
Proof. solve_decision. Defined.

(** An entry of [currentLog.issues]. [fixedAt] is absent until the solver's
    [updateIssueStatus] writes it. *)
Record Issue : Type := mkIssue {
  file : string;
  type : string;
  line : N;
  description : string;
  status : Status;
  discoveredAt : nat;
  fixedAt : option string
}.

#[global] Instance Issue_eq_dec : EqDecision Issue.
Proof. solve_decision. Defined.

(** What [analyzeOutput] returns for one issue. The oracle is asked to
    return [status: "OPEN"] too; the merge overwrites that field. *)
Record Discovered : Type := mkDiscovered {
  d_file : string;
  d_type : string;
  d_line : N;
  d_description : string
}.

#[global] Instance Discovered_eq_dec : EqDecision Discovered.
Proof. solve_decision. Defined.

(** The template literal [`${file}::${type}::${line}`]. *)
Definition keyOf (f t : string) (l : N) : string :=
  f +:+ "::" +:+ t +:+ "::" +:+ pretty l.

Definition issueKey (iss : Issue) : string :=
  keyOf (file iss) (type iss) (line iss).

Definition discKey (disc : Discovered) : string :=
  keyOf (d_file disc) (d_type disc) (d_line disc).

(** [keys] of line 144: the exact key and the line-0 fallback. *)
Definition discKeys (disc : Discovered) : list string :=
  [ keyOf (d_file disc) (d_type disc) (d_line disc);
    keyOf (d_file disc) (d_type disc) 0 ].

(** The identity triple the solver compares with [===]. *)
Definition identity (iss : Issue) : string * string * N :=
  (file iss, type iss, line iss).

Definition REOPEN_NOTE : string :=
  " [NOTE: Previous fix failed. Try a different approach.]".

(** Lines 154-155: [existingFixed.status = 'OPEN'] and the note appended to
    [existingFixed.description]; every other field is left as it is. *)
Definition reopen (iss : Issue) : Issue :=
  {| file := file iss;
     type := type iss;
     line := line iss;
     description := description iss +:+ REOPEN_NOTE;
     status := OPEN;
     discoveredAt := discoveredAt iss;
     fixedAt := fixedAt iss |}.

(** Line 190: [{ ...iss, status: 'OPEN', discoveredAt: i }]. *)
Definition openEntry (disc : Discovered) (i : nat) : Issue :=
  {| file := d_file disc;
     type := d_type disc;
     line := d_line disc;
     description := d_description disc;
     status := OPEN;
     discoveredAt := i;
     fixedAt := None |}.

(** Lines 126-130: keys of the entries whose status is not OPEN. *)
Definition addressedKeysOf (issues : list Issue) : gset string :=
  list_to_set (issueKey <$> filter (λ iss, status iss ≠ OPEN) issues).

(** State of the scan of [discovered] (lines 140-161). [issues] is
    [currentLog.issues]; [reOpenedIssues] holds references into it. *)
Record Scan : Type := mkScan {
  issues : list Issue;
  newIssues : list Discovered;
  reOpenedIssues : list nat
}.

(** The predicate given to [currentLog.issues.find] (lines 147-149). *)
Definition fixedMatch (disc : Discovered) (iss : Issue) : Prop :=
  issueKey iss ∈ discKeys disc ∧ status iss = FIXED.

#[global] Instance fixedMatch_dec disc iss : Decision (fixedMatch disc iss).
Proof. unfold fixedMatch. apply _. Defined.

(** One turn of [for (const disc of discovered)] (lines 143-161). *)
Definition scanStep (addressedKeys : gset string) (st : Scan) (disc : Discovered)
  : Scan :=
  match list_find (fixedMatch disc) (issues st) with
  | Some (idx, existingFixed) =>
      {| issues := <[idx := reopen existingFixed]> (issues st);
         newIssues := newIssues st;
         reOpenedIssues := reOpenedIssues st ++ [idx] |}
  | None =>
      if decide (discKey disc ∈ addressedKeys)
      then st
      else {| issues := issues st;
              newIssues := newIssues st ++ [disc];
              reOpenedIssues := reOpenedIssues st |}
  end.

(** Steps C and D: the snapshot of addressed keys, then the scan. *)
Definition scanDiscovered (currentIssues : list Issue) (discovered : list Discovered)
  : Scan :=
  foldl (scanStep (addressedKeysOf currentIssues))
        {| issues := currentIssues; newIssues := []; reOpenedIssues := [] |}
        discovered.

(** Step E (lines 187-192). [existingKeys] is built once, before the loop,
    and is not extended when an entry is pushed. *)
Definition appendNew (i : nat) (currentIssues : list Issue)
    (newIss : list Discovered) : list Issue :=
  let existingKeys : gset string := list_to_set (issueKey <$> currentIssues) in
  foldl (λ acc iss,
           if decide (discKey iss ∈ existingKeys) then acc
           else acc ++ [openEntry iss i])
        currentIssues newIss.

(** The merge of one batch of discovered issues at iteration [i]:
    steps C, D and E in sequence. *)
Definition merge (currentIssues : list Issue) (discovered : list Discovered)
    (i : nat) : Scan :=
  let st := scanDiscovered currentIssues discovered in
  {| issues := appendNew i (issues st) (newIssues st);
     newIssues := newIssues st;
     reOpenedIssues := reOpenedIssues st |}.

(** [updateIssueStatus] of the solver (lines 331-344): the first entry
    whose triple is [(f, t, l)] gets the new status and a fresh [fixedAt],
    whatever the new status is. Nothing happens when there is none. *)
Definition updateIssueStatus (now : string) (f t : string) (l : N)
    (newStatus : Status) (log : list Issue) : list Issue :=
  match list_find (λ iss, file iss = f ∧ type iss = t ∧ line iss = l) log with
  | Some (idx, issue) =>
      <[idx := {| file := file issue;
                  type := type issue;
                  line := line issue;
                  description := description issue;
                  status := newStatus;
                  discoveredAt := discoveredAt issue;
                  fixedAt := Some now |}]> log
  | None => log
  end.

End Ledger.

(** ** JavaScript control effects: calls that may throw *)

Module Js.

(** The result of an awaited call: a value, or a thrown [Error] with its
    [message]. *)
Inductive Outcome (A : Type) : Type :=
  | Ret (a : A)
  | Throw (message : string).
Arguments Ret {A} a.
Arguments Throw {A} message.

(** [s.includes(sub)]. *)
Definition includes (sub s : string) : bool :=
  match String.index 0 sub s with
  | Some _ => true
  | None => false
  end.

(** The line feed of a template literal. *)
Definition LF : string := String (Ascii.ascii_of_nat 10) EmptyString.

(** The number of bytes and of UTF-16 code units of the character whose
    first byte is [c]: the characters of the astral planes take four bytes
    and two code units. *)
Definition utf8Width (c : Ascii.ascii) : nat * nat :=
  let n := Ascii.nat_of_ascii c in
  if (n <? 192)%nat then (1, 1)%nat
  else if (n <? 224)%nat then (2, 1)%nat
  else if (n <? 240)%nat then (3, 1)%nat
  else (4, 2)%nat.

(** The high surrogate of the four-byte character that starts with the
    bytes [b0 b1 b2], written as the three bytes of its code point. *)
Definition highSurrogate (b0 b1 b2 : Ascii.ascii) : string :=
  let top := ((Ascii.nat_of_ascii b0 mod 8) * 256
              + (Ascii.nat_of_ascii b1 mod 64) * 4
              + (Ascii.nat_of_ascii b2 mod 64) / 16)%nat in
  let hi := (216 * 256 + (top - 64))%nat in
  String (Ascii.ascii_of_nat 237)
    (String (Ascii.ascii_of_nat (128 + (hi / 64) mod 64))
       (String (Ascii.ascii_of_nat (128 + hi mod 64)) EmptyString)).

(** The first [n] UTF-16 code units of [s]; [pending] bytes of the
    character being copied are still to come. A character of two code
    units that starts at the last unit is cut to its high surrogate. *)
Fixpoint takeUnits (n pending : nat) (s : string) : string :=
  match s with
  | EmptyString => EmptyString
  | String c rest =>
      match pending with
      | S p => String c (takeUnits n p rest)
      | O =>
          let '(bytes, units) := utf8Width c in
          if (units <=? n)%nat
          then String c (takeUnits (n - units) (bytes - 1) rest)
          else if (n =? 1)%nat
               then match rest with
                    | String b1 (String b2 _) => highSurrogate c b1 b2
                    | _ => EmptyString
                    end
               else EmptyString
      end
  end.

(** [s.substring(0, n)], which counts UTF-16 code units. *)
Definition substring0 (n : nat) (s : string) : string := takeUnits n 0 s.

(** *** Paths *)

Definition slash : Ascii.ascii := Ascii.ascii_of_nat 47.

(** [s.split('/')]. *)
Fixpoint splitSlash (s : string) : list string :=
  match s with
  | EmptyString => [EmptyString]
  | String c rest =>
      if Ascii.eqb c slash then EmptyString :: splitSlash rest
      else match splitSlash rest with
           | seg :: segs => String c seg :: segs
           | [] => [String c EmptyString]
           end
  end.

(** [normalizeString] of Node's [path]: empty segments and [.] are
    dropped, [..] removes the segment before it; above the start of a
    relative path [..] is kept, above the root it is dropped. [res] holds
    the segments kept so far, the last one first. *)
Fixpoint normalizeSegments (allowAboveRoot : bool) (res segs : list string)
  : list string :=
  match segs with
  | [] => rev res
  | seg :: rest =>
      if decide (seg = "" ∨ seg = ".") then normalizeSegments allowAboveRoot res rest
      else if decide (seg = "..") then
        match res with
        | last :: res' =>
            if decide (last = "..")
            then normalizeSegments allowAboveRoot
                   (if allowAboveRoot then ".." :: res else res) rest
            else normalizeSegments allowAboveRoot res' rest
        | [] =>
            normalizeSegments allowAboveRoot
              (if allowAboveRoot then [".."] else []) rest
        end
      else normalizeSegments allowAboveRoot (seg :: res) rest
  end.

Definition startsWithSlash (s : string) : bool :=
  match s with
  | String c _ => Ascii.eqb c slash
  | EmptyString => false
  end.

Fixpoint endsWithSlash (s : string) : bool :=
  match s with
  | EmptyString => false
  | String c EmptyString => Ascii.eqb c slash
  | String _ rest => endsWithSlash rest
  end.

(** [path.posix.normalize]. *)
Definition normalize (p : string) : string :=
  if decide (p = "") then "."
  else
    let isAbsolute := startsWithSlash p in
    let trailingSeparator := endsWithSlash p in
    let body := String.concat "/" (normalizeSegments (negb isAbsolute) [] (splitSlash p)) in
    if decide (body = "") then
      if isAbsolute then "/" else if trailingSeparator then "./" else "."
    else
      (if isAbsolute then "/" else "") +:+ body +:+
      (if trailingSeparator then "/" else "").

(** [path.join(a, b)] on a POSIX host: the arguments that are not empty
    are joined with a slash and the result is normalised. *)
Definition path_join (a b : string) : string :=
  if decide (a = "") then (if decide (b = "") then "." else normalize b)
  else if decide (b = "") then normalize a
  else normalize (a +:+ "/" +:+ b).

End Js.

(** ** The Sandbox Runtime (docker.js, [runTestsInSandbox]) *)

Module Sandbox.
Import Js.

Record SandboxResult : Type := mkResult {
  success : bool;
  output : string
}.

(** What the Docker daemon answers to each call of one [runTestsInSandbox].
    [chunks] are the demultiplexed stdout/stderr writes in arrival order and
    [streamEnd] says whether the stream ends ('end') or fails ('error').
    [ExitCode] is [None] for JSON [null]. *)
Record Docker : Type := mkDocker {
  createContainer : string → Outcome unit;
  start : Outcome unit;
  putArchive : string → Outcome unit;
  exec : string → Outcome unit;
  execStart : Outcome unit;
  chunks : list string;
  streamEnd : Outcome unit;
  inspectExitCode : Outcome (option Z);
  stop : Outcome unit;
  remove : Outcome unit
}.

(** The calls made on the daemon and the lines written to the console. *)
Inductive Event : Type :=
  | EvCreate (image : string)
  | EvStart
  | EvPutArchive (localPath : string)
  | EvExec (cmd : string)
  | EvExecStart
  | EvInspect
  | EvStop
  | EvRemove
  | EvLogError (message : string)
  | EvLogCleanupError (message : string).

#[global] Instance Event_eq_dec : EqDecision Event.
Proof. solve_decision. Defined.

(** The function's mutable locals and its effects so far: the variable
    [container] (unset until [createContainer] resolves) and the trace. *)
Record St : Type := mkSt {
  container : bool;
  trace : list Event
}.

(** State and exception monad of the function body. *)
Definition M (A : Type) : Type := St → Outcome A * St.

#[global] Instance M_ret : MRet M := λ A a s, (Ret a, s).

#[global] Instance M_bind : MBind M := λ A B k m s,
  match m s with
  | (Ret a, s') => k a s'
  | (Throw e, s') => (Throw e, s')
  end.

(** An awaited daemon call: record it, then return or throw. *)
Definition call {A} (ev : Event) (r : Outcome A) : M A :=
  λ s, (r, {| container := container s; trace := trace s ++ [ev] |}).

Definition consoleError (ev : Event) : M unit :=
  λ s, (Ret tt, {| container := container s; trace := trace s ++ [ev] |}).

Definition setContainer : M unit :=
  λ s, (Ret tt, {| container := true; trace := trace s |}).

(** [try { body } catch (error) { handler(error.message) }]. *)
Definition tryCatch {A} (body : M A) (handler : string → M A) : M A :=
  λ s, match body s with
       | (Ret a, s') => (Ret a, s')
       | (Throw e, s') => handler e s'
       end.

(** [try { body } finally { cleanup }]: the cleanup runs on both exits of
    the body; if the cleanup itself throws, that error replaces the body's
    completion. *)
Definition tryFinally {A} (body : M A) (cleanup : M unit) : M A :=
  λ s, match body s with
       | (r, s') =>
           match cleanup s' with
           | (Ret _, s'') => (r, s'')
           | (Throw e, s'') => (Throw e, s'')
           end
       end.

(** Lines 57-66: the output is the concatenation of all chunks; the promise
    rejects if the stream emits 'error'. *)
Definition capture (d : Docker) : M string :=
  λ s, match streamEnd d with
       | Ret _ => (Ret (String.concat "" (chunks d)), s)
       | Throw e => (Throw e, s)
       end.

(** The [finally] block (lines 79-88). *)
Definition cleanup (d : Docker) : M unit :=
  λ s, if container s
       then tryCatch (call EvStop (stop d) ;; call EvRemove (remove d))
                     (λ e, consoleError (EvLogCleanupError e)) s
       else (Ret tt, s).

Definition runTestsInSandbox_body (d : Docker)
    (localPath testCmd imageName : string) : M SandboxResult :=
  tryFinally
    (tryCatch
       (call (EvCreate imageName) (createContainer d imageName) ;;
        setContainer ;;
        call EvStart (start d) ;;
        call (EvPutArchive localPath) (putArchive d localPath) ;;
        call (EvExec testCmd) (exec d testCmd) ;;
        call EvExecStart (execStart d) ;;
        out ← capture d ;
        code ← call EvInspect (inspectExitCode d) ;
        mret {| success := bool_decide (code = Some 0%Z); output := out |})
       (λ e,
          consoleError (EvLogError e) ;;
          mret {| success := false;
                  output := "Sandbox execution failed: " +:+ e |}))
    (cleanup d).

(** One call of [runTestsInSandbox]: its completion (a returned result or
    an exception escaping to the caller) and what it did. *)
Definition runTestsInSandbox (d : Docker) (localPath testCmd imageName : string)
  : Outcome SandboxResult * St :=
  runTestsInSandbox_body d localPath testCmd imageName
    {| container := false; trace := [] |}.

End Sandbox.

(** ** Runtime profiles: the Python engine and the legacy test step *)

Module Engines.
Import Js Sandbox.

Definition pythonImage : string := "python:3.9-alpine".

(** [testCmd] of engines/python.js, a template literal over three lines. *)
Definition pythonTestCmd : string :=
  "pip install -r requirements.txt flake8 pytest && 
                         flake8 . --count --select=E9,F63,F7,F82,F401 --show-source --statistics && 
                         pytest".

(** [enginePython.run]: the sandbox's completion is returned as it is. *)
Definition enginePython_run (d : Docker) (localPath : string)
  : Outcome SandboxResult * St :=
  runTestsInSandbox d localPath pythonTestCmd pythonImage.

Definition legacyPythonTestCmd : string :=
  "pip install flake8 pytest && " +:+
  "flake8 . --count --select=E9,F63,F7,F82,F401 --show-source --statistics && " +:+
  "pytest".

(** The test of line 84 of the legacy pipeline's [runTests]. *)
Definition pythonErrorsDetected (result : SandboxResult) : bool :=
  negb (success result)
  || (includes "SyntaxError" (output result)
      || includes "E999" (output result)
      || includes "F401" (output result)).

(** The legacy [runTests]: [requirements] and [nodeDir] say which manifests
    exist, [sandbox] answers [runTestsInSandbox] for a command and an image,
    and [nodeCmd] is the command built from package.json. The result is
    the pair [(testOutput, passed)]. *)
Definition runTests (requirements : bool) (nodeDir : option string)
    (nodeCmd : string) (sandbox : string → string → SandboxResult)
  : string * bool :=
  let '(outputs, passed) :=
    if requirements then
      let result := sandbox legacyPythonTestCmd pythonImage in
      (["--- PYTHON OUTPUT ---" +:+ LF +:+ output result],
       if pythonErrorsDetected result then false else true)
    else ([], true) in
  let '(outputs, passed) :=
    match nodeDir with
    | Some _ =>
        let result := sandbox nodeCmd "node:18-alpine" in
        (outputs ++ ["--- NODE.JS OUTPUT ---" +:+ LF +:+ output result],
         if success result then passed else false)
    | None => (outputs, passed)
    end in
  (String.concat (LF +:+ LF) outputs,
   passed).

End Engines.

(** ** The Solver (solver.js, [runSolver]) *)

Module Solver.
Import Js Ledger.

(** An entry of [fixesApplied]; its [status] is always ['APPLIED']. *)
Record AppliedFix : Type := mkApplied {
  af_file : string;
  af_type : string;
  af_description : string;
  af_line : N
}.

(** What the solver's collaborators answer while one batch is repaired.
    The index is the position of the issue in [openIssues].
    - [isDirectory p]: the path [p] is a directory, so that
      [fs.existsSync(p)] holds and [fs.readFileSync(p)] throws;
    - [invoke k issue testSnippet fileContent]: the Repair Oracle's
      [response.content] for the prompt built from these three values;
    - [stripFences]: the two regular-expression replacements and [trim] of
      lines 393-396;
    - [writeFile k path content]: [fs.writeFileSync];
    - [clock k]: [new Date().toISOString()]. *)
Record World : Type := mkWorld {
  isDirectory : string → bool;
  invoke : nat → Issue → string → string → Outcome string;
  stripFences : string → string;
  writeFile : nat → string → string → Outcome unit;
  clock : nat → string
}.

(** The regular files other than [issues_log.json] (absolute normalised
    path to content), the content of [issues_log.json], and the local
    [fixesApplied]. No file is created or deleted while a batch runs, so
    the directories are those of [isDirectory] throughout. *)
Record SolverState : Type := mkSolverState {
  disk : gmap string string;
  log : list Issue;
  fixesApplied : list AppliedFix
}.

Definition markStatus (w : World) (k : nat) (issue : Issue) (newStatus : Status)
    (st : SolverState) : SolverState :=
  {| disk := disk st;
     log := updateIssueStatus (clock w k) (file issue) (type issue) (line issue)
              newStatus (log st);
     fixesApplied := fixesApplied st |}.

(** The body of [for (const issue of openIssues)] (lines 350-415): the
    [continue] of the path that does not exist, and the [catch] that
    covers the read, the oracle call and the write. *)
Definition solveIssue (w : World) (localPath testSnippet : string) (k : nat)
    (st : SolverState) (issue : Issue) : SolverState :=
  let filePath := path_join localPath (file issue) in
  match disk st !! filePath with
  | None =>
      if isDirectory w filePath
      then markStatus w k issue FAILED_GENERATION st
      else markStatus w k issue FAILED_FILE_NOT_FOUND st
  | Some fileContent =>
      match invoke w k issue testSnippet fileContent with
      | Throw _ => markStatus w k issue FAILED_GENERATION st
      | Ret content =>
          let fixedContent :=
            if includes "```" content then stripFences w content else content in
          match writeFile w k filePath fixedContent with
          | Throw _ => markStatus w k issue FAILED_GENERATION st
          | Ret _ =>
              let st' := markStatus w k issue FIXED
                           {| disk := <[filePath := fixedContent]> (disk st);
                              log := log st;
                              fixesApplied := fixesApplied st |} in
              {| disk := disk st';
                 log := log st';
                 fixesApplied :=
                   fixesApplied st' ++
                   [ {| af_file := file issue;
                        af_type := type issue;
                        af_description := description issue;
                        af_line := line issue |} ] |}
          end
      end
  end.

Fixpoint solveFrom (w : World) (localPath testSnippet : string) (k : nat)
    (st : SolverState) (openIssues : list Issue) : SolverState :=
  match openIssues with
  | [] => st
  | issue :: rest =>
      solveFrom w localPath testSnippet (S k)
        (solveIssue w localPath testSnippet k st issue) rest
  end.

(** [runSolver(localPath, openIssues, issuesLogPath, testOutput)]. *)
Definition runSolver (w : World) (localPath : string) (tree : gmap string string)
    (openIssues : list Issue) (issuesLog : list Issue) (testOutput : string)
  : SolverState :=
  let testSnippet := substring0 3000 testOutput in
  solveFrom w localPath testSnippet 0
    {| disk := tree; log := issuesLog; fixesApplied := [] |} openIssues.

End Solver.

(** ** The Healing Loop Controller (orchestrator.js, [startOrchestrator]) *)

Module Orchestrator.
Import Js Ledger Sandbox Solver.

Definition MAX_ITER : nat := 6.

Inductive RunStatus : Type := RUNNING | PASSED | FAILED.

#[global] Instance RunStatus_eq_dec : EqDecision RunStatus.
Proof. solve_decision. Defined.

Inductive Engine : Type := engineNode | enginePython.

(** A row of [fixes] in results.json: the projection of a ledger entry
    pushed during the loop, or an entry of [committed]
    ([{ ...fix, commitMessage: msg, status: 'Fixed' }]). *)
Inductive FixRow : Type :=
  | LedgerRow (f t : string) (l : N) (d : string) (s : Status)
  | CommittedRow (fix_ : Issue) (commitMessage : string).

(** The fields of results.json that the loop updates. *)
Record Results : Type := mkResults {
  r_status : RunStatus;
  r_logs : list string;
  r_fixes : list FixRow;
  r_iterations : nat;
  r_branchName : string
}.

Inductive GitOp : Type :=
  | GitAdd (f : string)
  | GitCommit (msg : string)
  | GitPush (remote branch : string).

#[global] Instance GitOp_eq_dec : EqDecision GitOp.
Proof. solve_decision. Defined.

(** The collaborators of one run.
    - [runAuditor]: [Ret (localPath, branchName)] for [success: true];
    - [discoverNode], [discoverPython]: the engines' [discover];
    - [engineRun e i tree]: what [engine.run] resolves to at iteration [i];
    - [analyzeOutput i output tree]: the Diagnostic Oracle at iteration [i]:
      the issues of a diagnosis that the scan of step D reads to its end, or
      [Throw] when the call rejects or the scan throws on what it returned
      (a value that is not iterable, an element that is [null]);
    - [writeLogAt i]: [writeLog(currentLog)] of step E at iteration [i];
      when it throws, the file is taken to be left as it was;
    - [solverWorld i]: the solver's collaborators at iteration [i];
    - [gitAdd k f], [gitCommit k msg]: for the [k]-th fix of [commitFixes];
    - [gitPush branch]: [repoGit.push('origin', branch, ...)];
    - [clonedTree]: the regular files after the clone, by absolute path. *)
Record Env : Type := mkEnv {
  runAuditor : Outcome (string * string);
  discoverNode : option string;
  discoverPython : option string;
  engineRun : Engine → nat → gmap string string → SandboxResult;
  analyzeOutput : nat → string → gmap string string → Outcome (list Discovered);
  writeLogAt : nat → Outcome unit;
  solverWorld : nat → World;
  gitAdd : nat → string → Outcome unit;
  gitCommit : nat → string → Outcome unit;
  gitPush : string → Outcome unit;
  clonedTree : gmap string string
}.

(** The variables of [startOrchestrator] and the files it owns, with the
    record of the sandbox runs, solver batches and git calls made so far.
    [rejected] holds the error with which the promise returned by
    [startOrchestrator] rejects, once an exception has left the loop. *)
Record RunState : Type := mkRunState {
  issuesLog : list Issue;
  tree : gmap string string;
  outputLog : list string;
  allFixes : list AppliedFix;
  isSuccess : bool;
  lastTestOutput : string;
  results : Results;
  sandboxRuns : list (nat * SandboxResult);
  solverRuns : list nat;
  gitOps : list GitOp;
  rejected : option string
}.

Definition pushLog (msgs : list string) (st : RunState) : RunState :=
  {| issuesLog := issuesLog st; tree := tree st;
     outputLog := outputLog st ++ msgs;
     allFixes := allFixes st; isSuccess := isSuccess st;
     lastTestOutput := lastTestOutput st; results := results st;
     sandboxRuns := sandboxRuns st; solverRuns := solverRuns st;
     gitOps := gitOps st; rejected := rejected st |}.

Definition setResults (r : Results) (st : RunState) : RunState :=
  {| issuesLog := issuesLog st; tree := tree st; outputLog := outputLog st;
     allFixes := allFixes st; isSuccess := isSuccess st;
     lastTestOutput := lastTestOutput st; results := r;
     sandboxRuns := sandboxRuns st; solverRuns := solverRuns st;
     gitOps := gitOps st; rejected := rejected st |}.

(** [updateFrontend({ logs: [...outputLog] })]. *)
Definition updateLogs (st : RunState) : RunState :=
  setResults {| r_status := r_status (results st);
                r_logs := outputLog st;
                r_fixes := r_fixes (results st);
                r_iterations := r_iterations (results st);
                r_branchName := r_branchName (results st) |} st.

(** [updateFrontend({ iterations: i, logs: [...outputLog] })]. *)
Definition updateIterations (i : nat) (st : RunState) : RunState :=
  setResults {| r_status := r_status (results st);
                r_logs := outputLog st;
                r_fixes := r_fixes (results st);
                r_iterations := i;
                r_branchName := r_branchName (results st) |} st.

(** [updateFrontend({ fixes, logs: [...outputLog] })]. *)
Definition updateFixes (fixes : list FixRow) (st : RunState) : RunState :=
  setResults {| r_status := r_status (results st);
                r_logs := outputLog st;
                r_fixes := fixes;
                r_iterations := r_iterations (results st);
                r_branchName := r_branchName (results st) |} st.

(** [updateFrontend({ status, endTime, logs: [...outputLog] })]. *)
Definition updateStatus (s : RunStatus) (st : RunState) : RunState :=
  setResults {| r_status := s;
                r_logs := outputLog st;
                r_fixes := r_fixes (results st);
                r_iterations := r_iterations (results st);
                r_branchName := r_branchName (results st) |} st.

(** Line 112-113: the sandbox run of iteration [i]. *)
Definition recordRun (i : nat) (r : SandboxResult) (st : RunState) : RunState :=
  {| issuesLog := issuesLog st; tree := tree st; outputLog := outputLog st;
     allFixes := allFixes st; isSuccess := isSuccess st;
     lastTestOutput := output r; results := results st;
     sandboxRuns := sandboxRuns st ++ [(i, r)]; solverRuns := solverRuns st;
     gitOps := gitOps st; rejected := rejected st |}.

Definition setSuccess (st : RunState) : RunState :=
  {| issuesLog := issuesLog st; tree := tree st; outputLog := outputLog st;
     allFixes := allFixes st; isSuccess := true;
     lastTestOutput := lastTestOutput st; results := results st;
     sandboxRuns := sandboxRuns st; solverRuns := solverRuns st;
     gitOps := gitOps st; rejected := rejected st |}.

(** [writeLog(currentLog)]. *)
Definition writeLog (log : list Issue) (st : RunState) : RunState :=
  {| issuesLog := log; tree := tree st; outputLog := outputLog st;
     allFixes := allFixes st; isSuccess := isSuccess st;
     lastTestOutput := lastTestOutput st; results := results st;
     sandboxRuns := sandboxRuns st; solverRuns := solverRuns st;
     gitOps := gitOps st; rejected := rejected st |}.

(** Lines 216-218: the solver's batch at iteration [i] and its effects on
    the working tree, [issues_log.json] and [allFixes]. *)
Definition applySolver (i : nat) (r : SolverState) (st : RunState) : RunState :=
  {| issuesLog := log r; tree := disk r; outputLog := outputLog st;
     allFixes := allFixes st ++ fixesApplied r; isSuccess := isSuccess st;
     lastTestOutput := lastTestOutput st; results := results st;
     sandboxRuns := sandboxRuns st; solverRuns := solverRuns st ++ [i];
     gitOps := gitOps st; rejected := rejected st |}.

Definition recordGit (ops : list GitOp) (st : RunState) : RunState :=
  {| issuesLog := issuesLog st; tree := tree st; outputLog := outputLog st;
     allFixes := allFixes st; isSuccess := isSuccess st;
     lastTestOutput := lastTestOutput st; results := results st;
     sandboxRuns := sandboxRuns st; solverRuns := solverRuns st;
     gitOps := gitOps st ++ ops; rejected := rejected st |}.

(** An exception leaves [startOrchestrator]: nothing more is done. *)
Definition reject (e : string) (st : RunState) : RunState :=
  {| issuesLog := issuesLog st; tree := tree st; outputLog := outputLog st;
     allFixes := allFixes st; isSuccess := isSuccess st;
     lastTestOutput := lastTestOutput st; results := results st;
     sandboxRuns := sandboxRuns st; solverRuns := solverRuns st;
     gitOps := gitOps st; rejected := Some e |}.

(** [auditorResult.localPath]. *)
Definition localPathOf (env : Env) : string :=
  match runAuditor env with
  | Ret (localPath, _) => localPath
  | Throw _ => ""
  end.

Definition ledgerRow (iss : Issue) : FixRow :=
  LedgerRow (file iss) (type iss) (line iss) (description iss) (status iss).

(** [iss.line || '?'] inside a template literal. *)
Definition lineOrQuestion (l : N) : string :=
  if decide (l = 0%N) then "?" else pretty l.

(** Lines 182-184. *)
Definition newIssueLines (newIss : list Discovered) : list string :=
  imap (λ idx iss,
          "  " +:+ pretty (idx + 1) +:+ ". [" +:+ d_type iss +:+ "] " +:+
          d_file iss +:+ ":" +:+ lineOrQuestion (d_line iss) +:+ " — " +:+
          d_description iss)
       newIss.

(** How a body of the loop ends: [break], the next iteration, or an
    exception that no [try] of the loop catches. *)
Inductive Flow : Type := Break | Continue | Reject (e : string).

(** The body of [for (let i = 1; i <= MAX_ITER; i++)] (lines 106-233). *)
Definition loopBody (env : Env) (engine : Engine) (i : nat) (st : RunState)
  : Flow * RunState :=
  let st := pushLog [ "━━━ Iteration " +:+ pretty i +:+ " / " +:+
                      pretty MAX_ITER +:+ " ━━━";
                      "Running test suite..." ] st in
  let st := updateIterations i st in
  (* A. Run tests *)
  let runResult := engineRun env engine i (tree st) in
  let st := recordRun i runResult st in
  let st := pushLog [ "Test result: " +:+
                      (if success runResult then "✓ PASS" else "✗ FAIL") ] st in
  if success runResult then
    (* B. All tests pass *)
    let st := setSuccess st in
    let st := pushLog [ "🎉 All tests PASSED on iteration " +:+ pretty i +:+ "!" ] st in
    (Break, updateLogs st)
  else
    (* C, D. Addressed keys, discovery and scan *)
    let currentLog := issuesLog st in
    let st := pushLog [ "Analyzing failures (" +:+
                        (if decide (i = 1) then "comprehensive scan" else "re-scan")
                        +:+ ")..." ] st in
    let st := updateLogs st in
    match analyzeOutput env i (output runResult) (tree st) with
    | Throw e => (Reject e, st)
    | Ret discovered =>
    let sc := scanDiscovered currentLog discovered in
    if decide (length (newIssues sc) = 0 ∧ length (reOpenedIssues sc) = 0) then
      let st := pushLog [ "⚠ All known issues marked fixed, but tests still failing.";
                          "This requires manual review or structural changes." ] st in
      (Break, updateLogs st)
    else
      let st := if decide (0 < length (reOpenedIssues sc))%nat
                then pushLog [ "⚠ " +:+ pretty (length (reOpenedIssues sc)) +:+
                               " issue(s) reappeared after fix. Re-opening..." ] st
                else st in
      let st := if decide (0 < length (newIssues sc))%nat
                then pushLog [ "Found " +:+ pretty (length (newIssues sc)) +:+
                               " new issue(s)." ] st
                else st in
      let st := pushLog [ "Found " +:+ pretty (length (newIssues sc)) +:+
                          " issue(s) to fix:" ] st in
      let st := pushLog (newIssueLines (newIssues sc)) st in
      (* E. Merge into the log *)
      let merged := appendNew i (issues sc) (newIssues sc) in
      match writeLogAt env i with
      | Throw e => (Reject e, st)
      | Ret _ =>
      let st := writeLog merged st in
      let st := updateFixes (ledgerRow <$> merged) st in
      if decide (i = MAX_ITER) then
        (Break, pushLog [ "Max iterations (" +:+ pretty MAX_ITER +:+ ") reached." ] st)
      else
        (* F. Fix OPEN issues *)
        let st := pushLog [ "Applying fixes to source files..." ] st in
        let st := updateLogs st in
        let openIssues := filter (λ iss, status iss = OPEN) merged in
        let solveResult :=
          runSolver (solverWorld env i) (localPathOf env) (tree st) openIssues
                    (issuesLog st) (lastTestOutput st) in
        let st := applySolver i solveResult st in
        let st := pushLog ((λ fix_, "  ✓ Fixed [" +:+ af_type fix_ +:+ "] in " +:+
                                   af_file fix_) <$> fixesApplied solveResult) st in
        (Continue, updateFixes (ledgerRow <$> issuesLog st) st)
      end
    end.

(** The [for] loop from counter [i]. [fuel] bounds the number of bodies
    run; [None] means the fuel ran out before the loop ended. A body that
    throws ends the loop and the run. *)
Fixpoint forLoop (env : Env) (engine : Engine) (fuel : nat) (i : nat)
    (st : RunState) : option RunState :=
  if decide (i ≤ MAX_ITER)%nat then
    match fuel with
    | 0 => None
    | S fuel' =>
        match loopBody env engine i st with
        | (Break, st') => Some st'
        | (Continue, st') => forLoop env engine fuel' (S i) st'
        | (Reject e, st') => Some (reject e st')
        end
    end
  else Some st.

(** The commit message of line 85. *)
Definition commitMessageOf (fix_ : Issue) : string :=
  "[AI-AGENT] Fix " +:+ type fix_ +:+ " in " +:+ file fix_ +:+ ": " +:+
  substring0 60 (description fix_).

(** [commitFixes] (lines 80-96) from the [k]-th fix on: the state carries
    [outputLog] and the git calls; the result is [committed]. *)
Fixpoint commitFixes (env : Env) (k : nat) (fixes : list Issue)
    (committed : list FixRow) (st : RunState) : list FixRow * RunState :=
  match fixes with
  | [] => (committed, st)
  | fix_ :: rest =>
      let skipped (e : string) (st : RunState) :=
        if includes "nothing to commit" e then st
        else pushLog [ "  ⚠ Commit skipped for " +:+ file fix_ +:+ ": " +:+ e ] st in
      let st := recordGit [ GitAdd (file fix_) ] st in
      match gitAdd env k (file fix_) with
      | Throw e => commitFixes env (S k) rest committed (skipped e st)
      | Ret _ =>
          let msg := commitMessageOf fix_ in
          let st := recordGit [ GitCommit msg ] st in
          match gitCommit env k msg with
          | Throw e => commitFixes env (S k) rest committed (skipped e st)
          | Ret _ =>
              commitFixes env (S k) rest (committed ++ [ CommittedRow fix_ msg ])
                (pushLog [ "  ✓ Committed: " +:+ file fix_ +:+ " [" +:+ type fix_
                           +:+ "]" ] st)
          end
      end
  end.

(** Phase 4 (lines 236-260). *)
Definition phase4 (env : Env) (branchName : string) (st : RunState) : RunState :=
  if decide ((0 < length (allFixes st))%nat ∨ isSuccess st = true) then
    let st := pushLog [ "Committing " +:+ pretty (length (allFixes st)) +:+
                        " fix(es) to branch..." ] st in
    let st := updateLogs st in
    let fixedIssues := filter (λ iss, status iss = FIXED) (issuesLog st) in
    let '(committed, st) := commitFixes env 0 fixedIssues [] st in
    let st := pushLog [ "Pushing branch " +:+ String (Ascii.ascii_of_nat 34) branchName
                        +:+ String (Ascii.ascii_of_nat 34) "..." ] st in
    let st := updateLogs st in
    let st := recordGit [ GitPush "origin" branchName ] st in
    let st := match gitPush env branchName with
              | Ret _ => pushLog [ "✓ Branch pushed successfully!" ] st
              | Throw e => pushLog [ "⚠ Push failed: " +:+ e ] st
              end in
    let finalStatus := if isSuccess st then PASSED else FAILED in
    setResults {| r_status := finalStatus;
                  r_logs := outputLog st;
                  r_fixes := committed;
                  r_iterations := r_iterations (results st);
                  r_branchName := r_branchName (results st) |} st
  else
    updateStatus FAILED st.

(** The state after the first [updateFrontend(..., true)] (lines 39-43). *)
Definition initialState (env : Env) : RunState :=
  {| issuesLog := []; tree := clonedTree env; outputLog := [];
     allFixes := []; isSuccess := false; lastTestOutput := "";
     results := {| r_status := RUNNING;
                   r_logs := [ "Initializing Agent System..." ];
                   r_fixes := [];
                   r_iterations := 0;
                   r_branchName := "N/A" |};
     sandboxRuns := []; solverRuns := []; gitOps := []; rejected := None |}.

(** Phase 2 (lines 59-70). *)
Definition detectEngine (env : Env) : option Engine :=
  match discoverNode env with
  | Some _ => Some engineNode
  | None =>
      match discoverPython env with
      | Some _ => Some enginePython
      | None => None
      end
  end.

(** Phase 3 followed by phase 4, once the engine is known. Phase 4 is
    not reached when an exception has left the loop. *)
Definition healAndCommit (env : Env) (engine : Engine) (branchName : string)
    (fuel : nat) (st : RunState) : option RunState :=
  match forLoop env engine fuel 1 st with
  | Some st' =>
      match rejected st' with
      | Some _ => Some st'
      | None => Some (phase4 env branchName st')
      end
  | None => None
  end.

(** [startOrchestrator]. [None]: the loop did not end within [fuel] bodies. *)
Definition startOrchestrator (env : Env) (fuel : nat) : option RunState :=
  let st := initialState env in
  match runAuditor env with
  | Throw e =>
      Some (setResults {| r_status := FAILED;
                          r_logs := [ "✗ Auditor failed: " +:+ e ];
                          r_fixes := r_fixes (results st);
                          r_iterations := r_iterations (results st);
                          r_branchName := r_branchName (results st) |} st)
  | Ret (localPath, branchName) =>
      let st := setResults {| r_status := r_status (results st);
                              r_logs := [ "✓ Cloned repo"; "✓ Branch: " +:+ branchName ];
                              r_fixes := r_fixes (results st);
                              r_iterations := r_iterations (results st);
                              r_branchName := branchName |} st in
      match detectEngine env with
      | None =>
          Some (setResults {| r_status := FAILED;
                              r_logs := [ "✗ No supported language detected" ];
                              r_fixes := r_fixes (results st);
                              r_iterations := r_iterations (results st);
                              r_branchName := r_branchName (results st) |} st)
      | Some engine =>
          let st := setResults
                      {| r_status := r_status (results st);
                         r_logs := [ match engine with
                                     | engineNode => "✓ Detected Node.js project"
                                     | enginePython => "✓ Detected Python project"
                                     end ];
                         r_fixes := r_fixes (results st);
                         r_iterations := r_iterations (results st);
                         r_branchName := r_branchName (results st) |} st in
          healAndCommit env engine branchName fuel st
      end
  end.

End Orchestrator.

(** ** Vocabulary of the ledger properties *)

Module LedgerSpec.
Import Ledger.

(** How a scan relates the ledger it started from to the current one: the
    entries keep their positions; an entry is either untouched or was FIXED
    and has been reopened, and the references in [reOpenedIssues] point to
    entries that were FIXED. *)
Definition evolved (issues0 : list Issue) (st : Scan) : Prop :=
  length (issues st) = length issues0 ∧
  (∀ j o, issues0 !! j = Some o →
     issues st !! j = Some o ∨
     (status o = FIXED ∧ issues st !! j = Some (reopen o) ∧
      j ∈ reOpenedIssues st)) ∧
  (∀ j, j ∈ reOpenedIssues st →
     ∃ o, issues0 !! j = Some o ∧ status o = FIXED).

(** The ledgers that merges and status updates can produce from the empty
    ledger written by the auditor. *)
Inductive reachable : list Issue → Prop :=
  | reach_empty : reachable []
  | reach_merge l discovered i :
      reachable l → reachable (issues (merge l discovered i))
  | reach_update l now f t ln s :
      reachable l → reachable (updateIssueStatus now f t ln s l).

(** The entry written by [updateIssueStatus]: the status and a fresh
    [fixedAt], the other fields as they were. *)
Definition stamped (now : string) (newStatus : Status) (issue : Issue) : Issue :=
  {| file := file issue; type := type issue; line := line issue;
     description := description issue; status := newStatus;
     discoveredAt := discoveredAt issue; fixedAt := Some now |}.

(** Concrete issues used in the examples below. *)
Definition disc_a8 : Discovered :=
  {| d_file := "src/a.py"; d_type := "SYNTAX"; d_line := 8;
     d_description := "missing colon" |}.

Definition fixed_a0 : Issue :=
  {| file := "src/a.py"; type := "SYNTAX"; line := 0;
     description := "invalid syntax"; status := FIXED;
     discoveredAt := 1; fixedAt := Some "2024-01-01T00:00:00.000Z" |}.

Definition fixed_a8 : Issue :=
  {| file := "src/a.py"; type := "SYNTAX"; line := 8;
     description := "missing colon"; status := FIXED;
     discoveredAt := 1; fixedAt := Some "2024-01-01T00:00:01.000Z" |}.

Definition failed_a8 : Issue :=
  {| file := "src/a.py"; type := "SYNTAX"; line := 8;
     description := "missing colon"; status := FAILED_GENERATION;
     discoveredAt := 1; fixedAt := Some "2024-01-01T00:00:01.000Z" |}.

End LedgerSpec.

(** ** Vocabulary of the solver and sandbox properties *)

Module SolverSpec.
Import Js Ledger LedgerSpec Solver.

(** A world in which every call of the Repair Oracle throws. *)
Definition world_oracle_down : World :=
  {| isDirectory := λ _, false;
     invoke := λ _ _ _ _, Throw "429 Too Many Requests";
     stripFences := λ s, s;
     writeFile := λ _ _ _, Ret tt;
     clock := λ k, "2024-01-01T00:00:0" +:+ pretty k +:+ ".000Z" |}.

(** A Repair Oracle that answers and a disk that accepts the write. *)
Definition world_oracle_up : World :=
  {| isDirectory := λ _, false;
     invoke := λ _ _ _ _, Ret "import sys";
     stripFences := λ s, s;
     writeFile := λ _ _ _, Ret tt;
     clock := λ k, "2024-01-01T00:00:0" +:+ pretty k +:+ ".000Z" |}.

Definition disc_b3 : Discovered :=
  {| d_file := "src/b.py"; d_type := "IMPORT"; d_line := 3;
     d_description := "unused import os" |}.

(** The clone in [/tmp/repo], with [src/b.py] and without [src/a.py]. *)
Definition tree_b : gmap string string :=
  {[ "/tmp/repo/src/b.py" := "import os" ]}.

(** The ledger after the first merge of [disc_a8] and [disc_b3]. *)
Definition ledger_ab : list Issue :=
  issues (merge [] [disc_a8; disc_b3] 1).

End SolverSpec.

Module SandboxSpec.
Import Js Sandbox.

(** Every daemon call up to the end of the output stream resolves. *)
Definition infraOk (d : Docker) (localPath testCmd imageName : string) : Prop :=
  createContainer d imageName = Ret tt ∧
  start d = Ret tt ∧
  putArchive d localPath = Ret tt ∧
  exec d testCmd = Ret tt ∧
  execStart d = Ret tt ∧
  streamEnd d = Ret tt.

(** Some call of steps 1 to 4 throws an error with message [e]. *)
Definition thrownBy (d : Docker) (localPath testCmd imageName : string)
    (e : string) : Prop :=
  createContainer d imageName = Throw e ∨
  start d = Throw e ∨
  putArchive d localPath = Throw e ∨
  exec d testCmd = Throw e ∨
  execStart d = Throw e ∨
  streamEnd d = Throw e ∨
  inspectExitCode d = Throw e.

(** The same daemon with other answers to [stop] and [remove]. *)
Definition withTeardown (d : Docker) (stop' remove' : Outcome unit) : Docker :=
  {| createContainer := createContainer d;
     start := start d;
     putArchive := putArchive d;
     exec := exec d;
     execStart := execStart d;
     chunks := chunks d;
     streamEnd := streamEnd d;
     inspectExitCode := inspectExitCode d;
     stop := stop';
     remove := remove' |}.

(** How many times an event occurs in a trace. *)
Definition occurrences (ev : Event) (tr : list Event) : nat :=
  length (filter (λ x, x = ev) tr).

(** A daemon on which everything works and the command exits with [code]
    after writing [out]. *)
Definition docker_ok (out : list string) (code : Z) : Docker :=
  {| createContainer := λ _, Ret tt;
     start := Ret tt;
     putArchive := λ _, Ret tt;
     exec := λ _, Ret tt;
     execStart := Ret tt;
     chunks := out;
     streamEnd := Ret tt;
     inspectExitCode := Ret (Some code);
     stop := Ret tt;
     remove := Ret tt |}.

(** The tests fail (exit code 1) and then [container.stop()] throws. *)
Definition docker_stop_fails : Docker :=
  withTeardown (docker_ok ["1 failed"] 1)
    (Throw "container already stopped") (Ret tt).

(** A sandbox output that carries the unused-import code. *)
Definition output_F401 : string :=
  "tests/test_lint.py::test_reports_F401 PASSED".

(** Everything works, the command exits with 0, and the output mentions
    F401. *)
Definition docker_exit0_F401 : Docker := docker_ok [output_F401] 0.

End SandboxSpec.

(** ** Vocabulary of the controller properties *)

Module OrchestratorSpec.
Import Js Ledger LedgerSpec Sandbox Solver SolverSpec Orchestrator.

Definition isGitAdd (op : GitOp) : Prop :=
  match op with GitAdd _ => True | _ => False end.

#[global] Instance isGitAdd_dec op : Decision (isGitAdd op).
Proof. destruct op; simpl; apply _. Defined.

(** The row that [commitFixes] pushes to [committed] for a fix (line 88). *)
Definition committedRowOf (fx : Issue) : FixRow :=
  CommittedRow fx (commitMessageOf fx).

(** The git calls that [commitFixes] makes for its [j]-th fix: the fix is
    staged, and committed if staging returned. *)
Definition gitCallsFor (env : Env) (j : nat) (fx : Issue) : list GitOp :=
  GitAdd (file fx) ::
  match gitAdd env j (file fx) with
  | Ret _ => [GitCommit (commitMessageOf fx)]
  | Throw _ => []
  end.

(** The condition of phase 4 (line 237). *)
Definition fixesOrSuccess (st : RunState) : Prop :=
  (0 < length (allFixes st))%nat ∨ isSuccess st = true.

(** The ledger holds a FIXED entry only if some fix was applied. *)
Definition fixedImpliesFixes (st : RunState) : Prop :=
  (∃ x, x ∈ issuesLog st ∧ status x = FIXED) → allFixes st ≠ [].

(** A Python project whose tests fail once, are diagnosed as [disc_b3],
    repaired, and pass on iteration 2; the push is then rejected. *)
Definition env_healed_push_rejected : Env :=
  {| runAuditor := Ret ("/tmp/repo", "TEAM_LEAD_AI_Fix_1");
     discoverNode := None;
     discoverPython := Some ".";
     engineRun := λ _ i _,
       if decide (i = 1)
       then {| success := false; output := "src/b.py:3:1: F401 'os' imported but unused" |}
       else {| success := true; output := "1 passed" |};
     analyzeOutput := λ _ _ _, Ret [disc_b3];
     writeLogAt := λ _, Ret tt;
     solverWorld := λ _, world_oracle_up;
     gitAdd := λ _ _, Ret tt;
     gitCommit := λ _ _, Ret tt;
     gitPush := λ _, Throw "remote rejected";
     clonedTree := tree_b |}.

(** A Python project whose tests fail and whose failure the Diagnostic
    Oracle cannot localize: it reports no issue. *)
Definition env_unlocalizable : Env :=
  {| runAuditor := Ret ("/tmp/repo", "TEAM_LEAD_AI_Fix_1");
     discoverNode := None;
     discoverPython := Some ".";
     engineRun := λ _ _ _, {| success := false; output := "ImportError: libfoo.so" |};
     analyzeOutput := λ _ _ _, Ret [];
     writeLogAt := λ _, Ret tt;
     solverWorld := λ _, world_oracle_up;
     gitAdd := λ _ _, Ret tt;
     gitCommit := λ _ _, Ret tt;
     gitPush := λ _, Ret tt;
     clonedTree := tree_b |}.

(** Oracles that never converge: the tests always fail, every diagnosis
    reports an issue on a line not seen before, and every repair fails. *)
Definition env_never_converges : Env :=
  {| runAuditor := Ret ("/tmp/repo", "TEAM_LEAD_AI_Fix_1");
     discoverNode := Some ".";
     discoverPython := None;
     engineRun := λ _ _ _, {| success := false; output := "1 failed" |};
     analyzeOutput := λ i _ _,
       Ret [ {| d_file := "src/b.py"; d_type := "LOGIC"; d_line := N.of_nat i;
                d_description := "wrong result" |} ];
     writeLogAt := λ _, Ret tt;
     solverWorld := λ _, world_oracle_down;
     gitAdd := λ _ _, Ret tt;
     gitCommit := λ _ _, Ret tt;
     gitPush := λ _, Ret tt;
     clonedTree := tree_b |}.

End OrchestratorSpec.

(** ** Further examples of runs *)

Module RunExamples.
Import Js Ledger LedgerSpec Sandbox Solver SolverSpec Orchestrator OrchestratorSpec.

(** A Python project whose tests pass on the first run. *)
Definition env_passes_at_once : Env :=
  {| runAuditor := Ret ("/tmp/repo", "TEAM_LEAD_AI_Fix_1");
     discoverNode := None;
     discoverPython := Some ".";
     engineRun := λ _ _ _, {| success := true; output := "3 passed" |};
     analyzeOutput := λ _ _ _, Ret [disc_b3];
     writeLogAt := λ _, Ret tt;
     solverWorld := λ _, world_oracle_up;
     gitAdd := λ _ _, Ret tt;
     gitCommit := λ _ _, Ret tt;
     gitPush := λ _, Ret tt;
     clonedTree := tree_b |}.

(** A project whose tests fail and whose diagnosis is the JSON text
    [{"issues": [null]}]: the scan throws on its first element. *)
Definition env_null_issue : Env :=
  {| runAuditor := Ret ("/tmp/repo", "TEAM_LEAD_AI_Fix_1");
     discoverNode := None;
     discoverPython := Some ".";
     engineRun := λ _ _ _, {| success := false; output := "1 failed" |};
     analyzeOutput := λ _ _ _,
       Throw "Cannot read properties of null (reading 'file')";
     writeLogAt := λ _, Ret tt;
     solverWorld := λ _, world_oracle_up;
     gitAdd := λ _ _, Ret tt;
     gitCommit := λ _ _, Ret tt;
     gitPush := λ _, Ret tt;
     clonedTree := tree_b |}.

(** A project whose tests fail and whose ledger file cannot be written in
    step E of the first iteration. *)
Definition env_ledger_unwritable : Env :=
  {| runAuditor := Ret ("/tmp/repo", "TEAM_LEAD_AI_Fix_1");
     discoverNode := None;
     discoverPython := Some ".";
     engineRun := λ _ _ _, {| success := false; output := "1 failed" |};
     analyzeOutput := λ _ _ _, Ret [disc_a8];
     writeLogAt := λ _, Throw "ENOSPC: no space left on device, write";
     solverWorld := λ _, world_oracle_up;
     gitAdd := λ _ _, Ret tt;
     gitCommit := λ _ _, Ret tt;
     gitPush := λ _, Ret tt;
     clonedTree := tree_b |}.

(** A project whose tests keep failing on the issue [disc_a8], which the
    Diagnostic Oracle reports again at every iteration. *)
Definition env_rereports_a8 : Env :=
  {| runAuditor := Ret ("/tmp/repo", "TEAM_LEAD_AI_Fix_1");
     discoverNode := None;
     discoverPython := Some ".";
     engineRun := λ _ _ _, {| success := false; output := "1 failed" |};
     analyzeOutput := λ _ _ _, Ret [disc_a8];
     writeLogAt := λ _, Ret tt;
     solverWorld := λ _, world_oracle_down;
     gitAdd := λ _ _, Ret tt;
     gitCommit := λ _ _, Ret tt;
     gitPush := λ _, Ret tt;
     clonedTree := tree_b |}.

(** The state at the head of an iteration whose ledger holds the failed
    repair of [disc_a8]. *)
Definition state_a8_failed : RunState :=
  writeLog [failed_a8] (initialState env_rereports_a8).

(** Three FIXED entries to commit; git refuses to stage the second and to
    commit the third. *)
Definition fixed_b3 : Issue :=
  {| file := "src/b.py"; type := "IMPORT"; line := 3;
     description := "unused import os"; status := FIXED;
     discoveredAt := 1; fixedAt := Some "2024-01-01T00:00:02.000Z" |}.

Definition fixed_c1 : Issue :=
  {| file := "src/c.py"; type := "LINTING"; line := 1;
     description := "line too long"; status := FIXED;
     discoveredAt := 2; fixedAt := Some "2024-01-01T00:00:03.000Z" |}.

Definition env_git_refuses : Env :=
  {| runAuditor := Ret ("/tmp/repo", "TEAM_LEAD_AI_Fix_1");
     discoverNode := None;
     discoverPython := Some ".";
     engineRun := λ _ _ _, {| success := true; output := "3 passed" |};
     analyzeOutput := λ _ _ _, Ret [];
     writeLogAt := λ _, Ret tt;
     solverWorld := λ _, world_oracle_up;
     gitAdd := λ k _, if decide (k = 1) then Throw "pathspec did not match" else Ret tt;
     gitCommit := λ k _, if decide (k = 2) then Throw "nothing to commit" else Ret tt;
     gitPush := λ _, Ret tt;
     clonedTree := tree_b |}.

End RunExamples.

(** ** The Node.js engine and engine detection (engines/node.js,
       engines/python.js, orchestrator.js phase 2) *)

Module NodeEngine.
Import Js Sandbox Engines Orchestrator.

(** A value returned by [JSON.parse]. Numbers are kept as integers: the
    code only tests them for truthiness. *)
#[warnings="-register-all"]
Inductive Json : Type :=
  | JNull
  | JBool (b : bool)
  | JNum (z : Z)
  | JStr (s : string)
  | JArr (items : list Json)
  | JObj (fields : list (string * Json)).

(** [JSON.parse] keeps the last of several members with the same name. *)
Fixpoint member (name : string) (fields : list (string * Json)) : option Json :=
  match fields with
  | [] => None
  | (k, v) :: rest =>
      match member name rest with
      | Some v' => Some v'
      | None => if decide (k = name) then Some v else None
      end
  end.

(** [v.name] for the names the engine reads ([scripts], [test], [lint],
    [build]), none of which is on a prototype: [None] is [undefined], and
    reading a property of [null] throws a TypeError. *)
Definition getProp (v : Json) (name : string) : Outcome (option Json) :=
  match v with
  | JNull => Throw ("Cannot read properties of null (reading '" +:+ name +:+ "')")
  | JObj fields => Ret (member name fields)
  | _ => Ret None
  end.

(** The truthiness of a property value. *)
Definition truthy (v : option Json) : bool :=
  match v with
  | None | Some JNull => false
  | Some (JBool b) => b
  | Some (JNum z) => negb (z =? 0)%Z
  | Some (JStr s) => negb (String.eqb s "")
  | Some (JArr _) | Some (JObj _) => true
  end.

(** [if (scripts.name)] where [scripts] is truthy, hence neither [null]
    nor [undefined]: the read cannot throw. *)
Definition hasScript (scripts : option Json) (name : string) : bool :=
  match scripts with
  | Some (JObj fields) => truthy (member name fields)
  | _ => false
  end.

(** The part of the file system the engines look at: [fs.existsSync] and
    [JSON.parse(fs.readFileSync(p, 'utf8'))], either of whose two calls
    may throw. *)
Record Fs : Type := mkFs {
  existsSync : string → bool;
  readJson : string → Outcome Json
}.

(** [path.join] on the segments the engines pass: [localPath] comes from
    [path.resolve] and the other segments are plain names, so that joining
    them with a slash is already normalised. *)
Definition pathJoin (segments : list string) : string :=
  String.concat "/" segments.

(** [engineNode.discover]. *)
Definition engineNode_discover (fs : Fs) (localPath : string) : option string :=
  if existsSync fs (pathJoin [localPath; "package.json"]) then Some "."
  else if existsSync fs (pathJoin [localPath; "frontend"; "package.json"])
       then Some "frontend"
       else None.

(** [enginePython.discover]. *)
Definition enginePython_discover (fs : Fs) (localPath : string) : option string :=
  if existsSync fs (pathJoin [localPath; "requirements.txt"]) then Some "."
  else None.

Definition nodeImage : string := "node:18-alpine".

Definition npmInstall : string :=
  "npm install --no-audit --no-fund --prefer-offline".

(** The body of the [try] of [engineNode.run]: what is pushed to
    [commands] after the install. *)
Definition scriptCommands (fs : Fs) (pkgPath : string) : Outcome (list string) :=
  match readJson fs pkgPath with
  | Throw e => Throw e
  | Ret pkg =>
      match getProp pkg "scripts" with
      | Throw e => Throw e
      | Ret scripts =>
          if truthy scripts then
            if hasScript scripts "test" then Ret ["npm test"]
            else if hasScript scripts "lint" then Ret ["npm run lint"]
            else if hasScript scripts "build" then Ret ["npm run build"]
            else Ret []
          else Ret []
      end
  end.

Definition pkgPathOf (localPath subDir : string) : string :=
  if decide (subDir = ".") then pathJoin [localPath; "package.json"]
  else pathJoin [localPath; subDir; "package.json"].

(** [engineNode.run]: the result and what was done on the daemon. *)
Definition engineNode_run (fs : Fs) (d : Docker) (localPath subDir : string)
  : Outcome SandboxResult * St :=
  match scriptCommands fs (pkgPathOf localPath subDir) with
  | Throw e =>
      (Ret {| success := false;
              output := "Error reading package.json: " +:+ e |},
       {| container := false; trace := [] |})
  | Ret pushed =>
      let commands := npmInstall :: pushed in
      let testCmd := String.concat " && " commands in
      let testCmd := if decide (subDir ≠ ".")
                     then "cd " +:+ subDir +:+ " && " +:+ testCmd
                     else testCmd in
      runTestsInSandbox d localPath testCmd nodeImage
  end.

(** The Node.js part of the legacy [runTests] (part_000, lines 109-134):
    the command built from package.json. A package.json that cannot be
    read is only logged. *)
Definition legacyScriptCommands (fs : Fs) (pkgPath : string) : list string :=
  match readJson fs pkgPath with
  | Throw e => []
  | Ret pkg =>
      match getProp pkg "scripts" with
      | Throw e => []
      | Ret scripts =>
          if truthy scripts then
            (if hasScript scripts "test" then ["npm test"] else []) ++
            (if hasScript scripts "lint" then ["npm run lint"] else []) ++
            (if negb (hasScript scripts "test") && negb (hasScript scripts "lint")
                && hasScript scripts "build"
             then ["npm run build"] else [])
          else []
      end
  end.

Definition legacyNodeCmd (fs : Fs) (localPath nodeDir : string) : string :=
  let commands := "npm install" :: legacyScriptCommands fs (pkgPathOf localPath nodeDir) in
  let testCmd := String.concat " && " commands in
  if decide (nodeDir ≠ ".") then "cd " +:+ nodeDir +:+ " && " +:+ testCmd
  else testCmd.

(** The collaborators of a run whose two [discover] answers come from the
    file system. *)
Definition withDiscovery (fs : Fs) (localPath : string) (env : Env) : Env :=
  {| runAuditor := runAuditor env;
     discoverNode := engineNode_discover fs localPath;
     discoverPython := enginePython_discover fs localPath;
     engineRun := engineRun env;
     analyzeOutput := analyzeOutput env;
     writeLogAt := writeLogAt env;
     solverWorld := solverWorld env;
     gitAdd := gitAdd env;
     gitCommit := gitCommit env;
     gitPush := gitPush env;
     clonedTree := clonedTree env |}.

End NodeEngine.

(** ** The dashboards (Dashboard.jsx, ResultsDashboard.jsx) *)

Module Dashboard.
Import Ledger Orchestrator.

(** The score of Dashboard.jsx (lines 68-73). [elapsedTime] is in seconds
    and [commitCount] is [fixes.length]. *)
Definition baseScore : Z := 100.

Definition speedBonus (elapsedTime : Z) : Z :=
  if (elapsedTime <? 300)%Z then 10%Z else 0%Z.

Definition commitPenalty (commitCount : nat) : Z :=
  if (Z.of_nat commitCount >? 20)%Z then ((Z.of_nat commitCount - 20) * 2)%Z else 0%Z.

Definition totalScore (elapsedTime : Z) (commitCount : nat) : Z :=
  Z.max 0 (baseScore + speedBonus elapsedTime - commitPenalty commitCount).

(** The execution time of ResultsDashboard.jsx (lines 155-160), from the
    elapsed milliseconds: [Math.floor(elapsed / 60000)] and
    [Math.floor((elapsed % 60000) / 1000)], where [%] takes the sign of
    the dividend. *)
Definition minutesOf (elapsed : Z) : Z := (elapsed / 60000)%Z.

Definition secondsOf (elapsed : Z) : Z := (Z.rem elapsed 60000 / 1000)%Z.

(** [t || Date.now()] for a timestamp that may be [null] or [0]. *)
Definition orNow (t : option Z) (now : Z) : Z :=
  match t with
  | Some v => if (v =? 0)%Z then now else v
  | None => now
  end.

Definition executionTime (startTime endTime : option Z) (now : Z) : string :=
  let elapsed := (orNow endTime now - orNow startTime now)%Z in
  let m := minutesOf elapsed in
  let s := secondsOf elapsed in
  match startTime with
  | Some v => if (v =? 0)%Z then "00m 00s"
              else pretty m +:+ "m " +:+ pretty s +:+ "s"
  | None => "00m 00s"
  end.

(** The status strings of the ledger and of the rows of [fixes] in
    results.json: a ledger row carries the status of its entry, a
    committed row carries ['Fixed']. *)
Definition statusString (s : Status) : string :=
  match s with
  | OPEN => "OPEN"
  | FIXED => "FIXED"
  | FAILED_FILE_NOT_FOUND => "FAILED_FILE_NOT_FOUND"
  | FAILED_GENERATION => "FAILED_GENERATION"
  end.

Definition rowStatus (row : FixRow) : string :=
  match row with
  | LedgerRow _ _ _ _ s => statusString s
  | CommittedRow _ _ => "Fixed"
  end.

(** [toLowerCase] on the ASCII letters; other bytes are left as they are. *)
Definition lowerAscii (c : Ascii.ascii) : Ascii.ascii :=
  let n := Ascii.nat_of_ascii c in
  if ((65 <=? n) && (n <=? 90))%nat then Ascii.ascii_of_nat (n + 32)%nat else c.

Fixpoint toLowerCase (s : string) : string :=
  match s with
  | EmptyString => EmptyString
  | String c rest => String (lowerAscii c) (toLowerCase rest)
  end.

(** The three badges of a row (ResultsDashboard.jsx, lines 306-309), from
    [s = (fix.status || '').toLowerCase()]. *)
Definition isFixed (s : string) : bool :=
  String.eqb s "fixed" || String.eqb s "applied".

Definition isFailed (s : string) : bool := String.prefix "failed" s.

Definition isOpen (s : string) : bool :=
  String.eqb s "open" || String.eqb s "in_progress" || String.eqb s "".

Inductive Badge : Type := BadgeFixed | BadgeOpen | BadgeFailed.

(** The badges rendered in the status cell, in the order of the JSX. *)
Definition badges (status : option string) : list Badge :=
  let s := toLowerCase (default "" status) in
  (if isFixed s then [BadgeFixed] else []) ++
  (if isOpen s then [BadgeOpen] else []) ++
  (if isFailed s then [BadgeFailed] else []).

End Dashboard.

(** ** The legacy pipeline (agent.js): the workflow graph *)

Module Legacy.
Import Js Ledger.

(** The nodes added to the [StateGraph]. *)
Inductive Node : Type := setup | test | analyze | fixNode.

#[global] Instance Node_eq_dec : EqDecision Node.
Proof. solve_decision. Defined.

(** An entry of [fixesApplied]. *)
Record LegacyFix : Type := mkLegacyFix {
  lf_file : string;
  lf_type : string;
  lf_line : N;
  lf_commitMessage : string;
  lf_pushed : bool
}.

(** The channels that the nodes read and write, and the nodes run so far. *)
Record GraphState : Type := mkGraphState {
  iteration : nat;
  testOutput : string;
  passed : bool;
  bugs : list Discovered;
  fixesApplied : list LegacyFix;
  visited : list Node
}.

(** What the nodes compute. The index is the number of nodes run before.
    - [runTestsAt k]: [(testOutput, passed)] of [runTests];
    - [analyzeAt k testOutput]: the [bugs] of [analyzeFailure], whose call
      of the model is not guarded and may throw;
    - [applyFixesAt k bugs]: the fixes of this round of [applyFixes], whose
      calls of the model, of [git add] and of [git commit] are not guarded
      and may throw. *)
Record LegacyEnv : Type := mkLegacyEnv {
  runTestsAt : nat → string * bool;
  analyzeAt : nat → string → Outcome (list Discovered);
  applyFixesAt : nat → list Discovered → Outcome (list LegacyFix)
}.

Definition visit (n : Node) (st : GraphState) : GraphState :=
  {| iteration := iteration st; testOutput := testOutput st;
     passed := passed st; bugs := bugs st;
     fixesApplied := fixesApplied st; visited := visited st ++ [n] |}.

(** The conditional edge after [test]: [None] is [END]. *)
Definition afterTest (st : GraphState) : option Node :=
  if passed st then None
  else if decide (5 < iteration st)%nat then None
  else Some analyze.

(** The compiled graph run from [node]: the edges [setup → test],
    [test → END | analyze], [analyze → fix], [fix → test]. [fuel] is the
    number of nodes that may still run; [None] means it ran out. A node
    that throws ends the run with its error. *)
Fixpoint runGraph (env : LegacyEnv) (fuel : nat) (node : Node) (st : GraphState)
  : option (Outcome unit * GraphState) :=
  match fuel with
  | 0 => None
  | S fuel' =>
      let k := length (visited st) in
      let st := visit node st in
      match node with
      | setup => runGraph env fuel' test st
      | test =>
          let '(out, p) := runTestsAt env k in
          let st := {| iteration := iteration st; testOutput := out;
                       passed := p; bugs := bugs st;
                       fixesApplied := fixesApplied st;
                       visited := visited st |} in
          match afterTest st with
          | None => Some (Ret tt, st)
          | Some next => runGraph env fuel' next st
          end
      | analyze =>
          match analyzeAt env k (testOutput st) with
          | Throw e => Some (Throw e, st)
          | Ret found =>
              runGraph env fuel' fixNode
                {| iteration := iteration st; testOutput := testOutput st;
                   passed := passed st; bugs := found;
                   fixesApplied := fixesApplied st;
                   visited := visited st |}
          end
      | fixNode =>
          match applyFixesAt env k (bugs st) with
          | Throw e => Some (Throw e, st)
          | Ret currentIterationFixes =>
              runGraph env fuel' test
                {| iteration := iteration st + 1; testOutput := testOutput st;
                   passed := passed st; bugs := bugs st;
                   fixesApplied := fixesApplied st ++ currentIterationFixes;
                   visited := visited st |}
          end
      end
  end.

(** [config.recursionLimit] of [runAgent]. *)
Definition recursionLimit : nat := 50.

(** The input of [app.invoke] with the channels' defaults. *)
Definition initialGraphState : GraphState :=
  {| iteration := 1; testOutput := ""; passed := false; bugs := [];
     fixesApplied := []; visited := [] |}.

(** The fields of the output of [runAgent] computed from the final state. *)
Record AgentOutput : Type := mkAgentOutput {
  totalFailures : nat;
  totalFixes : nat;
  o_passed : bool
}.

Definition outputOf (st : GraphState) : AgentOutput :=
  {| totalFailures := if passed st then 0%nat else length (bugs st);
     totalFixes := length (fixesApplied st);
     o_passed := passed st |}.

(** [runAgent]: [None] when the recursion limit is hit, a thrown error
    when a node throws, the output otherwise. *)
Definition runAgent (env : LegacyEnv) : option (Outcome AgentOutput * GraphState) :=
  match runGraph env recursionLimit setup initialGraphState with
  | None => None
  | Some (Throw e, st) => Some (Throw e, st)
  | Some (Ret _, st) => Some (Ret (outputOf st), st)
  end.

(** How often a node was run. *)
Definition countOf (n : Node) (l : list Node) : nat :=
  length (filter (λ m, m = n) l).

Definition runsOf (n : Node) (st : GraphState) : nat :=
  countOf n (visited st).

End Legacy.

(** ** The Auditor (auditor.js, [runAuditor]): the branch name *)

Module Auditor.

(** [toUpperCase] on the ASCII letters; other bytes are left as they are. *)
Definition upperAscii (c : Ascii.ascii) : Ascii.ascii :=
  let n := Ascii.nat_of_ascii c in
  if ((97 <=? n) && (n <=? 122))%nat then Ascii.ascii_of_nat (n - 32)%nat else c.

Fixpoint toUpperCase (s : string) : string :=
  match s with
  | EmptyString => EmptyString
  | String c rest => String (upperAscii c) (toUpperCase rest)
  end.

Definition space : Ascii.ascii := Ascii.ascii_of_nat 32.

Definition underscore : Ascii.ascii := Ascii.ascii_of_nat 95.

(** [s.replace(/ /g, '_')]. *)
Fixpoint replaceSpaces (s : string) : string :=
  match s with
  | EmptyString => EmptyString
  | String c rest =>
      String (if Ascii.eqb c space then underscore else c) (replaceSpaces rest)
  end.

(** The template literal of [branchName]; [timestamp] is [Date.now()]. *)
Definition branchName (teamName leaderName : string) (timestamp : N) : string :=
  replaceSpaces (toUpperCase teamName) +:+ "_" +:+
  replaceSpaces (toUpperCase leaderName) +:+ "_AI_Fix_" +:+ pretty timestamp.

(** The characters of a string. *)
Fixpoint chars (s : string) : list Ascii.ascii :=
  match s with
  | EmptyString => []
  | String c rest => c :: chars rest
  end.

End Auditor.

(** * Properties *)

(** ** The Issue Ledger *)

Import Ledger LedgerSpec.

Lemma issueKey_reopen iss : issueKey (reopen iss) = issueKey iss.
Proof. reflexivity. Qed.

Lemma evolved_init issues0 :
  evolved issues0 {| issues := issues0; newIssues := []; reOpenedIssues := [] |}.
Proof.
  split; [done|]. split.
  - intros j o Hj. by left.
  - intros j Hj. by apply elem_of_nil in Hj.
Qed.

(** The two ways a turn of the scan can go, as far as the ledger and the
    reopened list are concerned. *)
Lemma scanStep_cases K st d :
  (∃ idx e, list_find (fixedMatch d) (issues st) = Some (idx, e) ∧
     scanStep K st d = {| issues := <[idx := reopen e]> (issues st);
                          newIssues := newIssues st;
                          reOpenedIssues := reOpenedIssues st ++ [idx] |}) ∨
  (list_find (fixedMatch d) (issues st) = None ∧
     issues (scanStep K st d) = issues st ∧
     reOpenedIssues (scanStep K st d) = reOpenedIssues st).
Proof.
  unfold scanStep. destruct (list_find _ _) as [[idx e]|] eqn:Hf.
  - left. eauto.
  - right. split; [done|]. by case_decide.
Qed.

Lemma evolved_step issues0 K st d :
  evolved issues0 st → evolved issues0 (scanStep K st d).
Proof.
  intros (Hlen & Hev & Hre).
  destruct (scanStep_cases K st d) as [(idx & e & Hf & ->)|(Hf & Hi & Hr)].
  - apply list_find_Some in Hf as (Hidx & [Hk Hfx] & _).
    split; [|split]; simpl.
    + by rewrite length_insert.
    + intros j o Hj. destruct (Hev j o Hj) as [Hc|(Ho & Hc & Hin)].
      * destruct (decide (j = idx)) as [->|Hne].
        -- right. rewrite Hidx in Hc. injection Hc as ->.
           split; [done|]. split.
           ++ apply list_lookup_insert_eq. by eapply lookup_lt_Some.
           ++ apply elem_of_app. right. by apply list_elem_of_singleton.
        -- left. by rewrite list_lookup_insert_ne.
      * right. split; [done|]. split.
        -- destruct (decide (j = idx)) as [->|Hne].
           ++ rewrite Hidx in Hc. injection Hc as ->. done.
           ++ by rewrite list_lookup_insert_ne.
        -- apply elem_of_app. by left.
    + intros j Hj. apply elem_of_app in Hj as [Hj|Hj]; [by apply Hre|].
      apply list_elem_of_singleton in Hj as ->.
      assert (is_Some (issues0 !! idx)) as [o Ho].
      { apply lookup_lt_is_Some. rewrite <- Hlen. by eapply lookup_lt_Some. }
      exists o. split; [done|].
      destruct (Hev idx o Ho) as [Hc|(Hs & _ & _)]; [|done].
      rewrite Hidx in Hc. by injection Hc as ->.
  - split; [by rewrite Hi|]. split.
    + intros j o Hj. rewrite Hi, Hr. auto.
    + intros j Hj. rewrite Hr in Hj. by apply Hre.
Qed.

Lemma evolved_scan issues0 K ds st :
  evolved issues0 st → evolved issues0 (foldl (scanStep K) st ds).
Proof.
  revert st. induction ds as [|d ds IH]; intros st H; simpl; [done|].
  apply IH. by apply evolved_step.
Qed.

(** An entry that is not FIXED is left alone by the scan. *)
Lemma scanStep_keeps K st d j x :
  issues st !! j = Some x → status x ≠ FIXED →
  issues (scanStep K st d) !! j = Some x.
Proof.
  intros Hj Hs.
  destruct (scanStep_cases K st d) as [(idx & e & Hf & ->)|(Hf & Hi & Hr)].
  - apply list_find_Some in Hf as (Hidx & [Hk Hfx] & _). simpl.
    destruct (decide (j = idx)) as [->|Hne].
    + congruence.
    + by rewrite list_lookup_insert_ne.
  - by rewrite Hi.
Qed.

Lemma scanStep_reopened_mono K st d j :
  j ∈ reOpenedIssues st → j ∈ reOpenedIssues (scanStep K st d).
Proof.
  intros Hj.
  destruct (scanStep_cases K st d) as [(idx & e & Hf & ->)|(Hf & Hi & Hr)].
  - simpl. apply elem_of_app. by left.
  - by rewrite Hr.
Qed.

Lemma scan_keeps K ds st j x :
  issues st !! j = Some x → status x ≠ FIXED →
  issues (foldl (scanStep K) st ds) !! j = Some x.
Proof.
  revert st. induction ds as [|d ds IH]; intros st Hj Hs; simpl; [done|].
  apply IH; [|done]. by apply scanStep_keeps.
Qed.

Lemma scan_reopened_mono K ds st j :
  j ∈ reOpenedIssues st → j ∈ reOpenedIssues (foldl (scanStep K) st ds).
Proof.
  revert st. induction ds as [|d ds IH]; intros st Hj; simpl; [done|].
  apply IH. by apply scanStep_reopened_mono.
Qed.

(** No entry of the current ledger is a FIXED match for [disc] when none
    of the original ledger was: reopening only removes FIXED entries. *)
Lemma evolved_no_match issues0 st disc :
  evolved issues0 st →
  (∀ j o, issues0 !! j = Some o → ¬ fixedMatch disc o) →
  list_find (fixedMatch disc) (issues st) = None.
Proof.
  intros (Hlen & Hev & _) Hno.
  apply list_find_None, Forall_forall. intros y Hy.
  apply list_elem_of_lookup in Hy as [j Hj].
  assert (is_Some (issues0 !! j)) as [o Ho].
  { apply lookup_lt_is_Some. rewrite <- Hlen. by eapply lookup_lt_Some. }
  destruct (Hev j o Ho) as [Hc|(_ & Hc & _)];
    rewrite Hj in Hc; injection Hc as ->.
  - by eapply Hno.
  - by intros [_ ?].
Qed.

(** The first FIXED match of a discovered issue is reopened by the scan. *)
Lemma scan_reopens_first issues0 K ds st disc k e :
  evolved issues0 st →
  disc ∈ ds →
  issues0 !! k = Some e →
  fixedMatch disc e →
  (∀ j e', j < k → issues0 !! j = Some e' → ¬ fixedMatch disc e') →
  issues (foldl (scanStep K) st ds) !! k = Some (reopen e) ∧
  k ∈ reOpenedIssues (foldl (scanStep K) st ds).
Proof.
  intros Hev Hin Hk Hm Hfirst. revert st Hev.
  induction ds as [|d ds IH]; intros st Hev; [by apply elem_of_nil in Hin|].
  apply elem_of_cons in Hin as [<-|Hin]; simpl.
  - assert (issues (scanStep K st disc) !! k = Some (reopen e) ∧
            k ∈ reOpenedIssues (scanStep K st disc)) as [H1 H2].
    { destruct Hev as (Hlen & Hev & _).
      destruct (Hev k e Hk) as [Hc|(Ho & Hc & Hr)].
      - assert (list_find (fixedMatch disc) (issues st) = Some (k, e)) as Hf.
        { apply list_find_Some. split; [done|]. split; [done|].
          intros j y Hj Hlt Hy.
          assert (is_Some (issues0 !! j)) as [o Ho].
          { apply lookup_lt_is_Some. rewrite <- Hlen. by eapply lookup_lt_Some. }
          destruct (Hev j o Ho) as [Hc'|(Hs' & Hc' & _)];
            rewrite Hj in Hc'; injection Hc' as ->.
          - by eapply Hfirst.
          - by destruct Hy as [_ Hy]. }
        unfold scanStep. rewrite Hf. simpl. split.
        + apply list_lookup_insert_eq. by eapply lookup_lt_Some.
        + apply elem_of_app. right. by apply list_elem_of_singleton.
      - split; [|by apply scanStep_reopened_mono].
        by apply scanStep_keeps. }
    split; [|by apply scan_reopened_mono]. by apply scan_keeps.
  - apply IH; [done|]. by apply evolved_step.
Qed.

(** Step E only appends: the entries pushed are the new issues whose key
    is not in the snapshot [existingKeys]. *)
Lemma appendNew_foldl (K : gset string) i acc ns :
  foldl (λ acc iss,
           if decide (discKey iss ∈ K) then acc
           else acc ++ [openEntry iss i]) acc ns =
  acc ++ ((λ d, openEntry d i) <$> filter (λ d, discKey d ∉ K) ns).
Proof.
  revert acc. induction ns as [|d ds IH]; intros acc; simpl.
  - by rewrite app_nil_r.
  - rewrite IH. case_decide as Hd.
    + rewrite filter_cons_False; [done|]. by intros ?.
    + rewrite filter_cons_True by done. simpl. by rewrite <- app_assoc.
Qed.

Lemma appendNew_spec i l newIss :
  appendNew i l newIss =
  l ++ ((λ d, openEntry d i) <$>
        filter (λ d, discKey d ∉ (list_to_set (issueKey <$> l) : gset string)) newIss).
Proof. apply appendNew_foldl. Qed.

Lemma appendNew_lookup_old i l newIss k :
  k < length l → appendNew i l newIss !! k = l !! k.
Proof. intros Hk. rewrite appendNew_spec. by apply lookup_app_l. Qed.

(** What the scan puts in [newIssues] has a key outside the snapshot of
    addressed keys. *)
Lemma scan_new_not_addressed K ds st :
  (∀ d, d ∈ newIssues st → discKey d ∉ K) →
  ∀ d, d ∈ newIssues (foldl (scanStep K) st ds) → discKey d ∉ K.
Proof.
  revert st. induction ds as [|d0 ds IH]; intros st Hst; simpl; [done|].
  apply IH. intros d. unfold scanStep.
  destruct (list_find _ _) as [[idx e]|]; simpl; [by apply Hst|].
  case_decide as Hd; simpl; [by apply Hst|].
  intros Hin. apply elem_of_app in Hin as [Hin|Hin]; [by apply Hst|].
  by apply list_elem_of_singleton in Hin as ->.
Qed.

Lemma addressedKeysOf_spec l key :
  key ∈ addressedKeysOf l ↔ ∃ e, e ∈ l ∧ status e ≠ OPEN ∧ issueKey e = key.
Proof.
  unfold addressedKeysOf. rewrite elem_of_list_to_set, list_elem_of_fmap.
  split.
  - intros (e & -> & He). apply list_elem_of_filter in He as [Hs He]. eauto.
  - intros (e & He & Hs & <-). exists e. split; [done|].
    by apply list_elem_of_filter.
Qed.

(** Every entry of the ledger after a scan sits where an entry of the
    original ledger sat, and is that entry or its reopened version. *)
Lemma evolved_back issues0 st j x :
  evolved issues0 st → issues st !! j = Some x →
  ∃ o, issues0 !! j = Some o ∧ (x = o ∨ (status o = FIXED ∧ x = reopen o)).
Proof.
  intros (Hlen & Hev & _) Hj.
  assert (is_Some (issues0 !! j)) as [o Ho].
  { apply lookup_lt_is_Some. rewrite <- Hlen. by eapply lookup_lt_Some. }
  exists o. split; [done|].
  destruct (Hev j o Ho) as [Hc|(Hs & Hc & _)];
    rewrite Hj in Hc; injection Hc as ->; auto.
Qed.

Lemma scanDiscovered_evolved currentIssues discovered :
  evolved currentIssues (scanDiscovered currentIssues discovered).
Proof. apply evolved_scan, evolved_init. Qed.

(** C1 (as amended). When a discovered issue's key, or its line-0 fallback
    key, matches ledger entries whose status is FIXED, the first such entry
    in ledger order is the one the merge reopens: afterwards it sits at the
    same position with status OPEN, its description is the old one followed
    by the regression note, its other fields are unchanged, and the
    reopened list refers to it. *)
Theorem C1_first_fixed_match_is_reopened
    (currentIssues : list Issue) (discovered : list Discovered) (i : nat)
    (disc : Discovered) (k : nat) (e : Issue) :
  disc ∈ discovered →
  currentIssues !! k = Some e →
  status e = FIXED →
  issueKey e ∈ discKeys disc →
  (∀ j e', j < k → currentIssues !! j = Some e' → ¬ fixedMatch disc e') →
  ∃ e', issues (merge currentIssues discovered i) !! k = Some e' ∧
        status e' = OPEN ∧
        description e' = description e +:+ REOPEN_NOTE ∧
        identity e' = identity e ∧
        discoveredAt e' = discoveredAt e ∧
        fixedAt e' = fixedAt e ∧
        k ∈ reOpenedIssues (merge currentIssues discovered i).
Proof.
  intros Hin Hk Hs Hkey Hfirst.
  destruct (scan_reopens_first currentIssues (addressedKeysOf currentIssues)
              discovered
              {| issues := currentIssues; newIssues := []; reOpenedIssues := [] |}
              disc k e) as [H1 H2]; try done.
  { apply evolved_init. }
  exists (reopen e). unfold merge; simpl. fold (scanDiscovered currentIssues discovered).
  split; [|by repeat split].
  rewrite appendNew_lookup_old; [done|]. by eapply lookup_lt_Some.
Qed.

Lemma C1_first_fixed_match_is_reopened_witness :
  ∃ e', issues (merge [fixed_a0; fixed_a8] [disc_a8] 2) !! 0 = Some e' ∧
        status e' = OPEN ∧
        description e' = description fixed_a0 +:+ REOPEN_NOTE ∧
        identity e' = identity fixed_a0 ∧
        discoveredAt e' = discoveredAt fixed_a0 ∧
        fixedAt e' = fixedAt fixed_a0 ∧
        0 ∈ reOpenedIssues (merge [fixed_a0; fixed_a8] [disc_a8] 2).
Proof.
  apply (C1_first_fixed_match_is_reopened
           [fixed_a0; fixed_a8] [disc_a8] 2 disc_a8 0 fixed_a0).
  - apply list_elem_of_here.
  - reflexivity.
  - reflexivity.
  - apply list_elem_of_further, list_elem_of_here.
  - intros j e' Hlt. lia.
Defined.

(** C1 as stated fails: [fixed_a8] is FIXED and has exactly the key of the
    rediscovered [disc_a8], yet the merge reopens the line-0 entry that
    precedes it and leaves [fixed_a8] FIXED, without a note and outside the
    reopened list. *)
Lemma C1_exact_match_left_fixed :
  [fixed_a0; fixed_a8] !! 1 = Some fixed_a8 ∧
  status fixed_a8 = FIXED ∧
  issueKey fixed_a8 = discKey disc_a8 ∧
  issues (merge [fixed_a0; fixed_a8] [disc_a8] 2) !! 1 = Some fixed_a8 ∧
  1 ∉ reOpenedIssues (merge [fixed_a0; fixed_a8] [disc_a8] 2).
Proof.
  repeat split.
  vm_compute. intros H. apply list_elem_of_singleton in H. discriminate.
Qed.

(** C2 at the failing input: the oracle reports the same issue twice in
    one batch and the ledger is empty. Both copies pass the test against
    [existingKeys], which is not extended inside the loop, and the ledger
    ends with two entries for the key [(src/a.py, SYNTAX, 8)]. *)
Theorem C2_duplicate_in_batch_appended_twice :
  let ledger := issues (merge [] [disc_a8; disc_a8] 1) in
  ledger = [openEntry disc_a8 1; openEntry disc_a8 1] ∧
  ¬ NoDup (identity <$> ledger).
Proof.
  split; [reflexivity|].
  intros H. vm_compute in H. apply NoDup_cons in H as [H _].
  apply H, list_elem_of_here.
Qed.

(** C10 (as amended). A discovered issue whose key is the key of an entry
    in a FAILED_* state never touches that entry: the entry keeps its
    position and all its fields, the reopened list does not refer to it,
    and no new issue and no appended entry carries its key. When moreover
    no FIXED entry matches the key or its line-0 fallback, the discovery is
    discarded: its turn of the scan changes nothing. *)
Theorem C10_failed_entry_match_is_discarded
    (currentIssues : list Issue) (discovered : list Discovered) (i : nat)
    (disc : Discovered) (k : nat) (e : Issue) :
  disc ∈ discovered →
  currentIssues !! k = Some e →
  (status e = FAILED_FILE_NOT_FOUND ∨ status e = FAILED_GENERATION) →
  issueKey e = discKey disc →
  issues (merge currentIssues discovered i) !! k = Some e ∧
  (k ∉ reOpenedIssues (merge currentIssues discovered i)) ∧
  (∀ d, d ∈ newIssues (merge currentIssues discovered i) →
        discKey d ≠ discKey disc) ∧
  (∀ j x, issues (merge currentIssues discovered i) !! j = Some x →
          issueKey x = discKey disc → j < length currentIssues) ∧
  ((∀ j o, currentIssues !! j = Some o → ¬ fixedMatch disc o) →
   ∀ before after, discovered = before ++ disc :: after →
     scanStep (addressedKeysOf currentIssues)
       (scanDiscovered currentIssues before) disc
     = scanDiscovered currentIssues before).
Proof.
  intros Hin Hk Hs Hkey.
  assert (status e ≠ OPEN ∧ status e ≠ FIXED) as [HnO HnF].
  { destruct Hs as [-> | ->]; done. }
  assert (discKey disc ∈ addressedKeysOf currentIssues) as Haddr.
  { apply addressedKeysOf_spec. exists e. split; [|done].
    apply list_elem_of_lookup. eauto. }
  pose proof (scanDiscovered_evolved currentIssues discovered) as Hev.
  split; [|split; [|split; [|split]]].
  - unfold merge; simpl. rewrite appendNew_lookup_old.
    + apply scan_keeps; done.
    + destruct Hev as (Hlen & _ & _). rewrite Hlen. by eapply lookup_lt_Some.
  - unfold merge; simpl. intros Hr.
    destruct Hev as (_ & _ & Hre). destruct (Hre k Hr) as (o & Ho & HoF).
    rewrite Hk in Ho. injection Ho as ->. done.
  - unfold merge; simpl. intros d Hd Heq.
    eapply (scan_new_not_addressed (addressedKeysOf currentIssues) discovered);
      [|exact Hd|by rewrite Heq].
    intros d' Hd'. by apply elem_of_nil in Hd'.
  - unfold merge; simpl. intros j x Hj Hx.
    destruct Hev as (Hlen & Hev & Hre). rewrite <- Hlen.
    rewrite appendNew_spec in Hj.
    destruct (decide (j < length (issues (scanDiscovered currentIssues discovered))))
      as [Hlt|Hge]; [done|exfalso].
    rewrite lookup_app_r in Hj by lia.
    apply list_elem_of_lookup_2, list_elem_of_fmap in Hj as (d & -> & Hd).
    apply list_elem_of_filter in Hd as [Hd _].
    apply Hd. change (issueKey (openEntry d i)) with (discKey d) in Hx.
    rewrite Hx, elem_of_list_to_set, list_elem_of_fmap.
    destruct (Hev k e Hk) as [Hc|(HF & _)]; [|done].
    exists e. split; [done|]. apply list_elem_of_lookup. eauto.
  - intros Hno before after _.
    pose proof (scanDiscovered_evolved currentIssues before) as Hevb.
    unfold scanStep.
    rewrite (evolved_no_match currentIssues _ disc Hevb Hno).
    by rewrite decide_True.
Qed.

Lemma C10_failed_entry_match_is_discarded_witness :
  issues (merge [failed_a8] [disc_a8] 2) !! 0 = Some failed_a8 ∧
  (0 ∉ reOpenedIssues (merge [failed_a8] [disc_a8] 2)) ∧
  (∀ d, d ∈ newIssues (merge [failed_a8] [disc_a8] 2) →
        discKey d ≠ discKey disc_a8) ∧
  (∀ j x, issues (merge [failed_a8] [disc_a8] 2) !! j = Some x →
          issueKey x = discKey disc_a8 → j < length [failed_a8]) ∧
  ((∀ j o, [failed_a8] !! j = Some o → ¬ fixedMatch disc_a8 o) →
   ∀ before after, [disc_a8] = before ++ disc_a8 :: after →
     scanStep (addressedKeysOf [failed_a8])
       (scanDiscovered [failed_a8] before) disc_a8
     = scanDiscovered [failed_a8] before).
Proof.
  apply (C10_failed_entry_match_is_discarded [failed_a8] [disc_a8] 2 disc_a8 0 failed_a8).
  - apply list_elem_of_here.
  - reflexivity.
  - right. reflexivity.
  - reflexivity.
Defined.

(** The discovery of the witness, merged alone: nothing changes. *)
Example rediscovered_failed_issue_is_dropped :
  merge [failed_a8] [disc_a8] 2
  = {| issues := [failed_a8]; newIssues := []; reOpenedIssues := [] |}.
Proof. reflexivity. Qed.

(** C10 as stated fails: [disc_a8] has the key of the FAILED_GENERATION
    entry [failed_a8], but the FIXED line-0 entry before it matches the
    fallback key, so the discovery is not discarded: it reopens that entry
    and the merge reports one reopened issue. *)
Lemma C10_fallback_reopens_sibling :
  [fixed_a0; failed_a8] !! 1 = Some failed_a8 ∧
  status failed_a8 = FAILED_GENERATION ∧
  issueKey failed_a8 = discKey disc_a8 ∧
  merge [fixed_a0; failed_a8] [disc_a8] 2 =
    {| issues := [reopen fixed_a0; failed_a8];
       newIssues := [];
       reOpenedIssues := [0] |} ∧
  merge [fixed_a0; failed_a8] [] 2 =
    {| issues := [fixed_a0; failed_a8];
       newIssues := [];
       reOpenedIssues := [] |}.
Proof. repeat split. Qed.

(** *** Status updates *)

Lemma updateIssueStatus_cases now f t ln s l :
  (∃ idx issue,
     l !! idx = Some issue ∧ identity issue = (f, t, ln) ∧
     (∀ j y, l !! j = Some y → j < idx → identity y ≠ (f, t, ln)) ∧
     updateIssueStatus now f t ln s l = <[idx := stamped now s issue]> l) ∨
  ((∀ y, y ∈ l → identity y ≠ (f, t, ln)) ∧
   updateIssueStatus now f t ln s l = l).
Proof.
  unfold updateIssueStatus.
  destruct (list_find _ l) as [[idx issue]|] eqn:Hf.
  - left. exists idx, issue.
    apply list_find_Some in Hf as (Hidx & (Hf1 & Hf2 & Hf3) & Hfirst).
    split; [done|]. split; [by unfold identity; rewrite Hf1, Hf2, Hf3|].
    split; [|done].
    intros j y Hj Hlt Hy. apply (Hfirst j y Hj Hlt).
    unfold identity in Hy. by injection Hy.
  - right. split; [|done].
    apply list_find_None in Hf. intros y Hy Heq.
    eapply Forall_forall in Hf; [|exact Hy].
    apply Hf. unfold identity in Heq. by injection Heq.
Qed.

Lemma updateIssueStatus_elem now f t ln s l x :
  x ∈ updateIssueStatus now f t ln s l →
  x ∈ l ∨ ∃ issue, issue ∈ l ∧ x = stamped now s issue.
Proof.
  destruct (updateIssueStatus_cases now f t ln s l)
    as [(idx & issue & Hidx & _ & _ & ->)|(_ & ->)]; [|by left].
  intros Hx. apply list_elem_of_lookup in Hx as [j Hj].
  destruct (decide (j = idx)) as [->|Hne].
  - rewrite list_lookup_insert_eq in Hj by (by eapply lookup_lt_Some).
    injection Hj as <-. right. exists issue. split; [|done].
    apply list_elem_of_lookup. eauto.
  - rewrite list_lookup_insert_ne in Hj by done.
    left. apply list_elem_of_lookup. eauto.
Qed.

Lemma merge_elem currentIssues discovered i x :
  x ∈ issues (merge currentIssues discovered i) →
  (∃ o, o ∈ currentIssues ∧ (x = o ∨ x = reopen o)) ∨
  (∃ d, d ∈ discovered ∧ x = openEntry d i).
Proof.
  unfold merge; simpl. rewrite appendNew_spec. intros Hx.
  apply elem_of_app in Hx as [Hx|Hx].
  - left. apply list_elem_of_lookup in Hx as [j Hj].
    destruct (evolved_back _ _ _ _ (scanDiscovered_evolved currentIssues discovered) Hj)
      as (o & Ho & Hcase).
    exists o. split; [apply list_elem_of_lookup; eauto|].
    destruct Hcase as [->|[_ ->]]; auto.
  - right. apply list_elem_of_fmap in Hx as (d & -> & Hd).
    apply list_elem_of_filter in Hd as [_ Hd].
    exists d. split; [|done].
    clear -Hd. unfold scanDiscovered in Hd.
    assert (∀ ds st, d ∈ newIssues (foldl (scanStep (addressedKeysOf currentIssues)) st ds) →
                     d ∈ newIssues st ∨ d ∈ ds) as Hgen.
    { clear. induction ds as [|d0 ds IH]; intros st H; simpl in *; [by left|].
      destruct (IH _ H) as [H'|H']; [|right; by apply list_elem_of_further].
      unfold scanStep in H'.
      destruct (list_find _ _) as [[idx e]|]; simpl in H'; [by left|].
      case_decide; simpl in H'; [by left|].
      apply elem_of_app in H' as [H'|H']; [by left|].
      apply list_elem_of_singleton in H' as ->. right. apply list_elem_of_here. }
    destruct (Hgen _ _ Hd) as [H|H]; [by apply elem_of_nil in H|done].
Qed.

(** C5 (as amended). In every ledger produced from the empty one by merges
    and status updates, an issue whose status is FIXED,
    FAILED_FILE_NOT_FOUND or FAILED_GENERATION has [fixedAt] set: the
    status update stamps [fixedAt] for every outcome, and neither the merge
    nor the reopening clears it. *)
Theorem C5_resolved_issue_has_fixedAt (l : list Issue) (iss : Issue) :
  reachable l → iss ∈ l → status iss ≠ OPEN → is_Some (fixedAt iss).
Proof.
  intros Hr. revert iss. induction Hr as [|l ds i Hr IH|l now f t ln s Hr IH];
    intros iss Hin Hs.
  - by apply elem_of_nil in Hin.
  - apply merge_elem in Hin as [(o & Ho & [->| ->])|(d & _ & ->)].
    + by apply IH.
    + done.
    + done.
  - apply updateIssueStatus_elem in Hin as [Hin|(issue & _ & ->)].
    + by apply IH.
    + by eexists.
Qed.

Lemma C5_resolved_issue_has_fixedAt_witness :
  is_Some (fixedAt (stamped "2024-01-01T00:00:02.000Z" FIXED (openEntry disc_a8 1))).
Proof.
  apply (C5_resolved_issue_has_fixedAt
           (updateIssueStatus "2024-01-01T00:00:02.000Z" "src/a.py" "SYNTAX" 8 FIXED
              (issues (merge [] [disc_a8] 1)))).
  - apply reach_update, reach_merge, reach_empty.
  - apply list_elem_of_here.
  - discriminate.
Defined.

(** C5 as stated fails in both directions: an issue resolved to
    FAILED_FILE_NOT_FOUND carries a [fixedAt] timestamp, and a FIXED issue
    that a later merge reopens is OPEN and still carries one. *)
Lemma C5_fixedAt_without_FIXED :
  let discovered1 := issues (merge [] [disc_a8] 1) in
  let notFound :=
    updateIssueStatus "2024-01-01T00:00:02.000Z" "src/a.py" "SYNTAX" 8
      FAILED_FILE_NOT_FOUND discovered1 in
  let reopened :=
    issues (merge (updateIssueStatus "2024-01-01T00:00:02.000Z" "src/a.py"
                     "SYNTAX" 8 FIXED discovered1)
                  [disc_a8] 2) in
  reachable notFound ∧ reachable reopened ∧
  (∃ iss, notFound !! 0 = Some iss ∧ status iss = FAILED_FILE_NOT_FOUND ∧
          fixedAt iss = Some "2024-01-01T00:00:02.000Z") ∧
  (∃ iss, reopened !! 0 = Some iss ∧ status iss = OPEN ∧
          fixedAt iss = Some "2024-01-01T00:00:02.000Z").
Proof.
  split; [apply reach_update, reach_merge, reach_empty|].
  split; [apply reach_merge, reach_update, reach_merge, reach_empty|].
  split; eexists; repeat split.
Qed.

(** *** Uniqueness of keys: what the merge does preserve *)

Lemma scanStep_keys K st d :
  issueKey <$> issues (scanStep K st d) = issueKey <$> issues st.
Proof.
  destruct (scanStep_cases K st d) as [(idx & e & Hf & ->)|(_ & -> & _)]; [|done].
  apply list_find_Some in Hf as (Hidx & _ & _). simpl.
  rewrite list_fmap_insert, issueKey_reopen.
  apply list_insert_id. by rewrite list_lookup_fmap, Hidx.
Qed.

Lemma scan_keys K ds st :
  issueKey <$> issues (foldl (scanStep K) st ds) = issueKey <$> issues st.
Proof.
  revert st. induction ds as [|d ds IH]; intros st; simpl; [done|].
  by rewrite IH, scanStep_keys.
Qed.

Lemma scan_new_sublist K ds st :
  newIssues (foldl (scanStep K) st ds) `sublist_of` newIssues st ++ ds.
Proof.
  revert st. induction ds as [|d ds IH]; intros st; simpl.
  - by rewrite app_nil_r.
  - etrans; [apply IH|]. unfold scanStep.
    destruct (list_find _ _) as [[idx e]|]; simpl.
    + apply sublist_app; [done|]. by apply sublist_cons.
    + case_decide; simpl.
      * apply sublist_app; [done|]. by apply sublist_cons.
      * by rewrite <- app_assoc.
Qed.

(** When the discovered batch has pairwise distinct keys, the merge keeps
    the keys of the ledger pairwise distinct. *)
Lemma merge_keeps_keys_unique currentIssues discovered i :
  NoDup (issueKey <$> currentIssues) →
  NoDup (discKey <$> discovered) →
  NoDup (issueKey <$> issues (merge currentIssues discovered i)).
Proof.
  intros Hl Hd. unfold merge; simpl. rewrite appendNew_spec, fmap_app.
  pose proof (scan_keys (addressedKeysOf currentIssues) discovered
                {| issues := currentIssues; newIssues := []; reOpenedIssues := [] |})
    as Hkeys.
  fold (scanDiscovered currentIssues discovered) in Hkeys. simpl in Hkeys.
  rewrite Hkeys.
  apply NoDup_app. split; [done|]. split.
  - intros key Hkey Hin.
    apply list_elem_of_fmap in Hin as (x & -> & Hx).
    apply list_elem_of_fmap in Hx as (d & -> & Hdd).
    apply list_elem_of_filter in Hdd as [Hnot _]. apply Hnot.
    by rewrite elem_of_list_to_set.
  - rewrite <- list_fmap_compose.
    eapply sublist_NoDup; [exact Hd|].
    change (issueKey ∘ (λ d, openEntry d i)) with discKey.
    apply fmap_sublist. etrans; [apply sublist_filter|].
    apply (scan_new_sublist _ discovered
             {| issues := currentIssues; newIssues := []; reOpenedIssues := [] |}).
Qed.

Lemma unique_keys_unique_identity (l : list Issue) :
  NoDup (issueKey <$> l) → NoDup (identity <$> l).
Proof.
  intros H.
  change issueKey with ((λ p : string * string * N, keyOf p.1.1 p.1.2 p.2) ∘ identity) in H.
  rewrite list_fmap_compose in H. by apply NoDup_fmap_1 in H.
Qed.

Lemma filter_none {A} (P : A → Prop) `{∀ x, Decision (P x)} (l : list A) :
  (∀ x, x ∈ l → ¬ P x) → filter P l = [].
Proof.
  induction l as [|x l IH]; intros Hl; [done|].
  rewrite filter_cons_False by (apply Hl, list_elem_of_here).
  apply IH. intros y Hy. by apply Hl, list_elem_of_further.
Qed.

(** Merging discovered issues whose keys all belong to entries already in
    the ledger, none of them a FIXED match, leaves the ledger as it is:
    nothing is reopened and nothing is appended. *)
Lemma merge_known_keys_unchanged currentIssues discovered i :
  (∀ d, d ∈ discovered → discKey d ∈ issueKey <$> currentIssues) →
  (∀ d j o, d ∈ discovered → currentIssues !! j = Some o → ¬ fixedMatch d o) →
  issues (merge currentIssues discovered i) = currentIssues ∧
  reOpenedIssues (merge currentIssues discovered i) = [].
Proof.
  intros Hknown Hno.
  assert (∀ ds st, (∀ d, d ∈ ds → d ∈ discovered) →
            evolved currentIssues st →
            issues (foldl (scanStep (addressedKeysOf currentIssues)) st ds) = issues st ∧
            reOpenedIssues (foldl (scanStep (addressedKeysOf currentIssues)) st ds)
              = reOpenedIssues st) as Hscan.
  { induction ds as [|d ds IH]; intros st Hsub Hev; simpl; [done|].
    destruct (IH (scanStep (addressedKeysOf currentIssues) st d)) as [H1 H2].
    - intros d' Hd'. apply Hsub. by apply list_elem_of_further.
    - by apply evolved_step.
    - rewrite H1, H2.
      destruct (scanStep_cases (addressedKeysOf currentIssues) st d)
        as [(idx & e & Hf & _)|(_ & Hi & Hr)]; [|done].
      rewrite (evolved_no_match currentIssues st d Hev) in Hf; [done|].
      intros j o. apply Hno, Hsub, list_elem_of_here. }
  destruct (Hscan discovered
              {| issues := currentIssues; newIssues := []; reOpenedIssues := [] |})
    as [H1 H2]; [done|apply evolved_init|].
  fold (scanDiscovered currentIssues discovered) in H1, H2. simpl in H1, H2.
  unfold merge; simpl. rewrite H2. split; [|done].
  rewrite appendNew_spec, H1.
  rewrite filter_none; [by rewrite app_nil_r|].
  intros d Hd Hnot. apply Hnot.
  rewrite elem_of_list_to_set. apply Hknown.
  pose proof (scan_new_sublist (addressedKeysOf currentIssues) discovered
                {| issues := currentIssues; newIssues := []; reOpenedIssues := [] |})
    as Hsub.
  eapply elem_of_sublist; [exact Hd|exact Hsub].
Qed.

(** ** The Solver *)

Import Js Solver.

Lemma stamped_identity now s issue : identity (stamped now s issue) = identity issue.
Proof. reflexivity. Qed.

Lemma updateIssueStatus_identities now f t ln s l :
  identity <$> updateIssueStatus now f t ln s l = identity <$> l.
Proof.
  destruct (updateIssueStatus_cases now f t ln s l)
    as [(idx & issue & Hidx & _ & _ & ->)|(_ & ->)]; [|done].
  rewrite list_fmap_insert, stamped_identity.
  apply list_insert_id. by rewrite list_lookup_fmap, Hidx.
Qed.

(** An entry with another identity is not touched by a status update. *)
Lemma updateIssueStatus_other now f t ln s l k e :
  l !! k = Some e → identity e ≠ (f, t, ln) →
  updateIssueStatus now f t ln s l !! k = Some e.
Proof.
  intros Hk Hne.
  destruct (updateIssueStatus_cases now f t ln s l)
    as [(idx & issue & Hidx & Hid & _ & ->)|(_ & ->)]; [|done].
  destruct (decide (k = idx)) as [->|Hki].
  - rewrite Hidx in Hk. injection Hk as ->. done.
  - by rewrite list_lookup_insert_ne.
Qed.

(** With pairwise distinct identities, the update reaches the entry that
    carries the identity. *)
Lemma updateIssueStatus_hit now s l k e :
  NoDup (identity <$> l) → l !! k = Some e →
  updateIssueStatus now (file e) (type e) (line e) s l !! k
    = Some (stamped now s e).
Proof.
  intros Hnd Hk.
  destruct (updateIssueStatus_cases now (file e) (type e) (line e) s l)
    as [(idx & issue & Hidx & Hid & _ & ->)|(Hnone & _)].
  - assert (idx = k) as ->.
    { eapply NoDup_lookup; [exact Hnd| |].
      - rewrite list_lookup_fmap, Hidx. simpl. by rewrite Hid.
      - by rewrite list_lookup_fmap, Hk. }
    rewrite Hidx in Hk. injection Hk as ->.
    apply list_lookup_insert_eq. by eapply lookup_lt_Some.
  - exfalso. apply (Hnone e); [|done]. apply list_elem_of_lookup. eauto.
Qed.

(** Two hypotheses about the same call agree on its result. *)
Ltac same_call :=
  intros; simplify_eq;
  repeat match goal with
         | Ha : ?x = Ret _, Hb : ?x = Ret _ |- _ => rewrite Ha in Hb; simplify_eq
         | Ha : ?x = Ret _, Hb : ?x = Throw _ |- _ => rewrite Ha in Hb; discriminate
         end;
  congruence.

(** What one turn of the solver's loop does to [issues_log.json]: one
    status update for the issue's identity, with the status decided by the
    branch taken; and the set of files on disk is not changed. *)
Lemma solveIssue_log w lp sn p st iss :
  ∃ s, log (solveIssue w lp sn p st iss)
         = updateIssueStatus (clock w p) (file iss) (type iss) (line iss) s (log st) ∧
       s ≠ OPEN ∧
       (disk st !! path_join lp (file iss) = None →
        isDirectory w (path_join lp (file iss)) = false →
        s = FAILED_FILE_NOT_FOUND) ∧
       (disk st !! path_join lp (file iss) = None →
        isDirectory w (path_join lp (file iss)) = true →
        s = FAILED_GENERATION) ∧
       (∀ c m, disk st !! path_join lp (file iss) = Some c →
               invoke w p iss sn c = Throw m → s = FAILED_GENERATION) ∧
       (∀ c content m, disk st !! path_join lp (file iss) = Some c →
               invoke w p iss sn c = Ret content →
               writeFile w p (path_join lp (file iss))
                 (if includes "```" content then stripFences w content else content)
                 = Throw m →
               s = FAILED_GENERATION) ∧
       (∀ c content, disk st !! path_join lp (file iss) = Some c →
               invoke w p iss sn c = Ret content →
               writeFile w p (path_join lp (file iss))
                 (if includes "```" content then stripFences w content else content)
                 = Ret tt →
               s = FIXED).
Proof.
  unfold solveIssue.
  destruct (disk st !! path_join lp (file iss)) as [c|] eqn:Hd.
  - destruct (invoke w p iss sn c) as [content|m] eqn:Hi.
    + destruct (writeFile w p (path_join lp (file iss)) _) as [[]|m] eqn:Hw.
      * exists FIXED. split; [reflexivity|].
        repeat split; same_call.
      * exists FAILED_GENERATION. split; [reflexivity|].
        repeat split; same_call.
    + exists FAILED_GENERATION. split; [reflexivity|].
      repeat split; same_call.
  - destruct (isDirectory w (path_join lp (file iss))) eqn:Hdir.
    + exists FAILED_GENERATION. split; [reflexivity|].
      repeat split; same_call.
    + exists FAILED_FILE_NOT_FOUND. split; [reflexivity|].
      repeat split; same_call.
Qed.

Lemma solveIssue_disk_none w lp sn p st iss f :
  disk (solveIssue w lp sn p st iss) !! f = None ↔ disk st !! f = None.
Proof.
  unfold solveIssue.
  destruct (disk st !! path_join lp (file iss)) as [c|] eqn:Hd;
    [|by destruct (isDirectory w _)].
  destruct (invoke w p iss sn c) as [content|m]; [|done].
  destruct (writeFile w p (path_join lp (file iss)) _) as [[]|m]; [|done].
  simpl. destruct (decide (path_join lp (file iss) = f)) as [<-|Hne].
  - rewrite lookup_insert_eq, Hd. split; discriminate.
  - by rewrite lookup_insert_ne.
Qed.

Lemma solveFrom_app w lp sn k st l1 l2 :
  solveFrom w lp sn k st (l1 ++ l2)
  = solveFrom w lp sn (k + length l1) (solveFrom w lp sn k st l1) l2.
Proof.
  revert k st. induction l1 as [|x l1 IH]; intros k st; simpl.
  - by rewrite Nat.add_0_r.
  - rewrite IH. f_equal. lia.
Qed.

Lemma solveFrom_identities w lp sn k st l :
  identity <$> log (solveFrom w lp sn k st l) = identity <$> log st.
Proof.
  revert k st. induction l as [|x l IH]; intros k st; simpl; [done|].
  rewrite IH. destruct (solveIssue_log w lp sn k st x) as (s & -> & _).
  apply updateIssueStatus_identities.
Qed.

Lemma solveFrom_disk_none w lp sn k st l f :
  disk (solveFrom w lp sn k st l) !! f = None ↔ disk st !! f = None.
Proof.
  revert k st. induction l as [|x l IH]; intros k st; simpl; [done|].
  by rewrite IH, solveIssue_disk_none.
Qed.

(** Issues with other identities do not change an entry. *)
Lemma solveFrom_untouched w lp sn k st l j e :
  log st !! j = Some e →
  (∀ x, x ∈ l → identity x ≠ identity e) →
  log (solveFrom w lp sn k st l) !! j = Some e.
Proof.
  revert k st. induction l as [|x l IH]; intros k st Hj Hne; simpl; [done|].
  apply IH.
  - destruct (solveIssue_log w lp sn k st x) as (s & -> & _).
    apply updateIssueStatus_other; [done|].
    intros Heq. apply (Hne x); [apply list_elem_of_here|].
    by rewrite Heq.
  - intros y Hy. apply Hne. by apply list_elem_of_further.
Qed.

(** In the solver's batch over the OPEN issues, the turn of every issue is
    reached and ends with one status update under the issue's identity,
    whatever happened to the issues before it, and the batch then goes on
    with the issues after it. The path looked at is
    [path.join(localPath, issue.file)]; the status written is
    FAILED_FILE_NOT_FOUND when nothing exists at that path,
    FAILED_GENERATION when it is a directory (the read throws), when the
    oracle call throws or when the write throws, and FIXED when the
    repaired content was written. Right after the turn the ledger has an
    entry with the issue's identity and that status; and in a ledger whose
    entries have pairwise distinct identities, the issue's own entry still
    carries that status when the batch ends. [before] is the solver's state
    when the issue's turn comes. *)
Lemma failed_repair_is_marked_and_batch_continues
    (w : World) (lp : string) (tree : gmap string string) (ledger : list Issue)
    (testOutput : string) (p : nat) (iss : Issue) :
  filter (λ x, status x = OPEN) ledger !! p = Some iss →
  let openIssues := filter (λ x, status x = OPEN) ledger in
  let sn := substring0 3000 testOutput in
  let filePath := path_join lp (file iss) in
  let before :=
    solveFrom w lp sn 0 {| disk := tree; log := ledger; fixesApplied := [] |}
      (take p openIssues) in
  let after := solveIssue w lp sn p before iss in
  let final := runSolver w lp tree openIssues ledger testOutput in
  final = solveFrom w lp sn (S p) after (drop (S p) openIssues) ∧
  ∃ s,
    log after
      = updateIssueStatus (clock w p) (file iss) (type iss) (line iss) s (log before) ∧
    s ≠ OPEN ∧
    (tree !! filePath = None → isDirectory w filePath = false →
     s = FAILED_FILE_NOT_FOUND) ∧
    (tree !! filePath = None → isDirectory w filePath = true →
     s = FAILED_GENERATION) ∧
    (∀ c m, disk before !! filePath = Some c →
            invoke w p iss sn c = Throw m →
            s = FAILED_GENERATION) ∧
    (∀ c content m, disk before !! filePath = Some c →
            invoke w p iss sn c = Ret content →
            writeFile w p filePath
              (if includes "```" content then stripFences w content else content)
              = Throw m →
            s = FAILED_GENERATION) ∧
    (∀ c content, disk before !! filePath = Some c →
            invoke w p iss sn c = Ret content →
            writeFile w p filePath
              (if includes "```" content then stripFences w content else content)
              = Ret tt →
            s = FIXED) ∧
    (∃ k0 e0, log after !! k0 = Some e0 ∧
              identity e0 = identity iss ∧ status e0 = s) ∧
    (NoDup (identity <$> ledger) →
     ∃ k e', ledger !! k = Some iss ∧
             log final !! k = Some e' ∧
             identity e' = identity iss ∧ status e' = s).
Proof.
  intros Hp openIssues sn filePath before after final.
  assert (iss ∈ ledger) as Hin.
  { apply list_elem_of_lookup_2 in Hp. by apply list_elem_of_filter in Hp as [_ ?]. }
  apply list_elem_of_lookup in Hin as [k Hk].
  (* the batch, cut at the issue's turn *)
  assert (final = solveFrom w lp sn (S p) after (drop (S p) openIssues)) as Hfinal.
  { unfold final, runSolver. fold sn.
    rewrite <- (take_drop_middle openIssues p iss Hp) at 1.
    rewrite solveFrom_app. simpl. fold before.
    rewrite length_take_le; [done|].
    apply lookup_lt_Some in Hp. fold openIssues in Hp. lia. }
  split; [exact Hfinal|].
  (* the entry when the turn comes *)
  assert (identity <$> log before = identity <$> ledger) as Hids.
  { unfold before. by rewrite solveFrom_identities. }
  assert (∃ eb, log before !! k = Some eb ∧ identity eb = identity iss)
    as (eb & Hkb & Heb).
  { assert ((identity <$> log before) !! k = Some (identity iss)) as H.
    { by rewrite Hids, list_lookup_fmap, Hk. }
    rewrite list_lookup_fmap in H.
    destruct (log before !! k) as [eb|]; [|done].
    exists eb. split; [done|]. simpl in H. congruence. }
  destruct (solveIssue_log w lp sn p before iss)
    as (s & Hlog & HsO & H1 & H1' & H2 & H3 & H4).
  exists s. fold after in Hlog. fold filePath in H1, H1', H2, H3, H4.
  split; [exact Hlog|]. split; [exact HsO|].
  split. { intros Hnone. apply H1. unfold before. by apply solveFrom_disk_none. }
  split. { intros Hnone. apply H1'. unfold before. by apply solveFrom_disk_none. }
  split; [exact H2|]. split; [exact H3|]. split; [exact H4|].
  split.
  { rewrite Hlog.
    destruct (updateIssueStatus_cases (clock w p) (file iss) (type iss) (line iss)
                s (log before))
      as [(idx & issue & Hidx & Hid & _ & ->)|(Hnone & _)].
    - exists idx, (stamped (clock w p) s issue).
      split; [|by rewrite stamped_identity].
      apply list_lookup_insert_eq. by eapply lookup_lt_Some.
    - exfalso. apply (Hnone eb); [|exact Heb].
      apply list_elem_of_lookup. eauto. }
  intros Hnd. exists k.
  assert (log after !! k = Some (stamped (clock w p) s eb)) as Hstep.
  { rewrite Hlog.
    assert (file iss = file eb ∧ type iss = type eb ∧ line iss = line eb)
      as (-> & -> & ->).
    { unfold identity in Heb. by injection Heb as -> -> ->. }
    apply updateIssueStatus_hit; [by rewrite Hids|done]. }
  (* the later issues have other identities *)
  assert (∀ x, x ∈ drop (S p) openIssues → identity x ≠ identity iss) as Hlater.
  { assert (NoDup (identity <$> openIssues)) as Hndo.
    { eapply sublist_NoDup; [exact Hnd|]. apply fmap_sublist, sublist_filter. }
    rewrite <- (take_drop_middle openIssues p iss Hp) in Hndo.
    rewrite fmap_app, fmap_cons in Hndo.
    apply NoDup_app in Hndo as (_ & _ & Hndo).
    apply NoDup_cons in Hndo as [Hnot _].
    intros x Hx Heq. apply Hnot. rewrite <- Heq.
    apply list_elem_of_fmap. eauto. }
  exists (stamped (clock w p) s eb).
  split; [done|]. split; [|by rewrite stamped_identity].
  rewrite Hfinal. apply solveFrom_untouched; [done|].
  intros x Hx. rewrite stamped_identity, Heb. by apply Hlater.
Qed.

Import SolverSpec.

(** A batch with a missing file and a failing oracle call: both failures
    are recorded and neither stops the batch. *)
Example solver_batch_with_two_failures :
  status <$> log (runSolver world_oracle_down "/tmp/repo" tree_b
                    (filter (λ x, status x = OPEN) ledger_ab) ledger_ab "1 failed")
  = [FAILED_FILE_NOT_FOUND; FAILED_GENERATION].
Proof. reflexivity. Qed.

(** The path is resolved before it is looked up: an issue that names
    [./src/b.py] is repaired in [src/b.py]. *)
Example solver_resolves_the_path :
  let iss := openEntry {| d_file := "./src/b.py"; d_type := "IMPORT"; d_line := 3;
                          d_description := "unused import os" |} 1 in
  let final := runSolver world_oracle_up "/tmp/repo" tree_b [iss] [iss] "1 failed" in
  status <$> log final = [FIXED] ∧
  disk final !! "/tmp/repo/src/b.py" = Some "import sys".
Proof. split; reflexivity. Qed.

(** An issue that names a directory ends as FAILED_GENERATION: the path
    exists and reading it throws. *)
Example solver_on_a_directory :
  let iss := openEntry {| d_file := "src"; d_type := "LOGIC"; d_line := 0;
                          d_description := "wrong result" |} 1 in
  let w := {| isDirectory := λ p, bool_decide (p = "/tmp/repo/src");
              invoke := invoke world_oracle_up;
              stripFences := stripFences world_oracle_up;
              writeFile := writeFile world_oracle_up;
              clock := clock world_oracle_up |} in
  status <$> log (runSolver w "/tmp/repo" tree_b [iss] [iss] "1 failed")
  = [FAILED_GENERATION].
Proof. reflexivity. Qed.

(** C8. On a ledger that holds the same identity twice (the empty ledger
    merged with a batch that reports one issue twice, see C2), a batch
    over its two OPEN issues, whose file is missing, processes both, and
    both status updates reach the first entry: the second issue is left
    OPEN instead of FAILED_FILE_NOT_FOUND. *)
Theorem C8_duplicate_issue_is_left_open :
  let ledger := issues (merge [] [disc_a8; disc_a8] 1) in
  let final := runSolver world_oracle_down "/tmp/repo" tree_b
                 (filter (λ x, status x = OPEN) ledger) ledger "1 failed" in
  length (filter (λ x, status x = OPEN) ledger) = 2 ∧
  tree_b !! path_join "/tmp/repo" "src/a.py" = None ∧
  status <$> log final = [FAILED_FILE_NOT_FOUND; OPEN].
Proof. repeat split. Qed.

(** ** The Sandbox Runtime *)

Import Sandbox SandboxSpec.

(** Unfold one call of [runTestsInSandbox] down to the daemon's answers. *)
Ltac unfold_sandbox :=
  unfold runTestsInSandbox, runTestsInSandbox_body, tryFinally, cleanup;
  repeat progress
    unfold tryCatch, capture, call, consoleError, setContainer, mbind, M_bind, mret, M_ret;
  simpl.

(** Case analysis on every answer of the daemon that the goal inspects. *)
Ltac daemon_cases d :=
  repeat match goal with
         | |- context [match createContainer d ?i with _ => _ end] =>
             destruct (createContainer d i) as [[]|?] eqn:?; simpl
         | |- context [match start d with _ => _ end] =>
             destruct (start d) as [[]|?] eqn:?; simpl
         | |- context [match putArchive d ?p with _ => _ end] =>
             destruct (putArchive d p) as [[]|?] eqn:?; simpl
         | |- context [match exec d ?c with _ => _ end] =>
             destruct (exec d c) as [[]|?] eqn:?; simpl
         | |- context [match execStart d with _ => _ end] =>
             destruct (execStart d) as [[]|?] eqn:?; simpl
         | |- context [match streamEnd d with _ => _ end] =>
             destruct (streamEnd d) as [[]|?] eqn:?; simpl
         | |- context [match inspectExitCode d with _ => _ end] =>
             destruct (inspectExitCode d) as [?|?] eqn:?; simpl
         | |- context [match stop d with _ => _ end] =>
             destruct (stop d) as [[]|?] eqn:?; simpl
         | |- context [match remove d with _ => _ end] =>
             destruct (remove d) as [[]|?] eqn:?; simpl
         end.

(** Two recorded answers to the same call agree. *)
Ltac clash :=
  simplify_eq;
  repeat match goal with
         | Ha : ?x = Ret _, Hb : ?x = Throw _ |- _ =>
             rewrite Ha in Hb; discriminate Hb
         | Ha : ?x = Ret ?a, Hb : ?x = Ret ?b |- _ =>
             rewrite Ha in Hb; injection Hb as ?; subst
         | Ha : ?x = Throw ?a, Hb : ?x = Throw ?b |- _ =>
             rewrite Ha in Hb; injection Hb as ?; subst
         end.

(** [runTestsInSandbox] always returns a result. *)
Lemma runTestsInSandbox_returns d localPath testCmd imageName :
  ∃ r st, runTestsInSandbox d localPath testCmd imageName = (Ret r, st).
Proof. unfold_sandbox. daemon_cases d; eauto. Qed.

(** The completion of [runTestsInSandbox], by cases on what the daemon
    answers. *)
Lemma runTestsInSandbox_outcome
    (d : Docker) (localPath testCmd imageName : string) :
  ∃ r st,
    runTestsInSandbox d localPath testCmd imageName = (Ret r, st) ∧
    (∀ code, infraOk d localPath testCmd imageName →
             inspectExitCode d = Ret code →
             r = {| success := bool_decide (code = Some 0%Z);
                    output := String.concat "" (chunks d) |}) ∧
    (success r = true ↔
       infraOk d localPath testCmd imageName ∧
       inspectExitCode d = Ret (Some 0%Z)) ∧
    (∀ e, thrownBy d localPath testCmd imageName e →
          ∃ e', thrownBy d localPath testCmd imageName e' ∧
                r = {| success := false;
                       output := "Sandbox execution failed: " +:+ e' |}).
Proof.
  unfold_sandbox. daemon_cases d.
  all: eexists; eexists; (split; [reflexivity|]).
  all: unfold infraOk, thrownBy.
  all: split; [intros code Hok Hc; destruct_and?; clash; try reflexivity|].
  all: split.
  all: try (split; [intros Hs; simpl in Hs; try discriminate|
                    intros [Hok Hc]; destruct_and?; clash; simpl]).
  all: try (intros e He; eexists; split; [|reflexivity]; tauto).
  all: try (intros e He; exfalso; destruct_or?; clash).
  all: try (apply bool_decide_eq_true in Hs; subst; tauto).
  all: try (by apply bool_decide_eq_true).
  all: reflexivity.
Qed.

(** C6. [runTestsInSandbox] never throws to its caller. When every daemon
    call resolves, the result carries the captured output and its [success]
    is true exactly when the command's exit code is 0; when a call of
    steps 1 to 4 throws, the result is [success = false] with the message
    of the error that was thrown. *)
Theorem C6_exit_code_decides_success_and_errors_become_results
    (d : Docker) (localPath testCmd imageName : string) :
  ∃ r st,
    runTestsInSandbox d localPath testCmd imageName = (Ret r, st) ∧
    (∀ code, infraOk d localPath testCmd imageName →
             inspectExitCode d = Ret code →
             r = {| success := bool_decide (code = Some 0%Z);
                    output := String.concat "" (chunks d) |}) ∧
    (success r = true ↔
       infraOk d localPath testCmd imageName ∧
       inspectExitCode d = Ret (Some 0%Z)) ∧
    (∀ e, thrownBy d localPath testCmd imageName e →
          ∃ e', thrownBy d localPath testCmd imageName e' ∧
                r = {| success := false;
                       output := "Sandbox execution failed: " +:+ e' |}).
Proof. apply runTestsInSandbox_outcome. Qed.

(** Once the container has been created, every call of
    [runTestsInSandbox] stops it exactly once, on whichever path the body
    ended; [remove] follows exactly once unless [stop] itself threw. An
    error thrown by [stop] or [remove] is the last thing logged, the
    function still returns its result, and that result is the same
    whatever the teardown calls answer. *)
Lemma teardown_stops_once_and_never_escapes
    (d : Docker) (localPath testCmd imageName : string) :
  createContainer d imageName = Ret tt →
  ∃ r st,
    runTestsInSandbox d localPath testCmd imageName = (Ret r, st) ∧
    occurrences EvStop (trace st) = 1 ∧
    occurrences EvRemove (trace st)
      = match stop d with Ret _ => 1 | Throw _ => 0 end ∧
    (∀ e, stop d = Throw e → last (trace st) = Some (EvLogCleanupError e)) ∧
    (∀ e, stop d = Ret tt → remove d = Throw e →
          last (trace st) = Some (EvLogCleanupError e)) ∧
    (∀ stop' remove',
       (runTestsInSandbox (withTeardown d stop' remove')
          localPath testCmd imageName).1 = Ret r).
Proof.
  intros Hc. unfold_sandbox. rewrite Hc. simpl. daemon_cases d.
  all: eexists; eexists; (split; [reflexivity|]).
  all: split; [reflexivity|].
  all: split; [reflexivity|].
  all: split; [intros e He; clash; try reflexivity|].
  all: split; [intros e Hs He; clash; try reflexivity|].
  all: intros [[]|?] [[]|?]; reflexivity.
Qed.

Lemma teardown_stops_once_and_never_escapes_on_failing_stop :
  ∃ r st,
    runTestsInSandbox docker_stop_fails "/tmp/repo" "pytest" "python:3.9-alpine"
      = (Ret r, st) ∧
    occurrences EvStop (trace st) = 1 ∧
    occurrences EvRemove (trace st)
      = match stop docker_stop_fails with Ret _ => 1 | Throw _ => 0 end ∧
    (∀ e, stop docker_stop_fails = Throw e →
          last (trace st) = Some (EvLogCleanupError e)) ∧
    (∀ e, stop docker_stop_fails = Ret tt → remove docker_stop_fails = Throw e →
          last (trace st) = Some (EvLogCleanupError e)) ∧
    (∀ stop' remove',
       (runTestsInSandbox (withTeardown docker_stop_fails stop' remove')
          "/tmp/repo" "pytest" "python:3.9-alpine").1 = Ret r).
Proof.
  apply (teardown_stops_once_and_never_escapes
           docker_stop_fails "/tmp/repo" "pytest" "python:3.9-alpine").
  reflexivity.
Defined.

(** C7. On a daemon where every step works, the tests fail, and [stop]
    throws: the result of the tests is returned, [stop] is called once,
    its error is logged, and [remove] is never called, so that the
    container is left behind. *)
Theorem C7_container_is_not_removed_when_stop_throws :
  runTestsInSandbox docker_stop_fails "/tmp/repo" "pytest" "python:3.9-alpine"
  = (Ret {| success := false; output := "1 failed" |},
     {| container := true;
        trace := [ EvCreate "python:3.9-alpine"; EvStart; EvPutArchive "/tmp/repo";
                   EvExec "pytest"; EvExecStart; EvInspect; EvStop;
                   EvLogCleanupError "container already stopped" ] |}) ∧
  occurrences EvRemove
    (trace (runTestsInSandbox docker_stop_fails "/tmp/repo" "pytest"
              "python:3.9-alpine").2) = 0.
Proof. split; reflexivity. Qed.

(** Without a container there is nothing to tear down. *)
Lemma no_container_no_teardown (d : Docker) (localPath testCmd imageName e : string) :
  createContainer d imageName = Throw e →
  runTestsInSandbox d localPath testCmd imageName
  = (Ret {| success := false; output := "Sandbox execution failed: " +:+ e |},
     {| container := false; trace := [EvCreate imageName; EvLogError e] |}).
Proof. intros Hc. unfold_sandbox. by rewrite Hc. Qed.

(** ** Runtime profiles *)

Import Engines.

(** C4 (as amended). The override on output text belongs to the legacy
    pipeline: in its [runTests], a Python check whose sandbox output
    contains "F401", "SyntaxError" or "E999" makes [passed] false whatever
    the sandbox reported. The Python engine used by the Healing Loop
    Controller has no override: [enginePython.run] returns the sandbox
    result as it is, so its [success] is true exactly when every daemon
    call resolved and the exit code is 0, whatever the output says. *)
Theorem C4_override_in_legacy_runTests_only
    (nodeDir : option string) (nodeCmd : string)
    (sandbox : string → string → SandboxResult)
    (d : Docker) (localPath : string) :
  includes "F401" (output (sandbox legacyPythonTestCmd pythonImage)) = true ∨
  includes "SyntaxError" (output (sandbox legacyPythonTestCmd pythonImage)) = true ∨
  includes "E999" (output (sandbox legacyPythonTestCmd pythonImage)) = true →
  (runTests true nodeDir nodeCmd sandbox).2 = false ∧
  enginePython_run d localPath
    = runTestsInSandbox d localPath pythonTestCmd pythonImage ∧
  ∃ r st,
    enginePython_run d localPath = (Ret r, st) ∧
    (success r = true ↔
       infraOk d localPath pythonTestCmd pythonImage ∧
       inspectExitCode d = Ret (Some 0%Z)).
Proof.
  intros Hmarker. split; [|split; [reflexivity|]].
  - unfold runTests.
    assert (pythonErrorsDetected (sandbox legacyPythonTestCmd pythonImage) = true)
      as ->.
    { unfold pythonErrorsDetected.
      destruct Hmarker as [-> | [-> | ->]];
        destruct (success _); simpl; rewrite ?orb_true_r; reflexivity. }
    destruct nodeDir as [dir|]; simpl; [|done].
    by destruct (success (sandbox nodeCmd "node:18-alpine")).
  - unfold enginePython_run.
    destruct (runTestsInSandbox_outcome d localPath pythonTestCmd pythonImage)
      as (r & st & Hrun & _ & Hiff & _).
    eauto.
Qed.

Lemma C4_override_in_legacy_runTests_only_witness :
  (runTests true None "npm install"
     (λ _ _, {| success := true; output := output_F401 |})).2 = false ∧
  enginePython_run docker_exit0_F401 "/tmp/repo"
    = runTestsInSandbox docker_exit0_F401 "/tmp/repo" pythonTestCmd pythonImage ∧
  ∃ r st,
    enginePython_run docker_exit0_F401 "/tmp/repo" = (Ret r, st) ∧
    (success r = true ↔
       infraOk docker_exit0_F401 "/tmp/repo" pythonTestCmd pythonImage ∧
       inspectExitCode docker_exit0_F401 = Ret (Some 0%Z)).
Proof.
  apply (C4_override_in_legacy_runTests_only None "npm install"
           (λ _ _, {| success := true; output := output_F401 |})
           docker_exit0_F401 "/tmp/repo").
  left. reflexivity.
Defined.

(** C4 as stated fails for the Python runtime profile of the controller's
    TESTING step: the sandbox output contains the unused-import code F401,
    the exit code is 0, and [enginePython.run] reports [success = true]. *)
Lemma C4_engine_reports_success_despite_F401 :
  includes "F401" output_F401 = true ∧
  inspectExitCode docker_exit0_F401 = Ret (Some 0%Z) ∧
  (enginePython_run docker_exit0_F401 "/tmp/repo").1
    = Ret {| success := true; output := output_F401 |}.
Proof. repeat split. Qed.

(** ** The Healing Loop Controller *)

Import Orchestrator.

Open Scope nat_scope.

(** Linear arithmetic with the value of the ceiling. *)
Ltac lia_iter := unfold MAX_ITER in *; lia.

Section LoopFacts.
Context (env : Env) (engine : Engine).

(** What one body of the loop does to the run: one sandbox run numbered
    [i], the counter shown to the frontend set to [i], no git call. A body
    that breaks has not run the solver, and sets [isSuccess] exactly when
    its sandbox run succeeded; a body that goes on to the next iteration
    has run the solver once, is not the last one allowed and has seen the
    tests fail; a body that throws has seen the tests fail and a diagnosis
    that cannot be scanned, and has not run the solver. *)
Lemma loopBody_effects i st fl st' :
  loopBody env engine i st = (fl, st') →
  sandboxRuns st' = sandboxRuns st ++ [(i, engineRun env engine i (tree st))] ∧
  r_iterations (results st') = i ∧
  gitOps st' = gitOps st ∧
  match fl with
  | Break =>
      solverRuns st' = solverRuns st ∧
      ((success (engineRun env engine i (tree st)) = true ∧ isSuccess st' = true) ∨
       (success (engineRun env engine i (tree st)) = false ∧
        isSuccess st' = isSuccess st))
  | Continue =>
      solverRuns st' = solverRuns st ++ [i] ∧ i ≠ MAX_ITER ∧
      success (engineRun env engine i (tree st)) = false ∧
      isSuccess st' = isSuccess st
  | Reject e =>
      solverRuns st' = solverRuns st ∧
      success (engineRun env engine i (tree st)) = false ∧
      isSuccess st' = isSuccess st ∧
      tree st' = tree st ∧
      (analyzeOutput env i (output (engineRun env engine i (tree st))) (tree st)
         = Throw e ∨
       writeLogAt env i = Throw e)
  end.
Proof.
  unfold loopBody. intros H.
  destruct (success (engineRun env engine i _)) eqn:Hs; simpl in Hs.
  - injection H as <- <-. simpl. auto 10.
  - simpl in H.
    destruct (analyzeOutput env i _ (tree st)) as [discovered|e] eqn:Ha.
    + case_decide.
      * injection H as <- <-. simpl. auto 10.
      * destruct (writeLogAt env i) as [[]|e] eqn:Hw.
        -- case_decide.
           ++ injection H as <- <-. repeat case_decide; simpl; auto 10.
           ++ injection H as <- <-. repeat case_decide; simpl; auto 10.
        -- injection H as <- <-. repeat case_decide; simpl; auto 10.
    + injection H as <- <-. simpl. auto 10.
Qed.

(** No body of the loop touches the status shown, the branch name, or
    the record of a rejection. *)
Lemma loopBody_keeps i st fl st' :
  loopBody env engine i st = (fl, st') →
  r_status (results st') = r_status (results st) ∧
  r_branchName (results st') = r_branchName (results st) ∧
  rejected st' = rejected st.
Proof.
  unfold loopBody. intros H.
  destruct (success (engineRun env engine i _)) eqn:Hs; simpl in Hs.
  - by injection H as <- <-.
  - simpl in H.
    destruct (analyzeOutput env i _ (tree st)) as [discovered|e] eqn:Ha.
    + case_decide.
      * by injection H as <- <-.
      * destruct (writeLogAt env i) as [[]|e].
        -- case_decide; injection H as <- <-; by repeat case_decide.
        -- injection H as <- <-; by repeat case_decide.
    + by injection H as <- <-.
Qed.

(** The last permitted body never asks for another iteration. *)
Lemma loopBody_last_breaks st st' :
  loopBody env engine MAX_ITER st ≠ (Continue, st').
Proof.
  intros H. apply loopBody_effects in H as (_ & _ & _ & _ & Hne & _). done.
Qed.

(** The loop from counter [i], with enough fuel for the bodies that remain
    under the ceiling: it ends after [n] bodies, numbered [i], [i+1], ...
    with no gap, the solver having run in all of them but the last. *)
Lemma forLoop_bounded fuel i st :
  1 ≤ i ≤ MAX_ITER → MAX_ITER + 1 - i ≤ fuel →
  ∃ st' n,
    forLoop env engine fuel i st = Some st' ∧
    1 ≤ n ∧ i + n ≤ MAX_ITER + 1 ∧
    (sandboxRuns st').*1 = (sandboxRuns st).*1 ++ seq i n ∧
    solverRuns st' = solverRuns st ++ seq i (n - 1) ∧
    r_iterations (results st') = i + n - 1 ∧
    gitOps st' = gitOps st ∧
    (isSuccess st = false →
     ∃ r, last (sandboxRuns st') = Some (i + n - 1, r) ∧
          isSuccess st' = success r).
Proof.
  revert i st. induction fuel as [|fuel IH]; intros i st Hi Hfuel; [lia_iter|].
  simpl. rewrite decide_True by lia_iter.
  destruct (loopBody env engine i st) as [[| |e] st1] eqn:Hbody.
  3: { apply loopBody_effects in Hbody as (Hruns & Hit & Hgit & Hsol & Hfail & Hsucc & _).
       exists (reject e st1), 1. simpl.
       split; [done|]. split; [lia_iter|]. split; [lia_iter|].
       split; [by rewrite Hruns, fmap_app|]. split; [by rewrite app_nil_r|].
       split; [lia_iter|]. split; [done|].
       intros Hfalse. eexists. rewrite Hruns, last_snoc.
       split; [f_equal; f_equal; lia_iter|]. by rewrite Hsucc, Hfail. }
  - apply loopBody_effects in Hbody as (Hruns & Hit & Hgit & Hsol & Hsucc).
    exists st1, 1. split; [done|]. split; [lia_iter|]. split; [lia_iter|].
    split; [by rewrite Hruns, fmap_app|]. split; [by rewrite app_nil_r|].
    split; [lia_iter|]. split; [done|].
    intros Hfalse. eexists. rewrite Hruns, last_snoc.
    split; [f_equal; f_equal; lia_iter|].
    destruct Hsucc as [[-> ->]|[-> ->]]; done.
  - pose proof Hbody as Hbody'.
    apply loopBody_effects in Hbody as (Hruns & Hit & Hgit & Hsol & Hne & Hfail & Hsucc).
    destruct (IH (S i) st1) as (st' & n & Hloop & Hn & Hle & Hr & Hs & Hiter & Hg & Hlast);
      [lia_iter|lia_iter|].
    exists st', (S n). split; [done|]. split; [lia_iter|]. split; [lia_iter|].
    split.
    { rewrite Hr, Hruns, fmap_app. simpl. by rewrite <- app_assoc. }
    split.
    { rewrite Hs, Hsol, <- app_assoc. simpl.
      destruct n as [|n]; [lia_iter|]. simpl. by rewrite Nat.sub_0_r. }
    split; [lia_iter|]. split; [congruence|].
    intros Hfalse. destruct Hlast as (r & Hl & Hsr); [congruence|].
    exists r. split; [|done]. rewrite Hl. f_equal. f_equal. lia_iter.
Qed.

(** Fuel beyond the ceiling is never used. *)
Lemma forLoop_fuel extra i st :
  1 ≤ i ≤ MAX_ITER →
  forLoop env engine (MAX_ITER + extra) i st = forLoop env engine MAX_ITER i st.
Proof.
  intros Hi.
  assert (∀ fuel1 fuel2 i st, 1 ≤ i ≤ MAX_ITER →
            MAX_ITER + 1 - i ≤ fuel1 → MAX_ITER + 1 - i ≤ fuel2 →
            forLoop env engine fuel1 i st = forLoop env engine fuel2 i st) as H.
  { clear. induction fuel1 as [|fuel1 IH]; intros fuel2 i st Hi H1 H2; [lia_iter|].
    destruct fuel2 as [|fuel2]; [lia_iter|]. simpl. rewrite !decide_True by lia_iter.
    destruct (loopBody env engine i st) as [[| |e] st1] eqn:Hbody; [done| |done].
    apply loopBody_effects in Hbody as (_ & _ & _ & _ & Hne & _).
    apply IH; lia_iter. }
  apply H; [done|lia_iter|lia_iter].
Qed.

(** How a run can be rejected: the loop leaves the status shown as it was;
    if it ends rejected, its last sandbox run failed and, in that
    iteration, the diagnosis could not be scanned or the ledger could not
    be written. *)
Lemma forLoop_rejection fuel i st st' :
  forLoop env engine fuel i st = Some st' →
  rejected st = None →
  r_status (results st') = r_status (results st) ∧
  r_branchName (results st') = r_branchName (results st) ∧
  ∀ e, rejected st' = Some e →
       ∃ j r, last (sandboxRuns st') = Some (j, r) ∧ success r = false ∧
              (analyzeOutput env j (output r) (tree st') = Throw e ∨
               writeLogAt env j = Throw e).
Proof.
  revert i st. induction fuel as [|fuel IH]; intros i st; simpl.
  - case_decide; [done|]. intros [= <-] Hrej. rewrite Hrej. by repeat split.
  - case_decide; [|intros [= <-] Hrej; rewrite Hrej; by repeat split].
    destruct (loopBody env engine i st) as [[| |e] st1] eqn:Hbody.
    + intros [= <-] Hrej.
      destruct (loopBody_keeps _ _ _ _ Hbody) as (Hs & Hb & Hr).
      rewrite Hr, Hrej. by repeat split.
    + intros Hloop Hrej.
      destruct (loopBody_keeps _ _ _ _ Hbody) as (Hs & Hb & Hr).
      destruct (IH _ _ Hloop) as (Hs' & Hb' & Hrej'); [congruence|].
      split; [congruence|]. split; [congruence|]. exact Hrej'.
    + intros [= <-] Hrej.
      destruct (loopBody_keeps _ _ _ _ Hbody) as (Hs & Hb & Hr).
      apply loopBody_effects in Hbody as (Hruns & _ & _ & _ & Hfail & _ & Htree & Ha).
      simpl. split; [done|]. split; [done|].
      intros e' [= <-]. eexists _, _. rewrite Hruns, last_snoc.
      split; [done|]. split; [done|]. by rewrite Htree.
Qed.

End LoopFacts.

Import OrchestratorSpec.

(** *** Phase 4 *)

(** [commitFixes] stages every fix once, in order; it commits with the
    message of the fix it staged; it changes nothing but the output log and
    the git history. When git never throws, every fix is committed. *)
Lemma commitFixes_spec env fixes k committed st :
  ∃ ops,
    gitOps (commitFixes env k fixes committed st).2 = gitOps st ++ ops ∧
    filter isGitAdd ops = (GitAdd ∘ file) <$> fixes ∧
    (∀ msg, GitCommit msg ∈ ops → ∃ fx, fx ∈ fixes ∧ msg = commitMessageOf fx) ∧
    (∀ remote branch, GitPush remote branch ∉ ops) ∧
    issuesLog (commitFixes env k fixes committed st).2 = issuesLog st ∧
    allFixes (commitFixes env k fixes committed st).2 = allFixes st ∧
    isSuccess (commitFixes env k fixes committed st).2 = isSuccess st ∧
    results (commitFixes env k fixes committed st).2 = results st ∧
    sandboxRuns (commitFixes env k fixes committed st).2 = sandboxRuns st ∧
    solverRuns (commitFixes env k fixes committed st).2 = solverRuns st ∧
    ((∀ k f, gitAdd env k f = Ret tt) → (∀ k m, gitCommit env k m = Ret tt) →
     ops = flat_map (λ fx, [GitAdd (file fx); GitCommit (commitMessageOf fx)]) fixes ∧
     (commitFixes env k fixes committed st).1
       = committed ++ ((λ fx, CommittedRow fx (commitMessageOf fx)) <$> fixes)).
Proof.
  revert k committed st. induction fixes as [|fx fixes IH]; intros k committed st.
  - exists []. simpl. rewrite !app_nil_r. repeat split; try done.
    + intros msg Hin. by apply elem_of_nil in Hin.
    + intros remote branch Hin. by apply elem_of_nil in Hin.
  - simpl.
    destruct (gitAdd env k (file fx)) as [[]|e] eqn:Hadd.
    + destruct (gitCommit env k (commitMessageOf fx)) as [[]|e] eqn:Hcommit.
      * match goal with |- context [commitFixes env (S k) fixes ?c ?s] =>
          destruct (IH (S k) c s)
            as (ops & Hops & Hadds & Hmsgs & Hpush & H1 & H2 & H3 & H4 & H5 & H6 & Hok)
        end.
        exists (GitAdd (file fx) :: GitCommit (commitMessageOf fx) :: ops).
        rewrite Hops, H1, H2, H3, H4, H5, H6. simpl. rewrite <- !app_assoc. simpl.
        split; [done|]. split.
        { rewrite filter_cons_True by done. rewrite filter_cons_False by (by intros ?).
          by rewrite Hadds. }
        split.
        { intros msg Hin. apply elem_of_cons in Hin as [Hin|Hin]; [done|].
          apply elem_of_cons in Hin as [Hin|Hin].
          - injection Hin as ->. exists fx. split; [apply list_elem_of_here|done].
          - destruct (Hmsgs msg Hin) as (fx' & Hfx' & ->).
            exists fx'. split; [by apply list_elem_of_further|done]. }
        split.
        { intros remote branch Hin. apply elem_of_cons in Hin as [Hin|Hin]; [done|].
          apply elem_of_cons in Hin as [Hin|Hin]; [done|]. by eapply Hpush. }
        repeat (split; [done|]).
        intros Ha Hc. destruct (Hok Ha Hc) as [-> ->].
        split; [done|]. by rewrite <- app_assoc.
      * match goal with |- context [commitFixes env (S k) fixes ?c ?s] =>
          destruct (IH (S k) c s)
            as (ops & Hops & Hadds & Hmsgs & Hpush & H1 & H2 & H3 & H4 & H5 & H6 & Hok)
        end.
        exists (GitAdd (file fx) :: GitCommit (commitMessageOf fx) :: ops).
        rewrite Hops, H1, H2, H3, H4, H5, H6.
        split. { destruct (includes _ e); simpl; by rewrite <- !app_assoc. }
        split.
        { rewrite filter_cons_True by done. rewrite filter_cons_False by (by intros ?).
          simpl. by rewrite Hadds. }
        split.
        { intros msg Hin. apply elem_of_cons in Hin as [Hin|Hin]; [done|].
          apply elem_of_cons in Hin as [Hin|Hin].
          - injection Hin as ->. exists fx. split; [apply list_elem_of_here|done].
          - destruct (Hmsgs msg Hin) as (fx' & Hfx' & ->).
            exists fx'. split; [by apply list_elem_of_further|done]. }
        split.
        { intros remote branch Hin. apply elem_of_cons in Hin as [Hin|Hin]; [done|].
          apply elem_of_cons in Hin as [Hin|Hin]; [done|]. by eapply Hpush. }
        repeat (split; [by destruct (includes _ e)|]).
        intros Ha Hc. rewrite Hc in Hcommit. discriminate.
    + match goal with |- context [commitFixes env (S k) fixes ?c ?s] =>
        destruct (IH (S k) c s)
          as (ops & Hops & Hadds & Hmsgs & Hpush & H1 & H2 & H3 & H4 & H5 & H6 & Hok)
      end.
      exists (GitAdd (file fx) :: ops).
      rewrite Hops, H1, H2, H3, H4, H5, H6.
      split. { destruct (includes _ e); simpl; by rewrite <- !app_assoc. }
      split. { rewrite filter_cons_True by done. simpl. by rewrite Hadds. }
      split.
      { intros msg Hin. apply elem_of_cons in Hin as [Hin|Hin]; [done|].
        destruct (Hmsgs msg Hin) as (fx' & Hfx' & ->).
        exists fx'. split; [by apply list_elem_of_further|done]. }
      split.
      { intros remote branch Hin. apply elem_of_cons in Hin as [Hin|Hin]; [done|].
        by eapply Hpush. }
      repeat (split; [by destruct (includes _ e)|]).
      intros Ha Hc. rewrite Ha in Hadd. discriminate.
Qed.

(** Phase 4 leaves the ledger, the fixes, the verdict of the loop and the
    record of sandbox and solver runs as they were. *)
Lemma phase4_frame env branchName st :
  issuesLog (phase4 env branchName st) = issuesLog st ∧
  allFixes (phase4 env branchName st) = allFixes st ∧
  isSuccess (phase4 env branchName st) = isSuccess st ∧
  sandboxRuns (phase4 env branchName st) = sandboxRuns st ∧
  solverRuns (phase4 env branchName st) = solverRuns st ∧
  r_iterations (results (phase4 env branchName st)) = r_iterations (results st).
Proof.
  unfold phase4. case_decide; [|done].
  match goal with |- context [commitFixes env 0 ?f [] ?s] =>
    destruct (commitFixes_spec env f 0 [] s)
      as (ops & _ & _ & _ & _ & H1 & H2 & H3 & H4 & H5 & H6 & _);
    destruct (commitFixes env 0 f [] s) as [committed st1] eqn:Hcf
  end.
  simpl in H1, H2, H3, H4, H5, H6.
  destruct (gitPush env branchName); simpl; rewrite H1, H2, H3, H4, H5, H6; done.
Qed.

(** Phase 4 when a fix was applied or the tests passed. *)
Lemma phase4_commits env branchName st :
  fixesOrSuccess st →
  ∃ ops,
    gitOps (phase4 env branchName st)
      = gitOps st ++ ops ++ [GitPush "origin" branchName] ∧
    filter isGitAdd ops
      = (GitAdd ∘ file) <$> filter (λ iss, status iss = FIXED) (issuesLog st) ∧
    (∀ msg, GitCommit msg ∈ ops →
       ∃ fx, fx ∈ filter (λ iss, status iss = FIXED) (issuesLog st) ∧
             msg = commitMessageOf fx) ∧
    (∀ remote branch, GitPush remote branch ∉ ops) ∧
    ((∀ k f, gitAdd env k f = Ret tt) → (∀ k m, gitCommit env k m = Ret tt) →
     ops = flat_map (λ fx, [GitAdd (file fx); GitCommit (commitMessageOf fx)])
             (filter (λ iss, status iss = FIXED) (issuesLog st)) ∧
     r_fixes (results (phase4 env branchName st))
       = (λ fx, CommittedRow fx (commitMessageOf fx))
           <$> filter (λ iss, status iss = FIXED) (issuesLog st)) ∧
    r_status (results (phase4 env branchName st))
      = (if isSuccess st then PASSED else FAILED) ∧
    (∀ e, gitPush env branchName = Throw e →
          "⚠ Push failed: " +:+ e ∈ outputLog (phase4 env branchName st)).
Proof.
  intros Hguard. unfold phase4. rewrite decide_True by exact Hguard.
  match goal with |- context [commitFixes env 0 ?f [] ?s] =>
    destruct (commitFixes_spec env f 0 [] s)
      as (ops & Hops & Hadds & Hmsgs & Hpush & H1 & H2 & H3 & H4 & H5 & H6 & Hok);
    destruct (commitFixes env 0 f [] s) as [committed st1] eqn:Hcf
  end.
  simpl in *. exists ops.
  split. { destruct (gitPush env branchName); simpl; by rewrite Hops, <- app_assoc. }
  split; [done|]. split; [done|]. split; [done|].
  split. { intros Ha Hc. destruct (Hok Ha Hc) as [-> ->].
           split; [done|]. by destruct (gitPush env branchName). }
  split. { destruct (gitPush env branchName); simpl; by rewrite H3. }
  intros e ->. simpl. apply elem_of_app. right. apply list_elem_of_here.
Qed.

(** Phase 4 when no fix was applied and the tests did not pass: nothing is
    staged, committed or pushed. *)
Lemma phase4_skips env branchName st :
  ¬ fixesOrSuccess st →
  gitOps (phase4 env branchName st) = gitOps st ∧
  r_status (results (phase4 env branchName st)) = FAILED.
Proof.
  intros Hguard. unfold phase4. by rewrite decide_False by exact Hguard.
Qed.

(** Committing and phase 4 leave the record of a rejection as it was. *)
Lemma commitFixes_rejected env fixes k committed st :
  rejected (commitFixes env k fixes committed st).2 = rejected st.
Proof.
  revert k committed st. induction fixes as [|fx fixes IH]; intros k committed st.
  - done.
  - simpl. destruct (gitAdd env k (file fx)) as [[]|e].
    + destruct (gitCommit env k (commitMessageOf fx)) as [[]|e]; rewrite IH.
      * done.
      * by destruct (includes _ e).
    + rewrite IH. by destruct (includes _ e).
Qed.

Lemma phase4_rejected env branchName st :
  rejected (phase4 env branchName st) = rejected st.
Proof.
  unfold phase4. case_decide; [|done].
  match goal with |- context [commitFixes env 0 ?f [] ?s] =>
    pose proof (commitFixes_rejected env f 0 [] s) as Hr;
    destruct (commitFixes env 0 f [] s) as [committed st1] eqn:Hcf
  end.
  simpl in *. by destruct (gitPush env branchName).
Qed.

(** The rows that [commitFixes] returns: one for each fix whose [git add]
    and [git commit] both returned, in the order of the fixes. *)
Lemma commitFixes_rows env fixes k committed st :
  ∃ rows,
    (commitFixes env k fixes committed st).1 = committed ++ rows ∧
    rows `sublist_of` (committedRowOf <$> fixes) ∧
    (∀ row, row ∈ rows ↔
       ∃ j fx, fixes !! j = Some fx ∧ row = committedRowOf fx ∧
               gitAdd env (k + j) (file fx) = Ret tt ∧
               gitCommit env (k + j) (commitMessageOf fx) = Ret tt).
Proof.
  revert k committed st. induction fixes as [|fx fixes IH]; intros k committed st.
  - exists []. simpl. rewrite app_nil_r. split; [done|]. split; [done|].
    intros row. split; [by intros ?%elem_of_nil|]. by intros (j & fx & ? & _).
  - simpl.
    assert (∀ rows : list FixRow,
      (gitAdd env k (file fx) ≠ Ret tt ∨ gitCommit env k (commitMessageOf fx) ≠ Ret tt) →
      (∀ row, row ∈ rows ↔
         ∃ j fx', fixes !! j = Some fx' ∧ row = committedRowOf fx' ∧
                  gitAdd env (S k + j) (file fx') = Ret tt ∧
                  gitCommit env (S k + j) (commitMessageOf fx') = Ret tt) →
      ∀ row, row ∈ rows ↔
         ∃ j fx', (fx :: fixes) !! j = Some fx' ∧ row = committedRowOf fx' ∧
                  gitAdd env (k + j) (file fx') = Ret tt ∧
                  gitCommit env (k + j) (commitMessageOf fx') = Ret tt) as Hskip.
    { intros rows Hbad Hrows row. rewrite Hrows. split.
      - intros (j & fx' & Hj & -> & Ha & Hc). exists (S j), fx'.
        replace (k + S j) with (S k + j) by lia. done.
      - intros ([|j] & fx' & Hj & -> & Ha & Hc).
        + simpl in Hj. injection Hj as <-. rewrite Nat.add_0_r in Ha, Hc.
          destruct Hbad; done.
        + exists j, fx'. replace (S k + j) with (k + S j) by lia. done. }
    destruct (gitAdd env k (file fx)) as [[]|e] eqn:Hadd.
    + destruct (gitCommit env k (commitMessageOf fx)) as [[]|e] eqn:Hcommit.
      * match goal with |- context [commitFixes env (S k) fixes ?c ?s] =>
          destruct (IH (S k) c s) as (rows & -> & Hsub & Hrows)
        end.
        exists (committedRowOf fx :: rows). rewrite <- app_assoc. simpl.
        split; [done|]. split; [by apply sublist_skip|].
        intros row. rewrite elem_of_cons, Hrows. split.
        -- intros [->|(j & fx' & Hj & -> & Ha & Hc)].
           ++ exists 0, fx. by rewrite Nat.add_0_r.
           ++ exists (S j), fx'. replace (k + S j) with (S k + j) by lia. done.
        -- intros ([|j] & fx' & Hj & -> & Ha & Hc).
           ++ simpl in Hj. injection Hj as <-. by left.
           ++ right. exists j, fx'. replace (S k + j) with (k + S j) by lia. done.
      * match goal with |- context [commitFixes env (S k) fixes ?c ?s] =>
          destruct (IH (S k) c s) as (rows & -> & Hsub & Hrows)
        end.
        exists rows. split; [done|]. split; [by apply sublist_cons|].
        apply Hskip; [by right|done].
    + match goal with |- context [commitFixes env (S k) fixes ?c ?s] =>
        destruct (IH (S k) c s) as (rows & -> & Hsub & Hrows)
      end.
      exists rows. split; [done|]. split; [by apply sublist_cons|].
      apply Hskip; [by left|done].
Qed.

(** The git calls of [commitFixes], fix by fix. *)
Lemma commitFixes_calls env fixes k committed st :
  gitOps (commitFixes env k fixes committed st).2
  = gitOps st ++ concat (imap (λ j, gitCallsFor env (k + j)) fixes).
Proof.
  revert k committed st. induction fixes as [|fx fixes IH]; intros k committed st.
  - simpl. by rewrite app_nil_r.
  - rewrite imap_cons.
    rewrite (imap_ext _ (λ j, gitCallsFor env (S k + j)))
      by (intros j x _; simpl; f_equal; lia).
    rewrite Nat.add_0_r. cbn [concat commitFixes]. unfold gitCallsFor at 1.
    destruct (gitAdd env k (file fx)) as [[]|e].
    + destruct (gitCommit env k (commitMessageOf fx)) as [[]|e]; rewrite IH.
      * simpl. by rewrite <- !app_assoc.
      * destruct (includes _ e); simpl; by rewrite <- !app_assoc.
    + rewrite IH. destruct (includes _ e); simpl; by rewrite <- !app_assoc.
Qed.

(** The fixes written by phase 4 are what [commitFixes] returns. *)
Lemma phase4_fixes env branchName st :
  fixesOrSuccess st →
  ∃ s, r_fixes (results (phase4 env branchName st))
       = (commitFixes env 0 (filter (λ iss, status iss = FIXED) (issuesLog st)) [] s).1.
Proof.
  intros Hguard. unfold phase4. rewrite decide_True by exact Hguard.
  match goal with |- context [commitFixes env 0 ?f [] ?s] =>
    exists s; destruct (commitFixes env 0 f [] s) as [committed st1] eqn:Hcf
  end.
  simpl in *. rewrite Hcf. by destruct (gitPush env branchName).
Qed.

(** The git calls of phase 4 when a fix was applied or the tests passed:
    those of [commitFixes] over the FIXED issues, then the push. *)
Lemma phase4_calls env branchName st :
  fixesOrSuccess st →
  gitOps (phase4 env branchName st)
  = gitOps st
    ++ concat (imap (gitCallsFor env)
                 (filter (λ iss, status iss = FIXED) (issuesLog st)))
    ++ [GitPush "origin" branchName].
Proof.
  intros Hguard. unfold phase4. rewrite decide_True by exact Hguard.
  match goal with |- context [commitFixes env 0 ?f [] ?s] =>
    pose proof (commitFixes_calls env f 0 [] s) as Hc;
    destruct (commitFixes env 0 f [] s) as [committed st1] eqn:Hcf
  end.
  simpl in *. destruct (gitPush env branchName); simpl; by rewrite Hc, <- app_assoc.
Qed.

(** *** Termination within the ceiling *)

(** C3. Whatever the sandbox, the Diagnostic Oracle, the Repair Oracle and
    git answer, [startOrchestrator] ends, and fuel beyond the ceiling of 6
    loop bodies is never needed. It runs [n] ≤ 6 test-diagnose-repair
    iterations; they carry the counter values 1, 2, ..., [n] with no gap
    and no repeat, the solver has run in iterations 1 to [n - 1], and the
    iteration count reported to the frontend is [n]. *)
Theorem C3_run_ends_within_six_iterations (env : Env) (extra : nat) :
  ∃ final n,
    startOrchestrator env (MAX_ITER + extra) = Some final ∧
    MAX_ITER = 6 ∧
    n ≤ MAX_ITER ∧
    (sandboxRuns final).*1 = seq 1 n ∧
    solverRuns final = seq 1 (n - 1) ∧
    r_iterations (results final) = n.
Proof.
  unfold startOrchestrator.
  destruct (runAuditor env) as [[localPath branchName]|e].
  - destruct (detectEngine env) as [engine|].
    + unfold healAndCommit. rewrite forLoop_fuel by lia_iter.
      match goal with |- context [forLoop env engine MAX_ITER 1 ?s] =>
        destruct (forLoop_bounded env engine MAX_ITER 1 s)
          as (st' & n & -> & Hn & Hle & Hruns & Hsol & Hit & _); [lia_iter|lia_iter|]
      end.
      destruct (phase4_frame env branchName st') as (_ & _ & _ & Hr & Hs & Hi).
      destruct (rejected st').
      * eexists; exists n. split; [done|]. split; [done|]. split; [lia_iter|].
        rewrite Hruns, Hsol, Hit. simpl. repeat split. lia.
      * eexists; exists n. split; [done|]. split; [done|]. split; [lia_iter|].
        rewrite Hr, Hs, Hi, Hruns, Hsol, Hit. simpl. repeat split. lia.
    + eexists; exists 0. split; [reflexivity|]. split; [done|]. split; [lia_iter|]. done.
  - eexists; exists 0. split; [reflexivity|]. split; [done|]. split; [lia_iter|]. done.
Qed.

(** *** FIXED entries and applied fixes *)

Lemma solveIssue_fixed w lp sn k st iss x :
  x ∈ Solver.log (solveIssue w lp sn k st iss) → status x = FIXED →
  (∃ y, y ∈ Solver.log st ∧ status y = FIXED) ∨
  length (fixesApplied st) < length (fixesApplied (solveIssue w lp sn k st iss)).
Proof.
  unfold solveIssue, markStatus.
  destruct (disk st !! path_join lp (file iss)) as [c|].
  - destruct (invoke w k iss sn c) as [content|m].
    + destruct (writeFile w k (path_join lp (file iss)) _) as [[]|m].
      * intros _ _. right. simpl. rewrite length_app. simpl. lia.
      * simpl. intros Hx Hs.
        apply updateIssueStatus_elem in Hx as [Hx|(y & _ & ->)]; [eauto|done].
    + simpl. intros Hx Hs.
      apply updateIssueStatus_elem in Hx as [Hx|(y & _ & ->)]; [eauto|done].
  - destruct (isDirectory w _); simpl; intros Hx Hs.
    all: apply updateIssueStatus_elem in Hx as [Hx|(y & _ & ->)]; [eauto|done].
Qed.

Lemma solveIssue_fixes_mono w lp sn k st iss :
  length (fixesApplied st) ≤ length (fixesApplied (solveIssue w lp sn k st iss)).
Proof.
  unfold solveIssue, markStatus.
  destruct (disk st !! path_join lp (file iss)) as [c|];
    [|by destruct (isDirectory w _)].
  destruct (invoke w k iss sn c) as [content|m]; [|done].
  destruct (writeFile w k (path_join lp (file iss)) _) as [[]|m]; [|done].
  simpl. rewrite length_app. lia.
Qed.

Lemma solveFrom_fixes_mono w lp sn k st l :
  length (fixesApplied st) ≤ length (fixesApplied (solveFrom w lp sn k st l)).
Proof.
  revert k st. induction l as [|iss l IH]; intros k st; simpl; [done|].
  etrans; [apply (solveIssue_fixes_mono w lp sn k st iss)|apply IH].
Qed.

Lemma solveFrom_fixed w lp sn k st l x :
  x ∈ Solver.log (solveFrom w lp sn k st l) → status x = FIXED →
  (∃ y, y ∈ Solver.log st ∧ status y = FIXED) ∨
  length (fixesApplied st) < length (fixesApplied (solveFrom w lp sn k st l)).
Proof.
  revert k st. induction l as [|iss l IH]; intros k st Hx Hs; simpl in *; [eauto|].
  destruct (IH _ _ Hx Hs) as [(y & Hy & Hys)|Hlt].
  - destruct (solveIssue_fixed w lp sn k st iss y Hy Hys) as [?|Hlt]; [by left|].
    right. eapply Nat.lt_le_trans; [exact Hlt|apply solveFrom_fixes_mono].
  - right. eapply Nat.le_lt_trans; [apply (solveIssue_fixes_mono w lp sn k st iss)|exact Hlt].
Qed.

(** A merge creates no FIXED entry. *)
Lemma merge_fixed currentIssues discovered i x :
  x ∈ issues (merge currentIssues discovered i) → status x = FIXED →
  x ∈ currentIssues.
Proof.
  intros Hx Hs.
  apply merge_elem in Hx as [(o & Ho & [->| ->])|(d & _ & ->)]; done.
Qed.

Lemma loopBody_fixedImpliesFixes env engine i st fl st' :
  loopBody env engine i st = (fl, st') →
  fixedImpliesFixes st → fixedImpliesFixes st'.
Proof.
  unfold loopBody, fixedImpliesFixes. intros H Hinv.
  destruct (success (engineRun env engine i _)) eqn:Hs; simpl in Hs.
  - injection H as <- <-. simpl. done.
  - simpl in H.
    destruct (analyzeOutput env i _ (tree st)) as [discovered|e];
      [|by injection H as <- <-].
    case_decide.
    + injection H as <- <-. simpl. done.
    + destruct (writeLogAt env i) as [[]|e];
        [|injection H as <- <-; by repeat case_decide].
      case_decide.
      * injection H as <- <-. repeat case_decide; simpl.
        all: intros (x & Hx & Hxs); apply Hinv; exists x; split; [|done].
        all: by apply (merge_fixed _ _ i) in Hx.
      * injection H as <- <-. repeat case_decide; simpl.
        all: intros (x & Hx & Hxs).
        all: unfold runSolver in *.
        all: apply solveFrom_fixed in Hx as [(y & Hy & Hys)|Hlt]; [| |done]; simpl in *.
        all: intros Happ; apply app_eq_nil in Happ as [Ha Hb].
        all: first [ rewrite Hb in Hlt; simpl in Hlt; lia
                   | apply Hinv; [|exact Ha]; exists y; split; [|done];
                     by apply (merge_fixed _ _ i) in Hy ].
Qed.

Lemma forLoop_fixedImpliesFixes env engine fuel i st st' :
  forLoop env engine fuel i st = Some st' →
  fixedImpliesFixes st → fixedImpliesFixes st'.
Proof.
  revert i st. induction fuel as [|fuel IH]; intros i st; simpl.
  - case_decide; [done|]. by intros [= <-].
  - case_decide; [|by intros [= <-]].
    destruct (loopBody env engine i st) as [[| |e] st1] eqn:Hbody.
    + intros [= <-]. by eapply loopBody_fixedImpliesFixes.
    + intros Hloop Hinv. eapply IH; [exact Hloop|].
      by eapply loopBody_fixedImpliesFixes.
    + intros [= <-] Hinv.
      by apply (loopBody_fixedImpliesFixes _ _ _ _ _ _ Hbody) in Hinv.
Qed.

(** *** The end of the run *)

Lemma initial_fixedImpliesFixes (st : RunState) :
  issuesLog st = [] → fixedImpliesFixes st.
Proof. intros H (x & Hx & _). rewrite H in Hx. by apply elem_of_nil in Hx. Qed.

(** C9 (as amended). For every run that reaches the healing loop and
    comes to its end without an exception: the terminal status is PASSED if
    the last sandbox run succeeded and FAILED otherwise, whatever git
    answers. If at least one fix was applied or the tests passed, the git
    calls of the run are, for each FIXED issue of the ledger in ledger
    order, one [git add] of its file followed, if that returned, by one
    [git commit] with the message built from the issue's type, file and
    the first 60 characters of its description, and then one push of the
    branch; the fixes reported are exactly the FIXED issues whose
    [git add] and [git commit] both returned, in ledger order; and a
    failed push is logged. If no fix was applied and the tests did not
    pass, nothing is staged, committed or pushed, and the ledger has no
    FIXED issue. *)
Theorem C9_done_commits_fixed_issues_and_pushes_if_fixed_or_passed
    (env : Env) (localPath branchName : string) (engine : Engine) :
  runAuditor env = Ret (localPath, branchName) →
  detectEngine env = Some engine →
  ∃ final,
    startOrchestrator env MAX_ITER = Some final ∧
    (rejected final = None →
     (∃ i r, last (sandboxRuns final) = Some (i, r) ∧
             r_status (results final) = if success r then PASSED else FAILED) ∧
     (fixesOrSuccess final →
      let fixed := filter (λ iss, status iss = FIXED) (issuesLog final) in
      gitOps final
        = concat (imap (gitCallsFor env) fixed) ++ [GitPush "origin" branchName] ∧
      r_fixes (results final) `sublist_of` (committedRowOf <$> fixed) ∧
      (∀ row, row ∈ r_fixes (results final) ↔
         ∃ j fx, fixed !! j = Some fx ∧ row = committedRowOf fx ∧
                 gitAdd env j (file fx) = Ret tt ∧
                 gitCommit env j (commitMessageOf fx) = Ret tt) ∧
      (∀ e, gitPush env branchName = Throw e →
            "⚠ Push failed: " +:+ e ∈ outputLog final))) ∧
    (¬ fixesOrSuccess final →
     gitOps final = [] ∧
     filter (λ iss, status iss = FIXED) (issuesLog final) = []).
Proof.
  intros Haud Heng. unfold startOrchestrator. rewrite Haud, Heng.
  unfold healAndCommit.
  match goal with |- context [forLoop env engine MAX_ITER 1 ?s] =>
    set (st0 := s);
    destruct (forLoop_bounded env engine MAX_ITER 1 st0)
      as (st' & n & Hloop & Hn & Hle & _ & _ & _ & Hgit & Hlast);
      [lia_iter|lia_iter|]
  end.
  rewrite Hloop. destruct Hlast as (r & Hl & Hsr); [done|].
  pose proof (forLoop_fixedImpliesFixes env engine MAX_ITER 1 st0 st' Hloop
                (initial_fixedImpliesFixes st0 eq_refl)) as Hinv.
  assert (¬ fixesOrSuccess st' →
          filter (λ iss, status iss = FIXED) (issuesLog st') = []) as Hnofix.
  { intros Hg. apply filter_none. intros x Hx Hxs. apply Hg. left.
    assert (allFixes st' ≠ []) as Hne by (apply Hinv; eauto).
    destruct (allFixes st'); [done|simpl; lia]. }
  destruct (rejected st') as [e|] eqn:Hrej.
  { exists st'. split; [reflexivity|]. split; [by rewrite Hrej|].
    intros Hg. split; [by rewrite Hgit|by apply Hnofix]. }
  destruct (phase4_frame env branchName st') as (Hlog & Hfix & Hsucc & Hruns & _ & _).
  assert (fixesOrSuccess (phase4 env branchName st') ↔ fixesOrSuccess st') as Hguard.
  { unfold fixesOrSuccess. by rewrite Hfix, Hsucc. }
  eexists. split; [reflexivity|]. split; [intros _; split|].
  - exists (1 + n - 1), r. rewrite Hruns. split; [done|].
    destruct (decide (fixesOrSuccess st')) as [Hg|Hg].
    + destruct (phase4_commits env branchName st' Hg)
        as (ops & _ & _ & _ & _ & _ & -> & _). by rewrite Hsr.
    + destruct (phase4_skips env branchName st' Hg) as [_ ->].
      destruct (success r) eqn:Hr; [|done].
      exfalso. apply Hg. right. by rewrite Hsr.
  - intros Hg. apply Hguard in Hg. cbv zeta. rewrite Hlog.
    split. { rewrite (phase4_calls env branchName st' Hg), Hgit. done. }
    destruct (phase4_fixes env branchName st' Hg) as [s ->].
    destruct (commitFixes_rows env
                (filter (λ iss, status iss = FIXED) (issuesLog st')) 0 [] s)
      as (rows & -> & Hsub & Hiff).
    simpl. split; [done|]. split; [exact Hiff|].
    destruct (phase4_commits env branchName st' Hg)
      as (ops & _ & _ & _ & _ & _ & _ & Hfail).
    exact Hfail.
  - intros Hg. rewrite Hguard in Hg.
    destruct (phase4_skips env branchName st' Hg) as [-> _].
    rewrite Hlog, Hgit. split; [done|]. by apply Hnofix.
Qed.

Lemma C9_done_commits_fixed_issues_and_pushes_if_fixed_or_passed_witness :
  ∃ final,
    startOrchestrator env_healed_push_rejected MAX_ITER = Some final ∧
    (rejected final = None →
     (∃ i r, last (sandboxRuns final) = Some (i, r) ∧
             r_status (results final) = if success r then PASSED else FAILED) ∧
     (fixesOrSuccess final →
      let fixed := filter (λ iss, status iss = FIXED) (issuesLog final) in
      gitOps final
        = concat (imap (gitCallsFor env_healed_push_rejected) fixed)
          ++ [GitPush "origin" "TEAM_LEAD_AI_Fix_1"] ∧
      r_fixes (results final) `sublist_of` (committedRowOf <$> fixed) ∧
      (∀ row, row ∈ r_fixes (results final) ↔
         ∃ j fx, fixed !! j = Some fx ∧ row = committedRowOf fx ∧
                 gitAdd env_healed_push_rejected j (file fx) = Ret tt ∧
                 gitCommit env_healed_push_rejected j (commitMessageOf fx) = Ret tt) ∧
      (∀ e, gitPush env_healed_push_rejected "TEAM_LEAD_AI_Fix_1" = Throw e →
            "⚠ Push failed: " +:+ e ∈ outputLog final))) ∧
    (¬ fixesOrSuccess final →
     gitOps final = [] ∧
     filter (λ iss, status iss = FIXED) (issuesLog final) = []).
Proof.
  apply (C9_done_commits_fixed_issues_and_pushes_if_fixed_or_passed
           env_healed_push_rejected "/tmp/repo" "TEAM_LEAD_AI_Fix_1" enginePython).
  - reflexivity.
  - reflexivity.
Defined.

(** The run of the witness, evaluated: healed on iteration 2, the one FIXED
    issue committed, the push attempted and its failure logged, the status
    PASSED all the same. *)
Example healed_run_with_rejected_push :
  ∃ final,
    startOrchestrator env_healed_push_rejected MAX_ITER = Some final ∧
    (sandboxRuns final).*1 = [1; 2] ∧
    status <$> issuesLog final = [FIXED] ∧
    gitOps final =
      [ GitAdd "src/b.py";
        GitCommit "[AI-AGENT] Fix IMPORT in src/b.py: unused import os";
        GitPush "origin" "TEAM_LEAD_AI_Fix_1" ] ∧
    last (outputLog final) = Some "⚠ Push failed: remote rejected" ∧
    rejected final = None ∧
    r_status (results final) = PASSED.
Proof. eexists. split; [vm_compute; reflexivity|]. by vm_compute. Qed.

(** C9 as stated fails: the tests fail, the Diagnostic Oracle reports
    nothing, the loop is abandoned on iteration 1, and the run ends FAILED
    without any git call: the branch is not pushed. *)
Lemma C9_failed_run_without_fixes_is_not_pushed :
  ∃ final,
    startOrchestrator env_unlocalizable MAX_ITER = Some final ∧
    (sandboxRuns final).*1 = [1] ∧
    rejected final = None ∧
    r_status (results final) = FAILED ∧
    gitOps final = [].
Proof. eexists. split; [vm_compute; reflexivity|]. by vm_compute. Qed.

(** Oracles that never converge: the run makes six sandbox runs and five
    solver batches, then ends FAILED. *)
Example never_converging_run_stops_at_six :
  ∃ final,
    startOrchestrator env_never_converges MAX_ITER = Some final ∧
    (sandboxRuns final).*1 = [1; 2; 3; 4; 5; 6] ∧
    solverRuns final = [1; 2; 3; 4; 5] ∧
    r_iterations (results final) = 6 ∧
    last (outputLog final) = Some "Max iterations (6) reached." ∧
    r_status (results final) = FAILED.
Proof. eexists. split; [vm_compute; reflexivity|]. by vm_compute. Qed.

(** *** The merge inside the loop *)

(** A scan that reopens nothing leaves the ledger as it was. *)
Lemma scan_nothing_reopened currentIssues discovered :
  reOpenedIssues (scanDiscovered currentIssues discovered) = [] →
  issues (scanDiscovered currentIssues discovered) = currentIssues.
Proof.
  intros Hnone.
  destruct (scanDiscovered_evolved currentIssues discovered) as (Hlen & Hev & _).
  apply list_eq. intros j.
  destruct (currentIssues !! j) as [o|] eqn:Ho.
  - destruct (Hev j o Ho) as [Hc|(_ & _ & Hin)]; [done|].
    rewrite Hnone in Hin. by apply elem_of_nil in Hin.
  - apply lookup_ge_None. rewrite Hlen. by apply lookup_ge_None.
Qed.

(** When the scan finds nothing new and reopens nothing, the loop breaks
    before [writeLog]; the file then already holds what the merge yields. *)
Lemma merge_nothing_found currentIssues discovered i :
  length (newIssues (scanDiscovered currentIssues discovered)) = 0 →
  length (reOpenedIssues (scanDiscovered currentIssues discovered)) = 0 →
  issues (merge currentIssues discovered i) = currentIssues.
Proof.
  intros Hn Hr. apply nil_length_inv in Hn. apply nil_length_inv in Hr.
  unfold merge; simpl. rewrite appendNew_spec, Hn. simpl.
  rewrite app_nil_r. by apply scan_nothing_reopened.
Qed.

(** In every body whose tests fail and that breaks, [issues_log.json] ends
    as the merge of the discovered issues into the ledger read at step C. *)
Lemma loopBody_break_ledger env engine i st st' :
  loopBody env engine i st = (Break, st') →
  success (engineRun env engine i (tree st)) = false →
  ∃ discovered,
    analyzeOutput env i (output (engineRun env engine i (tree st))) (tree st)
      = Ret discovered ∧
    issuesLog st' = issues (merge (issuesLog st) discovered i).
Proof.
  unfold loopBody. intros H Hs. simpl in H. rewrite Hs in H.
  destruct (analyzeOutput env i _ (tree st)) as [discovered|e]; [|discriminate H].
  exists discovered. split; [done|].
  case_decide as Hnone.
  - injection H as <-. destruct Hnone as [Hn Hr].
    by rewrite merge_nothing_found.
  - destruct (writeLogAt env i) as [[]|e']; [|discriminate H].
    case_decide; [|discriminate H].
    injection H as <-. by repeat case_decide.
Qed.

(** In every body that goes on, the solver starts from that merge and is
    given its OPEN issues, in ledger order. *)
Lemma loopBody_continue_ledger env engine i st st' :
  loopBody env engine i st = (Continue, st') →
  ∃ discovered,
    analyzeOutput env i (output (engineRun env engine i (tree st))) (tree st)
      = Ret discovered ∧
    let merged := issues (merge (issuesLog st) discovered i) in
    issuesLog st'
    = Solver.log (runSolver (solverWorld env i) (localPathOf env) (tree st)
                    (filter (λ iss, status iss = OPEN) merged) merged
                    (output (engineRun env engine i (tree st)))).
Proof.
  unfold loopBody. intros H.
  destruct (success (engineRun env engine i _)) eqn:Hs; simpl in *; [discriminate H|].
  destruct (analyzeOutput env i _ (tree st)) as [discovered|e]; [|discriminate H].
  exists discovered. split; [done|].
  case_decide; [discriminate H|].
  destruct (writeLogAt env i) as [[]|e']; [|discriminate H].
  case_decide; [discriminate H|].
  injection H as <-. by repeat case_decide.
Qed.

(** A body that throws leaves [issues_log.json] as it was. *)
Lemma loopBody_reject_ledger env engine i st e st' :
  loopBody env engine i st = (Reject e, st') →
  issuesLog st' = issuesLog st.
Proof.
  unfold loopBody. intros H.
  destruct (success (engineRun env engine i _)) eqn:Hs; simpl in *; [discriminate H|].
  destruct (analyzeOutput env i _ (tree st)) as [discovered|e']; [|by injection H as _ <-].
  case_decide; [discriminate H|].
  destruct (writeLogAt env i) as [[]|e'].
  - case_decide; discriminate H.
  - injection H as _ <-. by repeat case_decide.
Qed.

(** * Further properties of the code *)

(** ** The merge (orchestrator.js, steps C to E) *)

(** X1. When the keys of the ledger are pairwise distinct and the batch of
    discovered issues has pairwise distinct keys, the ledger after the merge
    has pairwise distinct keys, and so pairwise distinct identities. *)
Theorem merge_preserves_unique_keys
    (currentIssues : list Issue) (discovered : list Discovered) (i : nat) :
  NoDup (issueKey <$> currentIssues) →
  NoDup (discKey <$> discovered) →
  NoDup (issueKey <$> issues (merge currentIssues discovered i)) ∧
  NoDup (identity <$> issues (merge currentIssues discovered i)).
Proof.
  intros Hl Hd.
  pose proof (merge_keeps_keys_unique currentIssues discovered i Hl Hd) as H.
  split; [exact H|]. by apply unique_keys_unique_identity.
Qed.

Lemma merge_preserves_unique_keys_witness :
  NoDup (issueKey <$> issues (merge [fixed_a0; failed_a8] [disc_a8; disc_b3] 2)) ∧
  NoDup (identity <$> issues (merge [fixed_a0; failed_a8] [disc_a8; disc_b3] 2)).
Proof.
  apply (merge_preserves_unique_keys [fixed_a0; failed_a8] [disc_a8; disc_b3] 2).
  - apply (bool_decide_unpack _). vm_compute. exact I.
  - apply (bool_decide_unpack _). vm_compute. exact I.
Defined.

(** X2. The merge never deletes, moves or re-keys an entry: every entry of
    the ledger is found at the same position afterwards with the same
    identity, [discoveredAt] and [fixedAt], either untouched or reopened
    (it was FIXED and is OPEN with the note appended). What the merge adds
    comes after the old entries, and each added entry is a discovered issue
    entered as OPEN at the current iteration, without [fixedAt]. *)
Theorem merge_keeps_entries_in_place
    (currentIssues : list Issue) (discovered : list Discovered) (i : nat) :
  ∃ kept appended,
    issues (merge currentIssues discovered i) = kept ++ appended ∧
    length kept = length currentIssues ∧
    (∀ k e, currentIssues !! k = Some e →
       ∃ e', kept !! k = Some e' ∧
             identity e' = identity e ∧
             discoveredAt e' = discoveredAt e ∧
             fixedAt e' = fixedAt e ∧
             (e' = e ∨
              (status e = FIXED ∧ status e' = OPEN ∧
               description e' = description e +:+ REOPEN_NOTE))) ∧
    (∀ x, x ∈ appended →
       ∃ d, d ∈ discovered ∧ x = openEntry d i ∧
            status x = OPEN ∧ discoveredAt x = i ∧ fixedAt x = None).
Proof.
  exists (issues (scanDiscovered currentIssues discovered)).
  eexists. split; [unfold merge; simpl; apply appendNew_spec|].
  destruct (scanDiscovered_evolved currentIssues discovered) as (Hlen & Hev & _).
  split; [exact Hlen|]. split.
  - intros k e Hk. destruct (Hev k e Hk) as [Hc|(Hs & Hc & _)].
    + exists e. repeat split; auto.
    + exists (reopen e). repeat split; auto.
  - intros x Hx. apply list_elem_of_fmap in Hx as (d & -> & Hd).
    apply list_elem_of_filter in Hd as [_ Hd].
    exists d. repeat split.
    eapply elem_of_sublist; [exact Hd|].
    apply (scan_new_sublist _ discovered
             {| issues := currentIssues; newIssues := []; reOpenedIssues := [] |}).
Qed.

(** Within one scan no entry is reopened twice: the references collected
    are pairwise distinct and each points to an OPEN entry. *)
Lemma scan_reopens_once K ds st :
  NoDup (reOpenedIssues st) →
  (∀ j, j ∈ reOpenedIssues st → ∃ x, issues st !! j = Some x ∧ status x = OPEN) →
  NoDup (reOpenedIssues (foldl (scanStep K) st ds)) ∧
  (∀ j, j ∈ reOpenedIssues (foldl (scanStep K) st ds) →
        ∃ x, issues (foldl (scanStep K) st ds) !! j = Some x ∧ status x = OPEN).
Proof.
  revert st. induction ds as [|d ds IH]; intros st Hnd Hopen; simpl; [done|].
  destruct (scanStep_cases K st d) as [(idx & e & Hf & Hstep)|(_ & Hi & Hr)].
  - apply list_find_Some in Hf as (Hidx & [_ Hfx] & _).
    apply IH; rewrite Hstep; simpl.
    + apply NoDup_app. split; [done|]. split; [|apply NoDup_singleton].
      intros j Hj Hj'. apply list_elem_of_singleton in Hj' as ->.
      destruct (Hopen idx Hj) as (x & Hx & Hxs). congruence.
    + intros j Hj. apply elem_of_app in Hj as [Hj|Hj].
      * destruct (Hopen j Hj) as (x & Hx & Hxs).
        destruct (decide (j = idx)) as [->|Hne]; [congruence|].
        exists x. by rewrite list_lookup_insert_ne.
      * apply list_elem_of_singleton in Hj as ->.
        exists (reopen e). split; [|done].
        apply list_lookup_insert_eq. by eapply lookup_lt_Some.
  - apply IH; [by rewrite Hr|]. intros j Hj. rewrite Hr in Hj. rewrite Hi. auto.
Qed.

(** X3. One merge reopens an entry at most once: the reopened list has no
    repeated reference, every reference points to an entry that was FIXED
    before the merge and is afterwards that entry reopened, so the
    regression note is appended exactly once to each of them. *)
Theorem merge_reopens_each_entry_once
    (currentIssues : list Issue) (discovered : list Discovered) (i : nat) :
  NoDup (reOpenedIssues (merge currentIssues discovered i)) ∧
  (∀ k, k ∈ reOpenedIssues (merge currentIssues discovered i) →
     ∃ e, currentIssues !! k = Some e ∧ status e = FIXED ∧
          issues (merge currentIssues discovered i) !! k = Some (reopen e)).
Proof.
  destruct (scan_reopens_once (addressedKeysOf currentIssues) discovered
              {| issues := currentIssues; newIssues := []; reOpenedIssues := [] |})
    as [Hnd Hopen].
  { apply NoDup_nil_2. }
  { intros j Hj. by apply elem_of_nil in Hj. }
  split; [exact Hnd|].
  intros k Hk. unfold merge in *; simpl in *.
  destruct (scanDiscovered_evolved currentIssues discovered) as (Hlen & Hev & Hre).
  destruct (Hre k Hk) as (e & He & Hfx). exists e. split; [done|]. split; [done|].
  rewrite appendNew_lookup_old by (rewrite Hlen; by eapply lookup_lt_Some).
  destruct (Hev k e He) as [Hc|(_ & Hc & _)]; [|done].
  destruct (Hopen k Hk) as (x & Hx & Hxs).
  unfold scanDiscovered in Hc. rewrite Hx in Hc. injection Hc as ->. congruence.
Qed.

(** When nothing in the ledger is a FIXED match, a discovered issue of the
    batch is either already addressed or ends in [newIssues]. *)
Lemma scan_new_or_addressed issues0 K ds st d :
  evolved issues0 st →
  (∀ d' j o, d' ∈ ds → issues0 !! j = Some o → ¬ fixedMatch d' o) →
  d ∈ ds →
  discKey d ∈ K ∨ d ∈ newIssues (foldl (scanStep K) st ds).
Proof.
  assert (∀ ds st, d ∈ newIssues st → d ∈ newIssues (foldl (scanStep K) st ds))
    as Hmono.
  { clear. induction ds as [|d0 ds IH]; intros st H; simpl; [done|].
    apply IH. unfold scanStep.
    destruct (list_find _ _) as [[idx e]|]; simpl; [done|].
    case_decide; simpl; [done|]. apply elem_of_app. by left. }
  revert st. induction ds as [|d0 ds IH]; intros st Hev Hno Hin;
    [by apply elem_of_nil in Hin|].
  apply elem_of_cons in Hin as [->|Hin]; simpl.
  - unfold scanStep at 2.
    rewrite (evolved_no_match issues0 st d0 Hev)
      by (intros j o; apply Hno, list_elem_of_here).
    case_decide; [by left|]. right. apply Hmono. simpl.
    apply elem_of_app. right. apply list_elem_of_here.
  - apply IH; [by apply evolved_step| |done].
    intros d' j o Hd'. apply Hno. by apply list_elem_of_further.
Qed.

(** X4. On a ledger without FIXED entries the merge is idempotent: merging
    the same batch again, at any later iteration, changes nothing in the
    ledger and reopens nothing. *)
Theorem merge_twice_same_as_once
    (currentIssues : list Issue) (discovered : list Discovered) (i j : nat) :
  (∀ e, e ∈ currentIssues → status e ≠ FIXED) →
  issues (merge (issues (merge currentIssues discovered i)) discovered j)
    = issues (merge currentIssues discovered i) ∧
  reOpenedIssues (merge (issues (merge currentIssues discovered i)) discovered j)
    = [].
Proof.
  intros HnoF.
  assert (∀ x, x ∈ issues (merge currentIssues discovered i) → status x ≠ FIXED)
    as HnoF'.
  { intros x Hx Hs. apply (HnoF x); [|done]. by eapply merge_fixed. }
  apply merge_known_keys_unchanged.
  - intros d Hd.
    destruct (scan_new_or_addressed currentIssues (addressedKeysOf currentIssues)
                discovered
                {| issues := currentIssues; newIssues := []; reOpenedIssues := [] |} d)
      as [Haddr|Hnew]; [apply evolved_init| |done| |].
    + intros d' k o _ Hk [_ Hs]. apply (HnoF o); [|done].
      apply list_elem_of_lookup. eauto.
    + apply addressedKeysOf_spec in Haddr as (e & He & _ & <-).
      unfold merge; simpl. rewrite appendNew_spec, fmap_app.
      apply elem_of_app. left.
      pose proof (scan_keys (addressedKeysOf currentIssues) discovered
                    {| issues := currentIssues; newIssues := []; reOpenedIssues := [] |})
        as Hkeys.
      fold (scanDiscovered currentIssues discovered) in Hkeys. rewrite Hkeys. simpl.
      apply list_elem_of_fmap. eauto.
    + fold (scanDiscovered currentIssues discovered) in Hnew.
      unfold merge; simpl. rewrite appendNew_spec, fmap_app.
      destruct (decide (discKey d ∈ issueKey <$> issues (scanDiscovered currentIssues discovered)))
        as [Hold|Hfresh]; [apply elem_of_app; by left|].
      apply elem_of_app. right. apply list_elem_of_fmap.
      exists (openEntry d i). split; [done|].
      apply list_elem_of_fmap. exists d. split; [done|].
      apply list_elem_of_filter. split; [|done].
      by rewrite elem_of_list_to_set.
  - intros d k o _ Hk [_ Hs]. apply (HnoF' o); [|done].
    apply list_elem_of_lookup. eauto.
Qed.

Lemma merge_twice_same_as_once_witness :
  issues (merge (issues (merge [failed_a8] [disc_a8; disc_b3; disc_b3] 1))
            [disc_a8; disc_b3; disc_b3] 2)
    = issues (merge [failed_a8] [disc_a8; disc_b3; disc_b3] 1) ∧
  reOpenedIssues (merge (issues (merge [failed_a8] [disc_a8; disc_b3; disc_b3] 1))
                    [disc_a8; disc_b3; disc_b3] 2)
    = [].
Proof.
  apply (merge_twice_same_as_once [failed_a8] [disc_a8; disc_b3; disc_b3] 1 2).
  intros e He. apply list_elem_of_singleton in He as ->. discriminate.
Defined.

(** X5. The merge resolves nothing: an entry that is FIXED or FAILED_*
    after the merge was in the ledger before it, unchanged. *)
Theorem merge_resolves_nothing
    (currentIssues : list Issue) (discovered : list Discovered) (i : nat)
    (x : Issue) :
  x ∈ issues (merge currentIssues discovered i) →
  status x ≠ OPEN →
  x ∈ currentIssues.
Proof.
  intros Hx Hs.
  apply merge_elem in Hx as [(o & Ho & [->| ->])|(d & _ & ->)]; done.
Qed.

Lemma merge_resolves_nothing_witness : failed_a8 ∈ [fixed_a0; failed_a8].
Proof.
  apply (merge_resolves_nothing [fixed_a0; failed_a8] [disc_a8; disc_b3] 2 failed_a8).
  - apply list_elem_of_further, list_elem_of_here.
  - discriminate.
Defined.

(** Each turn of the scan counts its discovered issue at most once. *)
Lemma scan_counts_once K ds st :
  length (newIssues (foldl (scanStep K) st ds))
    + length (reOpenedIssues (foldl (scanStep K) st ds))
  ≤ length (newIssues st) + length (reOpenedIssues st) + length ds.
Proof.
  revert st. induction ds as [|d ds IH]; intros st; simpl; [lia|].
  etrans; [apply IH|]. unfold scanStep.
  destruct (list_find _ _) as [[idx e]|]; simpl.
  - rewrite length_app. simpl. lia.
  - case_decide; simpl; [lia|]. rewrite length_app. simpl. lia.
Qed.

(** X6. Every discovered issue is counted at most once, as new or as
    reopened: the new issues are discovered issues in their order of
    discovery, none of them has an addressed key (the key of an entry that
    was not OPEN), and new and reopened together are no more than the
    issues discovered. *)
Theorem merge_counts_each_discovery_once
    (currentIssues : list Issue) (discovered : list Discovered) (i : nat) :
  newIssues (merge currentIssues discovered i) `sublist_of` discovered ∧
  (∀ d, d ∈ newIssues (merge currentIssues discovered i) →
        discKey d ∉ addressedKeysOf currentIssues) ∧
  length (newIssues (merge currentIssues discovered i))
    + length (reOpenedIssues (merge currentIssues discovered i))
  ≤ length discovered.
Proof.
  unfold merge; simpl. split; [|split].
  - apply (scan_new_sublist _ discovered
             {| issues := currentIssues; newIssues := []; reOpenedIssues := [] |}).
  - apply scan_new_not_addressed. intros d Hd. by apply elem_of_nil in Hd.
  - apply (scan_counts_once _ discovered
             {| issues := currentIssues; newIssues := []; reOpenedIssues := [] |}).
Qed.

(** ** The status update (solver.js, [updateIssueStatus]) *)

(** X7. A status update changes at most one entry, the first one carrying
    the identity, and of that entry only [status] and [fixedAt]; the
    ledger keeps its length and every entry keeps its identity, description
    and [discoveredAt]. When no entry carries the identity, the ledger is
    left as it is. *)
Theorem updateIssueStatus_touches_one_entry
    (now f t : string) (ln : N) (s : Status) (l : list Issue) :
  length (updateIssueStatus now f t ln s l) = length l ∧
  (λ e, (identity e, description e, discoveredAt e)) <$> updateIssueStatus now f t ln s l
    = (λ e, (identity e, description e, discoveredAt e)) <$> l ∧
  ((∀ e, e ∈ l → identity e ≠ (f, t, ln)) → updateIssueStatus now f t ln s l = l) ∧
  (∀ k e, l !! k = Some e → identity e = (f, t, ln) →
          (∀ j y, l !! j = Some y → j < k → identity y ≠ (f, t, ln)) →
          updateIssueStatus now f t ln s l = <[k := stamped now s e]> l) ∧
  (∀ j1 j2, updateIssueStatus now f t ln s l !! j1 ≠ l !! j1 →
            updateIssueStatus now f t ln s l !! j2 ≠ l !! j2 → j1 = j2).
Proof.
  destruct (updateIssueStatus_cases now f t ln s l)
    as [(idx & issue & Hidx & Hid & Hfirst & ->)|(Hnone & ->)].
  - split; [by rewrite length_insert|]. split.
    { rewrite list_fmap_insert. apply list_insert_id.
      by rewrite list_lookup_fmap, Hidx. }
    split.
    { intros Hno. exfalso. apply (Hno issue); [|done].
      apply list_elem_of_lookup. eauto. }
    split.
    { intros k e Hk He Hk_first.
      assert (k = idx) as ->.
      { destruct (Nat.lt_trichotomy k idx) as [Hlt|[->|Hgt]]; [|done|].
        - exfalso. by apply (Hfirst k e Hk Hlt).
        - exfalso. by apply (Hk_first idx issue Hidx Hgt). }
      rewrite Hidx in Hk. by injection Hk as ->. }
    intros j1 j2 H1 H2.
    destruct (decide (j1 = idx)) as [->|Hne1];
      [|by rewrite list_lookup_insert_ne in H1].
    destruct (decide (j2 = idx)) as [->|Hne2];
      [done|by rewrite list_lookup_insert_ne in H2].
  - split; [done|]. split; [done|]. split; [done|]. split.
    + intros k e Hk He _. exfalso. apply (Hnone e); [|done].
      apply list_elem_of_lookup. eauto.
    + intros j1 j2 H1. done.
Qed.

(** ** The solver's batch (solver.js, [runSolver]) *)

Lemma solveIssue_disk_other w lp sn k st iss f :
  f ≠ path_join lp (file iss) →
  disk (solveIssue w lp sn k st iss) !! f = disk st !! f.
Proof.
  intros Hne. unfold solveIssue.
  destruct (disk st !! path_join lp (file iss)) as [c|] eqn:Hd;
    [|by destruct (isDirectory w _)].
  destruct (invoke w k iss sn c) as [content|m]; [|done].
  destruct (writeFile w k (path_join lp (file iss)) _) as [[]|m]; [|done].
  simpl. by rewrite lookup_insert_ne.
Qed.

Lemma solveFrom_disk_other w lp sn k st l f :
  f ∉ (path_join lp ∘ file) <$> l →
  disk (solveFrom w lp sn k st l) !! f = disk st !! f.
Proof.
  revert k st. induction l as [|iss l IH]; intros k st Hf; simpl; [done|].
  rewrite IH, solveIssue_disk_other; [done| |].
  - intros ->. apply Hf. simpl. apply list_elem_of_here.
  - intros Hin. apply Hf. simpl. by apply list_elem_of_further.
Qed.

(** A file changes only in the turn of an issue whose path resolves to
    it, and then to what the Repair Oracle returned for it. *)
Lemma solveIssue_disk_change w lp sn k st iss f :
  disk (solveIssue w lp sn k st iss) !! f ≠ disk st !! f →
  f = path_join lp (file iss) ∧
  ∃ c content,
    disk st !! f = Some c ∧
    invoke w k iss sn c = Ret content ∧
    disk (solveIssue w lp sn k st iss) !! f
      = Some (if includes "```" content then stripFences w content else content).
Proof.
  intros Hch.
  destruct (decide (f = path_join lp (file iss))) as [->|Hne];
    [|by rewrite solveIssue_disk_other in Hch].
  split; [done|]. revert Hch. unfold solveIssue.
  destruct (disk st !! path_join lp (file iss)) as [c|] eqn:Hd;
    [|by destruct (isDirectory w _)].
  destruct (invoke w k iss sn c) as [content|m] eqn:Hi; [|done].
  destruct (writeFile w k (path_join lp (file iss)) _) as [[]|m]; [|done].
  simpl. intros _. exists c, content. by rewrite lookup_insert_eq.
Qed.

Lemma solveFrom_disk_change w lp sn f l :
  ∀ k0 st,
    disk (solveFrom w lp sn k0 st l) !! f ≠ disk st !! f →
    ∃ k iss c content,
      l !! k = Some iss ∧ path_join lp (file iss) = f ∧
      invoke w (k0 + k) iss sn c = Ret content ∧
      disk (solveFrom w lp sn k0 st l) !! f
        = Some (if includes "```" content then stripFences w content else content).
Proof.
  induction l as [|iss l IH]; intros k0 st Hch; simpl in *; [done|].
  destruct (decide (disk (solveFrom w lp sn (S k0) (solveIssue w lp sn k0 st iss) l) !! f
                    = disk (solveIssue w lp sn k0 st iss) !! f)) as [Heq|Hne].
  - rewrite Heq in Hch |- *.
    destruct (solveIssue_disk_change w lp sn k0 st iss f Hch)
      as (-> & c & content & _ & Hi & Hd).
    exists 0, iss, c, content. by rewrite Nat.add_0_r.
  - destruct (IH _ _ Hne) as (k & iss' & c & content & Hk & Hp & Hi & Hd).
    exists (S k), iss', c, content.
    replace (k0 + S k) with (S k0 + k) by lia. done.
Qed.

(** X8. The solver never creates or deletes a file. The files are looked
    up under [path.join(localPath, issue.file)]: a file keeps its content
    unless the path of some issue of the batch resolves to it, and a file
    whose content has changed holds what the Repair Oracle returned, fences
    stripped, in the turn of such an issue. ([issues_log.json], which the
    status updates rewrite, is the ledger and not one of these files.) *)
Theorem runSolver_keeps_the_file_set
    (w : World) (lp : string) (tree : gmap string string)
    (openIssues ledger : list Issue) (testOutput : string) (f : string) :
  let final := runSolver w lp tree openIssues ledger testOutput in
  (disk final !! f = None ↔ tree !! f = None) ∧
  (f ∉ (path_join lp ∘ file) <$> openIssues → disk final !! f = tree !! f) ∧
  (disk final !! f ≠ tree !! f →
   ∃ k iss c content,
     openIssues !! k = Some iss ∧ path_join lp (file iss) = f ∧
     invoke w k iss (substring0 3000 testOutput) c = Ret content ∧
     disk final !! f
       = Some (if includes "```" content then stripFences w content else content)).
Proof.
  cbv zeta. unfold runSolver. split; [by rewrite solveFrom_disk_none|].
  split; [intros Hf; by rewrite solveFrom_disk_other|].
  intros Hch.
  apply (solveFrom_disk_change w lp (substring0 3000 testOutput) f openIssues 0
           {| disk := tree; log := ledger; fixesApplied := [] |} Hch).
Qed.

(** An issue that names [./src/b.py] changes [src/b.py], which it does
    not name letter for letter. *)
Example solver_changes_the_resolved_file :
  let iss := openEntry {| d_file := "./src/b.py"; d_type := "IMPORT"; d_line := 3;
                          d_description := "unused import os" |} 1 in
  "/tmp/repo/src/b.py" ∈ (path_join "/tmp/repo" ∘ file) <$> [iss] ∧
  disk (runSolver world_oracle_up "/tmp/repo" tree_b [iss] [iss] "1 failed")
    !! "/tmp/repo/src/b.py" ≠ tree_b !! "/tmp/repo/src/b.py".
Proof. split; [apply list_elem_of_here|by vm_compute]. Qed.

Lemma updateIssueStatus_back now f t ln s l k e :
  updateIssueStatus now f t ln s l !! k = Some e →
  identity e ≠ (f, t, ln) →
  l !! k = Some e.
Proof.
  intros Hk Hne.
  destruct (updateIssueStatus_cases now f t ln s l)
    as [(idx & issue & Hidx & Hid & _ & Heq)|(_ & Heq)]; rewrite Heq in Hk; [|done].
  destruct (decide (k = idx)) as [->|Hki].
  - rewrite list_lookup_insert_eq in Hk by (by eapply lookup_lt_Some).
    injection Hk as <-. by rewrite stamped_identity in Hne.
  - by rewrite list_lookup_insert_ne in Hk.
Qed.

(** In a ledger with pairwise distinct identities, after a batch every
    entry whose identity is that of an issue of the batch is resolved, and
    every other entry is as it was. *)
Lemma solveFrom_resolves w lp sn k st l j e :
  NoDup (identity <$> Solver.log st) →
  (∀ x, x ∈ l → identity x ∈ identity <$> Solver.log st) →
  Solver.log (solveFrom w lp sn k st l) !! j = Some e →
  (identity e ∈ identity <$> l → status e ≠ OPEN) ∧
  (identity e ∉ identity <$> l → Solver.log st !! j = Some e).
Proof.
  revert k st. induction l as [|x l IH]; intros k st Hnd Hin Hj; simpl in *.
  - split; [intros H; by apply elem_of_nil in H|done].
  - destruct (solveIssue_log w lp sn k st x) as (s & Hlog & HsO & _).
    destruct (IH (S k) (solveIssue w lp sn k st x)) as [IH1 IH2].
    { by rewrite Hlog, updateIssueStatus_identities. }
    { intros y Hy. rewrite Hlog, updateIssueStatus_identities.
      by apply Hin, list_elem_of_further. }
    { exact Hj. }
    destruct (decide (identity e ∈ identity <$> l)) as [Hrest|Hrest].
    + split; [auto|]. intros Hno. exfalso. apply Hno. by apply list_elem_of_further.
    + specialize (IH2 Hrest). rewrite Hlog in IH2.
      destruct (decide (identity e = identity x)) as [Heq|Hne].
      * split; [|intros Hno; exfalso; apply Hno; rewrite Heq; apply list_elem_of_here].
        intros _.
        destruct (updateIssueStatus_cases (clock w k) (file x) (type x) (line x) s
                    (Solver.log st))
          as [(idx & issue & Hidx & Hid & _ & Hupd)|(Hnone & _)].
        -- rewrite Hupd in IH2.
           assert (j = idx) as ->.
           { apply (NoDup_lookup _ j idx (identity x) Hnd).
             - destruct (decide (j = idx)) as [->|Hji].
               + rewrite list_lookup_fmap, Hidx. simpl. by rewrite Hid.
               + rewrite list_lookup_insert_ne in IH2 by done.
                 rewrite list_lookup_fmap, IH2. simpl. by rewrite Heq.
             - rewrite list_lookup_fmap, Hidx. simpl. by rewrite Hid. }
           rewrite list_lookup_insert_eq in IH2 by (by eapply lookup_lt_Some).
           by injection IH2 as <-.
        -- exfalso. specialize (Hin x (list_elem_of_here _ _)).
           apply list_elem_of_fmap in Hin as (y & Hy & Hyin).
           apply (Hnone y Hyin). by rewrite <- Hy.
      * split.
        -- intros Hin'. apply elem_of_cons in Hin' as [?|?]; done.
        -- intros _. eapply updateIssueStatus_back; [exact IH2|exact Hne].
Qed.

(** X9. In a ledger whose entries have pairwise distinct identities, the
    solver's batch over the OPEN issues leaves no issue OPEN, and the
    entries that were already resolved are exactly as they were. *)
Theorem runSolver_leaves_no_open_issue
    (w : World) (lp : string) (tree : gmap string string) (ledger : list Issue)
    (testOutput : string) :
  NoDup (identity <$> ledger) →
  let final :=
    runSolver w lp tree (filter (λ x, status x = OPEN) ledger) ledger testOutput in
  (∀ e, e ∈ Solver.log final → status e ≠ OPEN) ∧
  (∀ k e, ledger !! k = Some e → status e ≠ OPEN →
          Solver.log final !! k = Some e).
Proof.
  intros Hnd final.
  assert (∀ x, x ∈ filter (λ x, status x = OPEN) ledger →
               identity x ∈ identity <$> ledger) as Hsub.
  { intros x Hx. apply list_elem_of_filter in Hx as [_ Hx].
    apply list_elem_of_fmap. eauto. }
  assert (∀ e, e ∈ ledger → status e ≠ OPEN →
               identity e ∉ identity <$> filter (λ x, status x = OPEN) ledger)
    as Hother.
  { intros e He Hs Hin. apply list_elem_of_fmap in Hin as (y & Hy & Hyin).
    apply list_elem_of_filter in Hyin as [Hys Hyin].
    apply list_elem_of_lookup in He as [k1 Hk1].
    apply list_elem_of_lookup in Hyin as [k2 Hk2].
    assert (k1 = k2) as ->.
    { eapply NoDup_lookup; [exact Hnd| |];
        rewrite list_lookup_fmap; [rewrite Hk1|rewrite Hk2]; simpl; [done|by rewrite Hy]. }
    congruence. }
  split.
  - intros e He Hs. apply list_elem_of_lookup in He as [j Hj].
    destruct (solveFrom_resolves w lp (substring0 3000 testOutput) 0
                {| disk := tree; log := ledger; fixesApplied := [] |}
                (filter (λ x, status x = OPEN) ledger) j e Hnd Hsub Hj)
      as [H1 H2].
    destruct (decide (identity e ∈ identity <$> filter (λ x, status x = OPEN) ledger))
      as [Hin|Hout]; [by apply H1|].
    specialize (H2 Hout). simpl in H2.
    apply Hout. apply list_elem_of_fmap. exists e. split; [done|].
    apply list_elem_of_filter. split; [done|]. apply list_elem_of_lookup. eauto.
  - intros k e Hk Hs.
    apply solveFrom_untouched; [done|].
    intros x Hx Heq. apply (Hother e); [apply list_elem_of_lookup; eauto|done|].
    rewrite <- Heq. apply list_elem_of_fmap. eauto.
Qed.

Lemma runSolver_leaves_no_open_issue_witness :
  let final :=
    runSolver world_oracle_down "/tmp/repo" tree_b
      (filter (λ x, status x = OPEN) (fixed_a0 :: ledger_ab))
      (fixed_a0 :: ledger_ab) "1 failed" in
  (∀ e, e ∈ Solver.log final → status e ≠ OPEN) ∧
  (∀ k e, (fixed_a0 :: ledger_ab) !! k = Some e → status e ≠ OPEN →
          Solver.log final !! k = Some e).
Proof.
  apply (runSolver_leaves_no_open_issue world_oracle_down "/tmp/repo" tree_b
           (fixed_a0 :: ledger_ab) "1 failed").
  apply (bool_decide_unpack _). vm_compute. exact I.
Defined.

Lemma solveIssue_fixes w lp sn k st iss :
  fixesApplied (solveIssue w lp sn k st iss) = fixesApplied st ∨
  (fixesApplied (solveIssue w lp sn k st iss)
     = fixesApplied st ++ [ {| af_file := file iss; af_type := type iss;
                               af_description := description iss;
                               af_line := line iss |} ] ∧
   is_Some (disk (solveIssue w lp sn k st iss) !! path_join lp (file iss))).
Proof.
  unfold solveIssue.
  destruct (disk st !! path_join lp (file iss)) as [c|] eqn:Hd;
    [|left; by destruct (isDirectory w _)].
  destruct (invoke w k iss sn c) as [content|m]; [|by left].
  destruct (writeFile w k (path_join lp (file iss)) _) as [[]|m]; [|by left].
  right. simpl. split; [done|]. rewrite lookup_insert_eq. by eexists.
Qed.

Lemma solveFrom_fixes w lp sn k st l :
  (∀ fx, fx ∈ fixesApplied st → is_Some (disk st !! path_join lp (af_file fx))) →
  ∃ fs,
    fixesApplied (solveFrom w lp sn k st l) = fixesApplied st ++ fs ∧
    fs `sublist_of`
      ((λ iss, {| af_file := file iss; af_type := type iss;
                  af_description := description iss; af_line := line iss |}) <$> l) ∧
    (∀ fx, fx ∈ fixesApplied (solveFrom w lp sn k st l) →
           is_Some (disk (solveFrom w lp sn k st l) !! path_join lp (af_file fx))).
Proof.
  revert k st. induction l as [|iss l IH]; intros k st Hex; simpl.
  - exists []. by rewrite app_nil_r.
  - assert (∀ fx, fx ∈ fixesApplied st →
                  is_Some (disk (solveIssue w lp sn k st iss) !! path_join lp (af_file fx))) as Hex'.
    { intros fx Hfx. apply not_eq_None_Some. rewrite solveIssue_disk_none.
      apply not_eq_None_Some. by apply Hex. }
    destruct (solveIssue_fixes w lp sn k st iss) as [Hsame|[Hgrow Hfile]].
    + destruct (IH (S k) (solveIssue w lp sn k st iss)) as (fs & Hfs & Hsub & Hdisk).
      { intros fx. rewrite Hsame. apply Hex'. }
      exists fs. split; [by rewrite Hfs, Hsame|]. split; [by apply sublist_cons|done].
    + destruct (IH (S k) (solveIssue w lp sn k st iss)) as (fs & Hfs & Hsub & Hdisk).
      { intros fx. rewrite Hgrow. intros Hfx.
        apply elem_of_app in Hfx as [Hfx|Hfx]; [by apply Hex'|].
        by apply list_elem_of_singleton in Hfx as ->. }
      exists ({| af_file := file iss; af_type := type iss;
                 af_description := description iss; af_line := line iss |} :: fs).
      split; [by rewrite Hfs, Hgrow, <- app_assoc|].
      split; [by apply sublist_skip|done].
Qed.

(** X10. The fixes the solver reports are issues of the batch, in the
    order of the batch and each at most once, with the file, type,
    description and line of the issue; the file of every reported fix,
    under [path.join(localPath, file)], is on disk when the batch ends;
    and there are never more fixes than issues. *)
Theorem runSolver_reports_fixes_of_the_batch
    (w : World) (lp : string) (tree : gmap string string) (openIssues ledger : list Issue)
    (testOutput : string) :
  let final := runSolver w lp tree openIssues ledger testOutput in
  fixesApplied final `sublist_of`
    ((λ iss, {| af_file := file iss; af_type := type iss;
                af_description := description iss; af_line := line iss |})
       <$> openIssues) ∧
  (∀ fx, fx ∈ fixesApplied final →
         is_Some (disk final !! path_join lp (af_file fx))) ∧
  length (fixesApplied final) ≤ length openIssues.
Proof.
  intros final. unfold final, runSolver.
  destruct (solveFrom_fixes w lp (substring0 3000 testOutput) 0
              {| disk := tree; log := ledger; fixesApplied := [] |} openIssues)
    as (fs & Hfs & Hsub & Hdisk).
  { intros fx Hfx. by apply elem_of_nil in Hfx. }
  simpl in Hfs. split; [by rewrite Hfs|]. split; [done|].
  rewrite Hfs. apply sublist_length in Hsub. by rewrite length_fmap in Hsub.
Qed.

Lemma updateIssueStatus_shape now f t ln s l :
  (λ e, (identity e, description e, discoveredAt e)) <$> updateIssueStatus now f t ln s l
  = (λ e, (identity e, description e, discoveredAt e)) <$> l.
Proof.
  destruct (updateIssueStatus_cases now f t ln s l)
    as [(idx & issue & Hidx & _ & _ & ->)|(_ & ->)]; [|done].
  rewrite list_fmap_insert. apply list_insert_id.
  by rewrite list_lookup_fmap, Hidx.
Qed.

(** X11. The solver never adds, removes, moves or re-keys a ledger entry
    and never rewrites a description or [discoveredAt]: after any batch
    the ledger has the same entries in the same order, up to [status] and
    [fixedAt]. *)
Theorem runSolver_keeps_the_ledger_shape
    (w : World) (lp : string) (tree : gmap string string) (openIssues ledger : list Issue)
    (testOutput : string) :
  (λ e, (identity e, description e, discoveredAt e))
    <$> Solver.log (runSolver w lp tree openIssues ledger testOutput)
  = (λ e, (identity e, description e, discoveredAt e)) <$> ledger.
Proof.
  unfold runSolver.
  generalize (substring0 3000 testOutput) as sn. intros sn.
  change ledger with (Solver.log {| disk := tree; log := ledger; fixesApplied := [] |}) at 2.
  generalize {| disk := tree; log := ledger; fixesApplied := [] |} as st.
  generalize 0 as k. intros k st. revert k st.
  induction openIssues as [|iss l IH]; intros k st; simpl; [done|].
  rewrite IH. destruct (solveIssue_log w lp sn k st iss) as (s & -> & _).
  apply updateIssueStatus_shape.
Qed.

(** ** The sandbox (docker.js, [runTestsInSandbox]) *)

(** An event is not in a trace written out in full. *)
Ltac absent H :=
  exfalso;
  repeat (apply elem_of_cons in H as [H|H]; [discriminate H|]);
  by apply elem_of_nil in H.

(** X12. When the container cannot be created, nothing else is asked of the
    daemon: no start, no transfer, no exec and no teardown; the caller
    gets [success = false] with the message of the creation error. *)
Theorem sandbox_without_container_calls_nothing_else
    (d : Docker) (localPath testCmd imageName e : string) :
  createContainer d imageName = Throw e →
  runTestsInSandbox d localPath testCmd imageName
  = (Ret {| success := false; output := "Sandbox execution failed: " +:+ e |},
     {| container := false; trace := [EvCreate imageName; EvLogError e] |}).
Proof. apply no_container_no_teardown. Qed.

Lemma sandbox_without_container_calls_nothing_else_witness :
  runTestsInSandbox
    {| createContainer := λ _, Throw "no such image";
       start := Ret tt; putArchive := λ _, Ret tt; exec := λ _, Ret tt;
       execStart := Ret tt; chunks := []; streamEnd := Ret tt;
       inspectExitCode := Ret (Some 0%Z); stop := Ret tt; remove := Ret tt |}
    "/tmp/repo" "pytest" "python:3.9-alpine"
  = (Ret {| success := false;
            output := "Sandbox execution failed: " +:+ "no such image" |},
     {| container := false;
        trace := [EvCreate "python:3.9-alpine"; EvLogError "no such image"] |}).
Proof.
  apply (sandbox_without_container_calls_nothing_else
           {| createContainer := λ _, Throw "no such image";
              start := Ret tt; putArchive := λ _, Ret tt; exec := λ _, Ret tt;
              execStart := Ret tt; chunks := []; streamEnd := Ret tt;
              inspectExitCode := Ret (Some 0%Z); stop := Ret tt; remove := Ret tt |}
           "/tmp/repo" "pytest" "python:3.9-alpine" "no such image").
  reflexivity.
Defined.

(** X13. The daemon is asked for each step only after the steps before it
    resolved: the container is started only if it was created, the working
    tree is transferred only into a started container, the command runs
    only after the transfer, its exit code is read only after the output
    stream ended, and the container is stopped exactly when it was created
    and removed only after it was stopped. *)
Theorem sandbox_steps_run_in_order
    (d : Docker) (localPath testCmd imageName : string) :
  let tr := trace (runTestsInSandbox d localPath testCmd imageName).2 in
  (EvStart ∈ tr → createContainer d imageName = Ret tt) ∧
  (EvPutArchive localPath ∈ tr → start d = Ret tt) ∧
  (EvExec testCmd ∈ tr → putArchive d localPath = Ret tt) ∧
  (EvExecStart ∈ tr → exec d testCmd = Ret tt) ∧
  (EvInspect ∈ tr → execStart d = Ret tt ∧ streamEnd d = Ret tt) ∧
  (EvStop ∈ tr ↔ createContainer d imageName = Ret tt) ∧
  (EvRemove ∈ tr ↔ createContainer d imageName = Ret tt ∧ stop d = Ret tt).
Proof.
  unfold_sandbox. daemon_cases d.
  all: repeat split.
  all: try done.
  all: try (intros H; first [done | absent H]).
  all: try (intros [? ?]; done).
  all: try (intros _; repeat (first [apply list_elem_of_here | apply list_elem_of_further])).
  all: match goal with H : _ ∈ _ |- _ => absent H end.
Qed.

Import RunExamples.

(** ** The run (orchestrator.js, [startOrchestrator]) *)

(** X14. A run ends with a verdict unless an exception leaves the loop. A
    run that is not rejected ends with status PASSED or FAILED, PASSED
    exactly when its last sandbox run succeeded. A run is rejected only in
    an iteration whose tests failed and in which either the diagnosis
    could not be scanned (the call of the Diagnostic Oracle rejected, or
    what it returned is not a list of objects) or the ledger could not be
    written, and results.json is then left with status RUNNING. No sandbox
    run takes place exactly when the auditor failed or no engine was
    detected. *)
Theorem run_ends_with_a_verdict (env : Env) (extra : nat) :
  ∃ final,
    startOrchestrator env (MAX_ITER + extra) = Some final ∧
    (rejected final = None →
     (r_status (results final) = PASSED ∨ r_status (results final) = FAILED) ∧
     (r_status (results final) = PASSED ↔
        ∃ i r, last (sandboxRuns final) = Some (i, r) ∧ success r = true)) ∧
    (∀ e, rejected final = Some e →
       r_status (results final) = RUNNING ∧
       ∃ i r, last (sandboxRuns final) = Some (i, r) ∧ success r = false ∧
              (analyzeOutput env i (output r) (tree final) = Throw e ∨
               writeLogAt env i = Throw e)) ∧
    (sandboxRuns final = [] ↔
       (∃ e, runAuditor env = Throw e) ∨ detectEngine env = None).
Proof.
  unfold startOrchestrator.
  destruct (runAuditor env) as [[localPath branchName]|e] eqn:Haud.
  - destruct (detectEngine env) as [engine|] eqn:Heng.
    + unfold healAndCommit. rewrite forLoop_fuel by lia_iter.
      match goal with |- context [forLoop env engine MAX_ITER 1 ?s] =>
        set (st0 := s);
        destruct (forLoop_bounded env engine MAX_ITER 1 st0)
          as (st' & n & Hloop & Hn & Hle & Hruns & _ & _ & _ & Hlast);
          [lia_iter|lia_iter|]
      end.
      rewrite Hloop.
      destruct Hlast as (r & Hl & Hsr); [done|].
      destruct (forLoop_rejection env engine _ _ _ _ Hloop eq_refl)
        as (Hstat & _ & Hwhy).
      destruct (rejected st') as [e|] eqn:Hrej.
      * exists st'. split; [reflexivity|]. rewrite Hrej.
        split; [done|]. split.
        -- intros e' [= <-]. split; [by rewrite Hstat|]. by apply Hwhy.
        -- split.
           ++ intros Hnil. rewrite Hnil in Hl. discriminate.
           ++ intros [[e' He]|He]; discriminate.
      * destruct (phase4_frame env branchName st') as (_ & _ & _ & Hr & _ & _).
        assert (r_status (results (phase4 env branchName st'))
                = if success r then PASSED else FAILED) as Hstatus.
        { destruct (decide (fixesOrSuccess st')) as [Hg|Hg].
          - destruct (phase4_commits env branchName st' Hg)
              as (ops & _ & _ & _ & _ & _ & -> & _). by rewrite Hsr.
          - destruct (phase4_skips env branchName st' Hg) as [_ ->].
            destruct (success r) eqn:Hsuc; [|done].
            exfalso. apply Hg. right. by rewrite Hsr. }
        eexists. split; [reflexivity|].
        rewrite phase4_rejected, Hrej, Hstatus, Hr. split; [intros _; split|split].
        -- destruct (success r); auto.
        -- split.
           ++ intros Hp. exists (1 + n - 1), r. split; [done|].
              by destruct (success r).
           ++ intros (i' & r' & Hl' & Hs'). rewrite Hl in Hl'.
              injection Hl' as _ <-. by rewrite Hs'.
        -- intros e [=].
        -- split.
           ++ intros Hnil. rewrite Hnil in Hl. discriminate.
           ++ intros [[e He]|He]; discriminate.
    + eexists. split; [reflexivity|]. simpl. split; [intros _; split; [by right|]|].
      * split; [discriminate|]. intros (i & r & Hl & _). discriminate.
      * split; [intros e [=]|]. split; [by right|done].
  - eexists. split; [reflexivity|]. simpl. split; [intros _; split; [by right|]|].
    + split; [discriminate|]. intros (i & r & Hl & _). discriminate.
    + split; [intros e' [=]|]. split; [left; eauto|done].
Qed.

(** A diagnosis with a [null] element: the run is rejected in its first
    iteration and results.json keeps the status RUNNING. *)
Example run_with_a_null_issue_stays_running :
  ∃ final,
    startOrchestrator env_null_issue MAX_ITER = Some final ∧
    rejected final = Some "Cannot read properties of null (reading 'file')" ∧
    (sandboxRuns final).*1 = [1] ∧
    gitOps final = [] ∧
    r_status (results final) = RUNNING.
Proof. eexists. split; [vm_compute; reflexivity|]. by vm_compute. Qed.

(** A ledger that cannot be written in step E: the run is rejected before
    the solver is called, nothing is committed or pushed, and results.json
    keeps the status RUNNING. *)
Example run_with_an_unwritable_ledger_stays_running :
  ∃ final,
    startOrchestrator env_ledger_unwritable MAX_ITER = Some final ∧
    rejected final = Some "ENOSPC: no space left on device, write" ∧
    (sandboxRuns final).*1 = [1] ∧
    solverRuns final = [] ∧
    issuesLog final = [] ∧
    gitOps final = [] ∧
    r_status (results final) = RUNNING.
Proof. eexists. split; [vm_compute; reflexivity|]. by vm_compute. Qed.

(** X15. When the first sandbox run succeeds, the run ends PASSED after
    exactly one iteration: the Diagnostic Oracle and the solver are never
    called, the ledger stays empty, the working tree is untouched, nothing
    is committed, and the branch is pushed once. *)
Theorem passing_suite_ends_after_one_iteration
    (env : Env) (localPath branchName : string) (engine : Engine) :
  runAuditor env = Ret (localPath, branchName) →
  detectEngine env = Some engine →
  success (engineRun env engine 1 (clonedTree env)) = true →
  ∃ final,
    startOrchestrator env MAX_ITER = Some final ∧
    sandboxRuns final = [(1, engineRun env engine 1 (clonedTree env))] ∧
    solverRuns final = [] ∧
    issuesLog final = [] ∧
    tree final = clonedTree env ∧
    allFixes final = [] ∧
    gitOps final = [GitPush "origin" branchName] ∧
    r_fixes (results final) = [] ∧
    r_iterations (results final) = 1 ∧
    r_status (results final) = PASSED ∧
    rejected final = None.
Proof.
  intros Haud Heng Hsucc.
  unfold startOrchestrator. rewrite Haud, Heng.
  unfold healAndCommit.
  change (forLoop env engine MAX_ITER 1) with (forLoop env engine 6 1).
  cbn [forLoop].
  destruct (decide (1 ≤ MAX_ITER)) as [_|Hn]; [|unfold MAX_ITER in Hn; lia].
  unfold loopBody. cbn -[phase4]. rewrite Hsucc.
  eexists. split; [reflexivity|].
  unfold phase4. cbn. rewrite decide_True by (by right). cbn.
  destruct (gitPush env branchName); cbn; by repeat split.
Qed.

Lemma passing_suite_ends_after_one_iteration_witness :
  ∃ final,
    startOrchestrator env_passes_at_once MAX_ITER = Some final ∧
    sandboxRuns final
      = [(1, engineRun env_passes_at_once enginePython 1
               (clonedTree env_passes_at_once))] ∧
    solverRuns final = [] ∧
    issuesLog final = [] ∧
    tree final = clonedTree env_passes_at_once ∧
    allFixes final = [] ∧
    gitOps final = [GitPush "origin" "TEAM_LEAD_AI_Fix_1"] ∧
    r_fixes (results final) = [] ∧
    r_iterations (results final) = 1 ∧
    r_status (results final) = PASSED ∧
    rejected final = None.
Proof.
  apply (passing_suite_ends_after_one_iteration
           env_passes_at_once "/tmp/repo" "TEAM_LEAD_AI_Fix_1" enginePython);
    reflexivity.
Defined.

(** The scan reopens nothing and finds nothing new when every discovered
    issue has an addressed key and matches no FIXED entry. *)
Lemma scan_all_known K ds st :
  (∀ d, d ∈ ds → discKey d ∈ K ∧ ∀ o, o ∈ issues st → ¬ fixedMatch d o) →
  foldl (scanStep K) st ds = st.
Proof.
  induction ds as [|d ds IH]; intros Hall; simpl; [done|].
  assert (scanStep K st d = st) as ->.
  { destruct (Hall d) as [HK Hno]; [apply list_elem_of_here|].
    unfold scanStep.
    destruct (list_find _ _) as [[idx e]|] eqn:Hf.
    - apply list_find_Some in Hf as (Hidx & Hm & _).
      exfalso. apply (Hno e); [|done]. by eapply list_elem_of_lookup_2.
    - by rewrite decide_True. }
  apply IH. intros d' Hd'. apply Hall. by apply list_elem_of_further.
Qed.

(** X16. A failing iteration whose diagnosis reports only known failures
    (each discovered issue has the key of an entry that is not OPEN and
    matches no FIXED entry; an empty diagnosis is one such) abandons the
    loop at once: the solver is not called, and the ledger, the working
    tree, the applied fixes and the fixes shown are left as they were. *)
Theorem known_failures_only_abandon_the_loop
    (env : Env) (engine : Engine) (i : nat) (st : RunState)
    (discovered : list Discovered) :
  success (engineRun env engine i (tree st)) = false →
  analyzeOutput env i (output (engineRun env engine i (tree st))) (tree st)
    = Ret discovered →
  (∀ d, d ∈ discovered →
        discKey d ∈ addressedKeysOf (issuesLog st) ∧
        ∀ o, o ∈ issuesLog st → ¬ fixedMatch d o) →
  ∃ st',
    loopBody env engine i st = (Break, st') ∧
    issuesLog st' = issuesLog st ∧
    tree st' = tree st ∧
    allFixes st' = allFixes st ∧
    solverRuns st' = solverRuns st ∧
    isSuccess st' = isSuccess st ∧
    r_fixes (results st') = r_fixes (results st) ∧
    r_status (results st') = r_status (results st).
Proof.
  intros Hfail Hdisc Hknown. unfold loopBody. simpl. rewrite Hfail, Hdisc.
  unfold scanDiscovered. rewrite scan_all_known by exact Hknown. simpl.
  eexists. split; [reflexivity|]. by repeat split.
Qed.

Lemma known_failures_only_abandon_the_loop_witness :
  ∃ st',
    loopBody env_rereports_a8 enginePython 2 state_a8_failed = (Break, st') ∧
    issuesLog st' = issuesLog state_a8_failed ∧
    tree st' = tree state_a8_failed ∧
    allFixes st' = allFixes state_a8_failed ∧
    solverRuns st' = solverRuns state_a8_failed ∧
    isSuccess st' = isSuccess state_a8_failed ∧
    r_fixes (results st') = r_fixes (results state_a8_failed) ∧
    r_status (results st') = r_status (results state_a8_failed).
Proof.
  apply (known_failures_only_abandon_the_loop
           env_rereports_a8 enginePython 2 state_a8_failed [disc_a8]).
  - reflexivity.
  - reflexivity.
  - intros d Hd. apply list_elem_of_singleton in Hd as ->. split.
    + apply addressedKeysOf_spec. exists failed_a8.
      split; [apply list_elem_of_here|]. split; [discriminate|reflexivity].
    + intros o Ho. apply list_elem_of_singleton in Ho as ->.
      intros [_ Hs]. discriminate Hs.
Defined.

(** The scan keeps the identity of every entry. *)
Lemma scan_identities K ds st :
  identity <$> issues (foldl (scanStep K) st ds) = identity <$> issues st.
Proof.
  revert st. induction ds as [|d ds IH]; intros st; simpl; [done|].
  rewrite IH.
  destruct (scanStep_cases K st d) as [(idx & e & Hf & ->)|(_ & -> & _)]; [|done].
  apply list_find_Some in Hf as (Hidx & _ & _). simpl.
  rewrite list_fmap_insert.
  apply list_insert_id. by rewrite list_lookup_fmap, Hidx.
Qed.

Lemma merge_identities_prefix currentIssues discovered i :
  identity <$> currentIssues
    `prefix_of` identity <$> issues (merge currentIssues discovered i).
Proof.
  unfold merge; simpl. rewrite appendNew_spec, fmap_app.
  unfold scanDiscovered. rewrite scan_identities. simpl.
  apply prefix_app_r. done.
Qed.

(** One body of the loop only appends: to the identities of the ledger, to
    the output log and to the applied fixes; it creates and deletes no file
    of the working tree. *)
Lemma loopBody_appends env engine i st fl st' :
  loopBody env engine i st = (fl, st') →
  identity <$> issuesLog st `prefix_of` identity <$> issuesLog st' ∧
  outputLog st `prefix_of` outputLog st' ∧
  allFixes st `prefix_of` allFixes st' ∧
  (∀ f, tree st' !! f = None ↔ tree st !! f = None).
Proof.
  intros H.
  assert (outputLog st `prefix_of` outputLog st' ∧
          allFixes st `prefix_of` allFixes st' ∧
          (∀ f, tree st' !! f = None ↔ tree st !! f = None)) as Hrest.
  { revert H. unfold loopBody.
    destruct (success (engineRun env engine i _)) eqn:Hs; simpl.
    - intros [= <- <-]. simpl. split; [|done].
      rewrite <- !app_assoc. by apply prefix_app_r.
    - destruct (analyzeOutput env i _ (tree st)) as [discovered|e].
      + destruct (writeLogAt env i) as [[]|e].
        all: repeat case_decide; intros [= <- <-]; simpl;
          (split; [rewrite <- ?app_assoc; by apply prefix_app_r|]);
          (split; [try done; by apply prefix_app_r|]);
          try done.
        all: intros f; unfold runSolver; by rewrite solveFrom_disk_none.
      + intros [= <- <-]. simpl. split; [|done].
        rewrite <- !app_assoc. by apply prefix_app_r. }
  split; [|exact Hrest].
  destruct (success (engineRun env engine i (tree st))) eqn:Hs.
  - revert H. unfold loopBody. simpl. rewrite Hs. by intros [= <- <-].
  - destruct fl as [| |e].
    + destruct (loopBody_break_ledger _ _ _ _ _ H Hs) as (discovered & _ & ->).
      apply merge_identities_prefix.
    + destruct (loopBody_continue_ledger _ _ _ _ _ H) as (discovered & _ & Hl).
      simpl in Hl. rewrite Hl.
      unfold runSolver. rewrite solveFrom_identities. simpl.
      apply merge_identities_prefix.
    + by rewrite (loopBody_reject_ledger _ _ _ _ _ _ H).
Qed.

Lemma forLoop_appends env engine fuel i st st' :
  forLoop env engine fuel i st = Some st' →
  identity <$> issuesLog st `prefix_of` identity <$> issuesLog st' ∧
  outputLog st `prefix_of` outputLog st' ∧
  allFixes st `prefix_of` allFixes st' ∧
  (∀ f, tree st' !! f = None ↔ tree st !! f = None).
Proof.
  revert i st. induction fuel as [|fuel IH]; intros i st; simpl.
  - case_decide; [discriminate|]. by intros [= <-].
  - case_decide; [|by intros [= <-]].
    destruct (loopBody env engine i st) as [[| |e] st1] eqn:Hbody.
    + intros [= <-]. by eapply loopBody_appends.
    + intros Hloop.
      destruct (loopBody_appends _ _ _ _ _ _ Hbody) as (A1 & A2 & A3 & A4).
      destruct (IH _ _ Hloop) as (B1 & B2 & B3 & B4).
      split; [by etrans|]. split; [by etrans|]. split; [by etrans|].
      intros f. by rewrite B4, A4.
    + intros [= <-]. simpl. by eapply loopBody_appends.
Qed.

(** X17. The healing loop only appends. From any state at loop entry it
    ends, and then: every ledger entry is still at its position with its
    identity (file, type, line), the output log and the list of applied
    fixes have only grown at the end, and the working tree holds the same
    set of files. *)
Theorem healing_loop_only_appends
    (env : Env) (engine : Engine) (extra : nat) (st : RunState) :
  ∃ st',
    forLoop env engine (MAX_ITER + extra) 1 st = Some st' ∧
    identity <$> issuesLog st `prefix_of` identity <$> issuesLog st' ∧
    outputLog st `prefix_of` outputLog st' ∧
    allFixes st `prefix_of` allFixes st' ∧
    (∀ f, tree st' !! f = None ↔ tree st !! f = None).
Proof.
  destruct (forLoop_bounded env engine (MAX_ITER + extra) 1 st)
    as (st' & n & Hloop & _); [lia_iter|lia_iter|].
  exists st'. split; [done|]. by eapply forLoop_appends.
Qed.

(** ** Committing (orchestrator.js, [commitFixes]) *)

(** X18. [commitFixes] reports exactly what was committed: a fix is in the
    list it returns if and only if both its [git add] and its [git commit]
    returned, the rows keep the order of the fixes, and a fix that git
    refuses does not stop the later ones: every fix is staged, in order. *)
Theorem commitFixes_reports_exactly_the_commits
    (env : Env) (fixes : list Issue) (st : RunState) :
  let out := commitFixes env 0 fixes [] st in
  out.1 `sublist_of` (committedRowOf <$> fixes) ∧
  (∀ row, row ∈ out.1 ↔
     ∃ j fx, fixes !! j = Some fx ∧ row = committedRowOf fx ∧
             gitAdd env j (file fx) = Ret tt ∧
             gitCommit env j (commitMessageOf fx) = Ret tt) ∧
  ∃ ops, gitOps out.2 = gitOps st ++ ops ∧
         filter isGitAdd ops = (GitAdd ∘ file) <$> fixes.
Proof.
  simpl.
  destruct (commitFixes_rows env fixes 0 [] st) as (rows & Hrows & Hsub & Hiff).
  destruct (commitFixes_spec env fixes 0 [] st) as (ops & Hops & Hadds & _).
  simpl in Hrows. rewrite Hrows. split; [done|]. split; [done|].
  by exists ops.
Qed.

(** Of three fixes of which git refuses to stage the second and to commit
    the third, only the first is reported. *)
Example commit_refusals_are_skipped :
  (commitFixes env_git_refuses 0 [fixed_a8; fixed_b3; fixed_c1] []
     (initialState env_git_refuses)).1
  = [committedRowOf fixed_a8].
Proof. reflexivity. Qed.

(** ** What the dashboard is given (orchestrator.js, [updateFrontend]) *)

Lemma loopBody_mirror env engine i st fl st' :
  loopBody env engine i st = (fl, st') →
  r_fixes (results st) = ledgerRow <$> issuesLog st →
  r_fixes (results st') = ledgerRow <$> issuesLog st'.
Proof.
  unfold loopBody. intros H Hinv.
  destruct (success (engineRun env engine i _)) eqn:Hs; simpl in Hs.
  - by injection H as <- <-.
  - simpl in H.
    destruct (analyzeOutput env i _ (tree st)) as [discovered|e];
      [|by injection H as <- <-].
    case_decide.
    + by injection H as <- <-.
    + destruct (writeLogAt env i) as [[]|e].
      * case_decide; injection H as <- <-; by repeat case_decide.
      * injection H as <- <-; by repeat case_decide.
Qed.

Lemma forLoop_mirror env engine fuel i st st' :
  forLoop env engine fuel i st = Some st' →
  r_fixes (results st) = ledgerRow <$> issuesLog st →
  r_fixes (results st') = ledgerRow <$> issuesLog st'.
Proof.
  revert i st. induction fuel as [|fuel IH]; intros i st; simpl.
  - case_decide; [done|]. by intros [= <-].
  - case_decide; [|by intros [= <-]].
    destruct (loopBody env engine i st) as [[| |e] st1] eqn:Hbody.
    + intros [= <-]. by eapply loopBody_mirror.
    + intros Hloop Hinv. eapply IH; [exact Hloop|].
      by eapply loopBody_mirror.
    + intros [= <-] Hinv. simpl. by eapply loopBody_mirror.
Qed.

(** X19. The fixes that a run leaves in results.json are of one of two
    kinds. When no fix was applied and the tests never passed, and also
    when the run was rejected, they are the rows of the ledger, entry by
    entry. In a finished run with an applied fix or passing tests they are
    committed rows only: a sublist of the FIXED entries of the ledger,
    holding exactly those whose [git add] and [git commit] returned, so
    that the OPEN and FAILED entries are no longer shown. *)
Theorem shown_fixes_are_the_ledger_or_the_commits (env : Env) (extra : nat) :
  ∃ final,
    startOrchestrator env (MAX_ITER + extra) = Some final ∧
    let fixed := filter (λ iss, status iss = FIXED) (issuesLog final) in
    (¬ fixesOrSuccess final ∨ is_Some (rejected final) →
       r_fixes (results final) = ledgerRow <$> issuesLog final) ∧
    (fixesOrSuccess final → rejected final = None →
       r_fixes (results final) `sublist_of` (committedRowOf <$> fixed) ∧
       ∀ row, row ∈ r_fixes (results final) ↔
         ∃ j fx, fixed !! j = Some fx ∧ row = committedRowOf fx ∧
                 gitAdd env j (file fx) = Ret tt ∧
                 gitCommit env j (commitMessageOf fx) = Ret tt).
Proof.
  unfold startOrchestrator.
  destruct (runAuditor env) as [[localPath branchName]|e] eqn:Haud.
  - destruct (detectEngine env) as [engine|] eqn:Heng.
    + unfold healAndCommit. rewrite forLoop_fuel by lia_iter.
      match goal with |- context [forLoop env engine MAX_ITER 1 ?s] =>
        set (st0 := s);
        destruct (forLoop_bounded env engine MAX_ITER 1 st0)
          as (st' & n & Hloop & _); [lia_iter|lia_iter|]
      end.
      rewrite Hloop.
      pose proof (forLoop_mirror _ _ _ _ _ _ Hloop eq_refl) as Hmirror.
      destruct (rejected st') as [e|] eqn:Hrej.
      { exists st'. split; [reflexivity|]. cbv zeta. rewrite Hrej.
        split; [done|]. by intros _ [=]. }
      destruct (phase4_frame env branchName st') as (Hlog & Hfix & Hsucc & _).
      eexists. split; [reflexivity|]. cbv zeta.
      unfold fixesOrSuccess. rewrite phase4_rejected, Hrej, Hlog, Hfix, Hsucc.
      split.
      * intros [Hg|[e He]]; [|discriminate He]. unfold phase4.
        rewrite decide_False by exact Hg. simpl. exact Hmirror.
      * intros Hg _. destruct (phase4_fixes env branchName st' Hg) as [s ->].
        destruct (commitFixes_rows env
                    (filter (λ iss, status iss = FIXED) (issuesLog st')) 0 [] s)
          as (rows & -> & Hsub & Hiff).
        simpl. split; [done|]. exact Hiff.
    + eexists. split; [reflexivity|]. simpl. split; [done|].
      intros [Hg|Hg]; [simpl in Hg; lia|discriminate Hg].
  - eexists. split; [reflexivity|]. simpl. split; [done|].
    intros [Hg|Hg]; [simpl in Hg; lia|discriminate Hg].
Qed.


(** ** The Node.js engine and engine detection *)

Import NodeEngine.

(** The first thing [runTestsInSandbox] does is to ask for the container. *)
Lemma runTestsInSandbox_first_call d localPath testCmd imageName :
  ∃ rest, trace (runTestsInSandbox d localPath testCmd imageName).2
          = EvCreate imageName :: rest.
Proof. unfold_sandbox. daemon_cases d; eauto. Qed.

Lemma scriptCommands_throws fs pkgPath e :
  scriptCommands fs pkgPath = Throw e ↔
  readJson fs pkgPath = Throw e ∨
  (readJson fs pkgPath = Ret JNull ∧
   e = "Cannot read properties of null (reading 'scripts')").
Proof.
  unfold scriptCommands.
  destruct (readJson fs pkgPath) as [pkg|e'].
  - destruct pkg; simpl.
    2-6: repeat match goal with |- context [if ?b then _ else _] => destruct b end.
    all: split;
      [intros H; try discriminate H; injection H as <-; right; by split
      |intros [H|[H ?]]; try discriminate H; by subst].
  - split; [intros [= <-]; by left|]. by intros [[= <-]|[[=] _]].
Qed.

(** X20. [engineNode.run] starts no container for a package.json it
    cannot use: when reading or parsing it throws, or it parses to
    [null], the result is a failure whose output is
    "Error reading package.json: " followed by the error message, and the
    daemon is not called. In every other case the sandbox is run, once,
    on the image node:18-alpine. *)
Theorem engineNode_unusable_manifest_starts_no_container
    (fs : Fs) (d : Docker) (localPath subDir : string) :
  let out := engineNode_run fs d localPath subDir in
  let manifest := readJson fs (pkgPathOf localPath subDir) in
  (((∃ e, manifest = Throw e) ∨ manifest = Ret JNull) ↔ trace out.2 = []) ∧
  (∀ e, manifest = Throw e →
        out.1 = Ret {| success := false;
                       output := "Error reading package.json: " +:+ e |}) ∧
  (trace out.2 ≠ [] →
     ∃ rest, trace out.2 = EvCreate nodeImage :: rest ∧
             ∀ image, EvCreate image ∈ rest → False).
Proof.
  simpl. unfold engineNode_run.
  destruct (scriptCommands fs (pkgPathOf localPath subDir)) as [pushed|e] eqn:Hsc.
  - assert (¬ ((∃ e, readJson fs (pkgPathOf localPath subDir) = Throw e) ∨
               readJson fs (pkgPathOf localPath subDir) = Ret JNull)) as Hgood.
    { intros [[e He]|Hnull].
      - assert (scriptCommands fs (pkgPathOf localPath subDir) = Throw e) as Hc
          by (apply scriptCommands_throws; by left).
        rewrite Hsc in Hc. discriminate.
      - assert (scriptCommands fs (pkgPathOf localPath subDir)
                = Throw "Cannot read properties of null (reading 'scripts')") as Hc
          by (apply scriptCommands_throws; by right).
        rewrite Hsc in Hc. discriminate. }
    match goal with |- context [runTestsInSandbox d localPath ?c nodeImage] =>
      set (cmd := c)
    end.
    split; [|split].
    + split; [done|]. intros Hnil.
      destruct (runTestsInSandbox_first_call d localPath cmd nodeImage) as [rest Hr].
      rewrite Hr in Hnil. discriminate.
    + intros e He. exfalso. apply Hgood. left. eauto.
    + intros _. revert cmd. intros cmd. clearbody cmd. clear.
      unfold_sandbox. daemon_cases d.
      all: eexists; (split; [reflexivity|]).
      all: intros image H; absent H.
  - simpl. split; [|split].
    + split; [done|]. intros _.
      apply scriptCommands_throws in Hsc as [Hsc|[Hsc _]]; eauto.
    + intros e' He'. apply scriptCommands_throws in Hsc as [Hsc|[Hsc _]].
      * rewrite Hsc in He'. by injection He' as ->.
      * rewrite Hsc in He'. discriminate.
    + done.
Qed.

(** X21. After the install, [engineNode.run] runs at most one script,
    and only a script that the legacy test step would run as well, from the
    same package.json: the engine's commands are a sublist of the legacy
    ones, both are empty together, and the two differ only when both a
    test and a lint script exist, where the legacy step runs both and the
    engine the tests alone. When the engine cannot use the package.json,
    the legacy step runs the bare install. *)
Theorem engineNode_runs_one_of_the_legacy_scripts (fs : Fs) (pkgPath : string) :
  match scriptCommands fs pkgPath with
  | Ret pushed =>
      length pushed ≤ 1 ∧
      pushed `sublist_of` legacyScriptCommands fs pkgPath ∧
      (pushed = [] ↔ legacyScriptCommands fs pkgPath = []) ∧
      (pushed ≠ legacyScriptCommands fs pkgPath ↔
         pushed = ["npm test"] ∧
         legacyScriptCommands fs pkgPath = ["npm test"; "npm run lint"])
  | Throw _ => legacyScriptCommands fs pkgPath = []
  end.
Proof.
  unfold scriptCommands, legacyScriptCommands.
  destruct (readJson fs pkgPath) as [pkg|e]; [|done].
  destruct (getProp pkg "scripts") as [scripts|e]; [|done].
  destruct (truthy scripts).
  - destruct (hasScript scripts "test"), (hasScript scripts "lint"),
      (hasScript scripts "build"); simpl.
    all: split; [lia|].
    all: split; [repeat first [apply sublist_nil | apply sublist_skip | apply sublist_cons]
                |].
    all: split; [by split|].
    all: split; [try (by intros []); by intros _|by intros [[=] [=]] || by intros [_ [=]] || by intros [[=] _] || by intros _ ].
  - simpl. split; [lia|]. split; [done|]. split; [done|].
    split; [by intros []|by intros [[=] _]].
Qed.

(** X22. Engine detection looks at three files and prefers Node.js: the
    Node.js engine is chosen exactly when package.json exists at the root
    or under frontend/ (whether or not requirements.txt exists, and the
    root wins over frontend/), the Python engine exactly when neither
    exists and requirements.txt does, and no engine exactly when none of
    the three exists. *)
Theorem detection_prefers_node (fs : Fs) (localPath : string) (env : Env) :
  let present segments := existsSync fs (pathJoin (localPath :: segments)) = true in
  let detected := detectEngine (withDiscovery fs localPath env) in
  (detected = Some engineNode ↔
     present ["package.json"] ∨ present ["frontend"; "package.json"]) ∧
  (detected = Some enginePython ↔
     ¬ present ["package.json"] ∧ ¬ present ["frontend"; "package.json"] ∧
     present ["requirements.txt"]) ∧
  (detected = None ↔
     ¬ present ["package.json"] ∧ ¬ present ["frontend"; "package.json"] ∧
     ¬ present ["requirements.txt"]) ∧
  (engineNode_discover fs localPath = Some "frontend" ↔
     ¬ present ["package.json"] ∧ present ["frontend"; "package.json"]) ∧
  (engineNode_discover fs localPath = Some "." ↔ present ["package.json"]).
Proof.
  simpl. unfold detectEngine, withDiscovery, engineNode_discover,
    enginePython_discover. simpl.
  destruct (existsSync fs (pathJoin [localPath; "package.json"])),
    (existsSync fs (pathJoin [localPath; "frontend"; "package.json"])),
    (existsSync fs (pathJoin [localPath; "requirements.txt"])); simpl.
  all: repeat split; try done; try tauto; try (by left); try (by right).
  all: try (by intros [[=]|[=]]); try (by intros [? ?]); try (by intros (? & ? & ?)).
Qed.

(** ** The dashboards *)

Import Dashboard.

(** X23. The score shown is never negative and never above 110. Up to 20
    commits cost nothing; one more commit never raises the score and
    lowers it by two points at most, and the score is zero
    exactly from 75 commits on for a run under five minutes and from 70
    commits on otherwise. *)
Theorem score_is_bounded_and_falls_with_commits (elapsedTime : Z) (n : nat) :
  (0 ≤ totalScore elapsedTime n ≤ 110)%Z ∧
  (n ≤ 20 → totalScore elapsedTime n = (100 + speedBonus elapsedTime)%Z) ∧
  (totalScore elapsedTime n - 2 ≤ totalScore elapsedTime (S n)
     ≤ totalScore elapsedTime n)%Z ∧
  (totalScore elapsedTime n = 0%Z ↔
     if (elapsedTime <? 300)%Z then 75 ≤ n else 70 ≤ n).
Proof.
  unfold totalScore, baseScore, speedBonus, commitPenalty.
  destruct (elapsedTime <? 300)%Z.
  all: repeat split; intros;
    repeat match goal with
           | |- context [(?a >? ?b)%Z] => destruct (Z.gtb_spec a b)
           | H : context [(?a >? ?b)%Z] |- _ => destruct (Z.gtb_spec a b)
           end; lia.
Qed.

(** X24. For a run that did not end before it started, the execution time
    shows whole seconds: the seconds are between 0 and 59, and minutes and
    seconds together are the elapsed time in seconds, rounded down. *)
Theorem execution_time_shows_whole_seconds (elapsed : Z) :
  (0 ≤ elapsed)%Z →
  (0 ≤ minutesOf elapsed)%Z ∧
  (0 ≤ secondsOf elapsed < 60)%Z ∧
  (60 * minutesOf elapsed + secondsOf elapsed = elapsed / 1000)%Z.
Proof.
  intros Hpos. unfold minutesOf, secondsOf.
  rewrite Z.rem_mod_nonneg by lia.
  pose proof (Z.div_mod elapsed 60000 ltac:(lia)) as Hdm.
  pose proof (Z.mod_pos_bound elapsed 60000 ltac:(lia)) as Hb.
  assert (0 ≤ elapsed / 60000)%Z as Hm by (apply Z.div_pos; lia).
  assert (0 ≤ elapsed mod 60000 / 1000 < 60)%Z as Hs.
  { split; [apply Z.div_pos; lia|]. apply Z.div_lt_upper_bound; lia. }
  split; [done|]. split; [done|].
  rewrite Hdm at 3.
  replace (60000 * (elapsed / 60000) + elapsed mod 60000)%Z
    with (elapsed mod 60000 + (60 * (elapsed / 60000)) * 1000)%Z by lia.
  rewrite Z.div_add by lia. lia.
Qed.

Lemma execution_time_shows_whole_seconds_witness :
  (0 ≤ minutesOf 125999)%Z ∧
  (0 ≤ secondsOf 125999 < 60)%Z ∧
  (60 * minutesOf 125999 + secondsOf 125999 = 125999 / 1000)%Z.
Proof. apply (execution_time_shows_whole_seconds 125999). lia. Defined.

(** A run whose end is recorded one millisecond before its start is shown
    as minus one minute and minus one second. *)
Example execution_time_of_a_negative_span :
  executionTime (Some 1000%Z) (Some 999%Z) 5000 = "-1m -1s".
Proof. reflexivity. Qed.

Lemma prefix_failed s :
  String.prefix "failed" s = true →
  String.eqb s "fixed" = false ∧ String.eqb s "applied" = false ∧
  String.eqb s "open" = false ∧ String.eqb s "in_progress" = false ∧
  String.eqb s "" = false.
Proof.
  intros Hp. repeat split; apply String.eqb_neq; intros ->; discriminate Hp.
Qed.

(** X25. A row never shows two badges, and every row that the controller
    writes to results.json shows exactly one: Fixed for a FIXED entry and
    for a committed fix, Fixing... for an OPEN entry, and Failed for the
    two FAILED statuses. A row without status shows Fixing.... *)
Theorem every_row_shows_one_badge :
  (∀ status, length (badges status) ≤ 1) ∧
  (∀ row, badges (Some (rowStatus row)) =
          match row with
          | CommittedRow _ _ => [BadgeFixed]
          | LedgerRow _ _ _ _ FIXED => [BadgeFixed]
          | LedgerRow _ _ _ _ OPEN => [BadgeOpen]
          | LedgerRow _ _ _ _ _ => [BadgeFailed]
          end) ∧
  badges None = [BadgeOpen] ∧ badges (Some "") = [BadgeOpen].
Proof.
  split; [|split; [|done]].
  - intros status. unfold badges, isFixed, isOpen.
    set (s := toLowerCase _). clearbody s.
    destruct (isFailed s) eqn:Hf.
    + apply prefix_failed in Hf as (-> & -> & -> & -> & ->). simpl. lia.
    + destruct (String.eqb_spec s "fixed") as [->|?]; [simpl; lia|].
      destruct (String.eqb_spec s "applied") as [->|?]; [simpl; lia|].
      simpl.
      destruct (String.eqb s "open" || String.eqb s "in_progress" || String.eqb s "");
        simpl; lia.
  - by intros [f t l d []|fx msg].
Qed.

(** ** The Auditor: the branch name *)

Import Auditor.

Lemma chars_app s t : chars (s +:+ t) = chars s ++ chars t.
Proof. induction s as [|c s IH]; simpl; [done|]. by rewrite IH. Qed.

Lemma replaceSpaces_no_space s : space ∉ chars (replaceSpaces s).
Proof.
  induction s as [|c s IH]; simpl; [by intros ?%elem_of_nil|].
  intros [Hc|Hin]%elem_of_cons; [|done].
  destruct (Ascii.eqb_spec c space); [discriminate Hc|]. by symmetry in Hc.
Qed.

Lemma pretty_N_char_no_space x : pretty_N_char x ≠ space.
Proof.
  unfold pretty_N_char.
  by repeat match goal with |- context [match ?n with _ => _ end] => destruct n end.
Qed.

Lemma pretty_N_go_no_space x : ∀ s,
  space ∉ chars s → space ∉ chars (pretty_N_go x s).
Proof.
  induction (N.lt_wf_0 x) as [x _ IH]; intros s Hs.
  destruct (decide (0 < x)%N) as [Hx|Hx].
  - rewrite pretty_N_go_step by done. apply IH.
    + apply N.div_lt; lia.
    + simpl. intros [Hc|Hin]%elem_of_cons; [|done].
      by eapply pretty_N_char_no_space.
  - assert (x = 0%N) as -> by lia. by rewrite pretty_N_go_0.
Qed.

Lemma pretty_N_no_space (x : N) : space ∉ chars (pretty x).
Proof.
  unfold pretty, pretty_N. destruct (decide (x = 0%N)).
  - simpl. intros [Hc|Hin]%elem_of_cons; [discriminate|by apply elem_of_nil in Hin].
  - apply pretty_N_go_no_space. simpl. by intros ?%elem_of_nil.
Qed.

Lemma append_inj_r (p s t : string) : p +:+ s = p +:+ t → s = t.
Proof. induction p as [|c p IH]; simpl; [done|]. intros [= H]. by apply IH. Qed.

(** X26. The branch name holds no space, whatever the team and leader
    names are, and two runs for the same team and leader get the same
    branch name only if they were started in the same millisecond. *)
Theorem branch_name_has_no_space_and_is_unique_per_timestamp
    (teamName leaderName : string) :
  (∀ timestamp, space ∉ chars (branchName teamName leaderName timestamp)) ∧
  (∀ t1 t2, branchName teamName leaderName t1 = branchName teamName leaderName t2 →
            t1 = t2).
Proof.
  split.
  - intros timestamp. unfold branchName. rewrite !chars_app.
    rewrite !elem_of_app. intros [H|[H|[H|[H|H]]]].
    + by eapply replaceSpaces_no_space.
    + simpl in H. apply list_elem_of_singleton in H. discriminate H.
    + by eapply replaceSpaces_no_space.
    + simpl in H.
      repeat (apply elem_of_cons in H as [H|H]; [discriminate H|]).
      by apply elem_of_nil in H.
    + by eapply pretty_N_no_space.
  - intros t1 t2 H. unfold branchName in H.
    do 4 apply append_inj_r in H. by apply (inj pretty) in H.
Qed.

(** [toUpperCase] does not remove the lower-case letters of "_AI_Fix_",
    and only spaces are replaced. *)
Example branch_name_of_a_team :
  branchName "Vic Raptors" "ada l" 1700000000000
  = "VIC_RAPTORS_ADA_L_AI_Fix_1700000000000".
Proof. vm_compute. reflexivity. Qed.

(** ** The legacy pipeline: the workflow graph *)

Import Legacy.

Lemma countOf_cons n m l :
  countOf n (m :: l) = (if decide (m = n) then 1 else 0) + countOf n l.
Proof.
  unfold countOf. destruct (decide (m = n)) as [H|H].
  - by rewrite filter_cons_True.
  - by rewrite filter_cons_False.
Qed.

(** The graph run from [test] with [iteration = 6 - n]. *)
Lemma runGraph_from_test env n :
  ∀ fuel st,
    iteration st + n = 6 → 3 * n + 1 ≤ fuel →
    ∃ r st' tail,
      runGraph env fuel test st = Some (r, st') ∧
      visited st' = visited st ++ tail ∧
      1 ≤ countOf test tail ≤ n + 1 ∧
      countOf analyze tail ≤ n ∧
      countOf fixNode tail ≤ n ∧
      countOf setup tail = 0 ∧
      length tail ≤ 3 * n + 1 ∧
      iteration st ≤ iteration st' ≤ 6 ∧
      (r = Ret tt → passed st' = false →
         countOf test tail = n + 1 ∧ countOf fixNode tail = n ∧
         iteration st' = 6) ∧
      (passed st' = true → r = Ret tt) ∧
      (∀ e, r = Throw e → iteration st' < 6).
Proof.
  induction n as [|n IH]; intros fuel st Hit Hfuel.
  - destruct fuel as [|fuel]; [lia|]. simpl.
    destruct (runTestsAt env (length (visited st))) as [out p].
    unfold afterTest. simpl. destruct p.
    + eexists _, _, [test]. split; [reflexivity|]. simpl.
      repeat split; try done; try lia; try (cbv; lia).
    + rewrite decide_True by lia.
      eexists _, _, [test]. split; [reflexivity|]. simpl.
      repeat split; try done; try lia; try (cbv; lia).
  - destruct fuel as [|[|[|fuel]]]; try lia. simpl.
    destruct (runTestsAt env (length (visited st))) as [out p].
    unfold afterTest. simpl. destruct p.
    + eexists _, _, [test]. split; [reflexivity|]. simpl.
      repeat split; try done; try lia; try (cbv; lia).
    + rewrite decide_False by lia.
      destruct (analyzeAt env _ out) as [found|e].
      * destruct (applyFixesAt env _ found) as [fixes|e].
        -- match goal with |- context [runGraph env fuel test ?s] =>
             destruct (IH fuel s) as (r & st' & tail & -> & Hv & Ht & Ha & Hf & Hs
                                      & Hlen & Hiter & Hfull & Hpass & Hthrow);
               [simpl; lia|lia|]
           end.
           simpl in Hv, Hiter.
           exists r, st', (test :: analyze :: fixNode :: tail).
           split; [done|].
           split; [by rewrite Hv, <- !app_assoc|].
           rewrite !countOf_cons. simpl.
           split; [lia|]. split; [lia|]. split; [lia|]. split; [lia|].
           split; [lia|]. split; [lia|].
           split; [intros Hr Hp; destruct (Hfull Hr Hp) as (? & ? & ?); lia|].
           split; [done|]. done.
        -- eexists _, _, [test; analyze; fixNode]. split; [reflexivity|]. simpl.
           split; [by rewrite <- !app_assoc|].
           repeat split; try done; try lia; try (cbv; lia).
      * eexists _, _, [test; analyze]. split; [reflexivity|]. simpl.
        split; [by rewrite <- !app_assoc|].
        repeat split; try done; try lia; try (cbv; lia).
Qed.

Lemma runGraph_setup env fuel st :
  runGraph env (S fuel) setup st = runGraph env fuel test (visit setup st).
Proof. reflexivity. Qed.

(** X27. The legacy workflow always ends, far below its recursion limit
    of 50: it runs setup once, the tests at least once and at most six
    times, analysis and repair at most five times each, seventeen nodes at
    most. It ends with an error only when analysis or repair throws; when
    it returns without passing tests, it has run the tests exactly six
    times and the repair five times. *)
Theorem legacy_workflow_ends_within_six_test_runs (env : LegacyEnv) :
  ∃ r st,
    runAgent env = Some (r, st) ∧
    runsOf setup st = 1 ∧
    1 ≤ runsOf test st ≤ 6 ∧
    runsOf analyze st ≤ 5 ∧
    runsOf fixNode st ≤ 5 ∧
    length (visited st) ≤ 17 ∧
    1 ≤ iteration st ≤ 6 ∧
    (passed st = true → ∃ out, r = Ret out ∧ totalFailures out = 0) ∧
    (∀ out, r = Ret out → passed st = false →
            runsOf test st = 6 ∧ runsOf fixNode st = 5 ∧ iteration st = 6 ∧
            totalFailures out = length (bugs st)).
Proof.
  unfold runAgent, recursionLimit.
  rewrite runGraph_setup.
  destruct (runGraph_from_test env 5 49 (visit setup initialGraphState))
    as (r & st & tail & -> & Hv & Ht & Ha & Hf & Hs & Hlen & Hiter & Hfull
        & Hpass & Hthrow); [done|lia|].
  simpl in Hv, Hiter.
  assert (∀ n, runsOf n st = countOf n (setup :: tail)) as Hruns
    by (intros n; unfold runsOf; by rewrite Hv).
  assert (length (visited st) = S (length tail)) as Hl by by rewrite Hv.
  destruct r as [[]|e].
  - eexists _, st. split; [reflexivity|].
    rewrite !Hruns, !countOf_cons. simpl.
    split; [lia|]. split; [lia|]. split; [lia|]. split; [lia|].
    split; [lia|]. split; [lia|].
    split.
    + intros Hp. eexists. split; [reflexivity|]. simpl. by rewrite Hp.
    + intros out [= <-] Hp. destruct (Hfull eq_refl Hp) as (? & ? & ?).
      simpl. rewrite Hp. done.
  - eexists _, st. split; [reflexivity|].
    rewrite !Hruns, !countOf_cons. simpl.
    split; [lia|]. split; [lia|]. split; [lia|]. split; [lia|].
    split; [lia|]. split; [lia|].
    split.
    + intros Hp. by specialize (Hpass Hp).
    + by intros out [=].
Qed.
